(** * The receive session of [wormhole receive] (src/wormhole/cli/cmd_receive.py)

    A shallow embedding of [TwistedReceiver] and of the Python primitives it
    calls, followed by the properties of the session.

    - Text and paths are [string]s; the path functions are those of Python's
      [os.path] on POSIX.
    - A decoded negotiation message is a [json] value; its numbers are
      integers.
    - The session is a computation in a state-and-exception monad.  Every
      call into a collaborator (the wormhole channel, the transit receiver,
      the record pipe, the console, the file system) is logged as an [event];
      the file system at any moment is the initial one with the logged
      effects replayed on it.  Two paths are the same file when they are the
      same string.
    - The collaborators answer as their contracts say.  The failures the
      source provides for are modelled: what [w.get()] and [w.verify()] can
      raise, a short or long count from the record pipe, the end of standard
      input, a missing key or a value of the wrong type in a message, and a
      [w.get()] that never fires.  So are the two ways the unpacking of a
      directory can fail: the received bytes are no archive, or the
      extraction breaks off part of the way.  Other failures of the
      collaborators (a [connect] or a [send_record] that raises, an I/O
      error in [open], [close] or [os.rename]) are not modelled.
    - A file opened for writing is buffered: what is written to it is sure
      to be on the disk only once the file has been closed.
    - The [timing] instrumentation and the [tqdm] progress bar have no effect
      on the session and are left out. *)

From Stdlib Require Import ZArith String Ascii List Lia Bool.
From stdpp Require Import gmap strings list.

Local Open Scope string_scope.
Local Open Scope list_scope.
Local Open Scope Z_scope.

#[local] Set Warnings "-register-all".

(** Bytes are [Byte.byte]. *)
Abbreviation byte := Byte.byte.

(** ** Python string primitives *)

Module PyStr.

(** [s.rfind(c)]: the index of the last occurrence of [c], or -1.  The scan
    keeps the current index [i] and the last index seen. *)
Fixpoint rfind_from (c : ascii) (i last : Z) (s : string) : Z :=
  match s with
  | EmptyString => last
  | String a r => rfind_from c (i + 1) (if Ascii.eqb a c then i else last) r
  end.

Definition rfind (c : ascii) (s : string) : Z := rfind_from c 0 (-1) s.

(** [s[n:]] for a natural [n]. *)
Fixpoint drop (n : nat) (s : string) : string :=
  match n, s with
  | O, _ => s
  | S _, EmptyString => EmptyString
  | S k, String _ r => drop k r
  end.

(** [s[i:]] for an index [i >= 0]. *)
Definition slice_from (i : Z) (s : string) : string := drop (Z.to_nat i) s.

(** [s.startswith(pre)] *)
Fixpoint startswith (pre s : string) : bool :=
  match pre, s with
  | EmptyString, _ => true
  | String _ _, EmptyString => false
  | String p pre', String a s' => Ascii.eqb p a && startswith pre' s'
  end.

(** [s.endswith(c)] for a one-character [c]. *)
Fixpoint endswith_char (c : ascii) (s : string) : bool :=
  match s with
  | EmptyString => false
  | String a EmptyString => Ascii.eqb a c
  | String _ r => endswith_char c r
  end.

(** [c in s] for a one-character [c]. *)
Fixpoint has_char (c : ascii) (s : string) : bool :=
  match s with
  | EmptyString => false
  | String a r => Ascii.eqb a c || has_char c r
  end.

(** [sub in s] on strings: [sub] occurs somewhere in [s]. *)
Fixpoint contains (sub s : string) : bool :=
  startswith sub s ||
  match s with
  | EmptyString => false
  | String _ r => contains sub r
  end.

Definition lower_char (a : ascii) : ascii :=
  let n := nat_of_ascii a in
  if (65 <=? n)%nat && (n <=? 90)%nat then ascii_of_nat (n + 32) else a.

(** [s.lower()], on ASCII text. *)
Fixpoint lower (s : string) : string :=
  match s with
  | EmptyString => EmptyString
  | String a r => String (lower_char a) (lower r)
  end.

(** [s.split(c)]: the pieces between the occurrences of [c]; never empty. *)
Fixpoint split (c : ascii) (s : string) : list string :=
  match s with
  | EmptyString => [EmptyString]
  | String a r =>
      if Ascii.eqb a c then EmptyString :: split c r
      else match split c r with
           | h :: t => String a h :: t
           | [] => [String a EmptyString]
           end
  end.

(** Truth value of an optional string: [None] and [""] are false. *)
Definition truthy (o : option string) : bool :=
  match o with
  | Some s => negb (String.eqb s "")
  | None => false
  end.

End PyStr.

(** ** [os.path] on POSIX *)

Module PosixPath.
Import PyStr.

Definition sep : ascii := "/"%char.
Definition curdir : string := ".".
Definition pardir : string := "..".

(** [basename(p)]: [i = p.rfind(sep) + 1; return p[i:]]. *)
Definition basename (p : string) : string :=
  let i := rfind sep p + 1 in
  slice_from i p.

(** [join(a, b)] with one further component. *)
Definition join (a b : string) : string :=
  if startswith "/" b then b
  else if String.eqb a "" || endswith_char sep a then a +:+ b
  else a +:+ "/" +:+ b.

(** One round of the loop of [normpath] over the components; [new_comps] is
    the stack built so far, [initial_slashes] whether the path is rooted. *)
Definition norm_step (initial_slashes : bool) (new_comps : list string)
    (comp : string) : list string :=
  if String.eqb comp "" || String.eqb comp curdir then new_comps
  else if negb (String.eqb comp pardir)
          || (negb initial_slashes && bool_decide (new_comps = []))
          || (bool_decide (new_comps ≠ [])
              && bool_decide (last new_comps = Some pardir))
       then new_comps ++ [comp]
       else if bool_decide (new_comps ≠ []) then removelast new_comps
       else new_comps.

(** The components [normpath] keeps. *)
Definition norm_comps (path : string) : list string :=
  fold_left (norm_step (startswith "/" path)) (split sep path) [].

(** POSIX allows one or two initial slashes and treats three or more as
    one. *)
Definition initial_slashes (path : string) : string :=
  if startswith "/" path then
    if startswith "//" path && negb (startswith "///" path) then "//" else "/"
  else "".

Definition normpath (path : string) : string :=
  if String.eqb path "" then "."
  else
    let p := initial_slashes path +:+ String.concat "/" (norm_comps path) in
    if String.eqb p "" then "." else p.

End PosixPath.

(** ** Decoded JSON documents *)

Inductive json : Type :=
| JNull
| JBool (b : bool)
| JNum (n : Z)
| JStr (s : string)
| JList (l : list json)
| JObj (kvs : list (string * json)).

(** The object [{k: v}]. *)
Definition jobj1 (k : string) (v : json) : json := JObj [(k, v)].

(** ** Exceptions *)

(** What a call into the wormhole channel can raise. *)
Inductive chan_exn : Type :=
| XWormholeClosed
| XWrongPassword
| XTimeout
| XOther (name : string).

Inductive exn : Type :=
| TransferError (reason : json)
| RespondError (response : string)
| WormholeClosedError
| WrongPasswordError
| TimeoutError
| AssertionError
| KeyError (key : string)
| TypeError
| AttributeError
| EOFError
| OtherError (name : string).

Definition exn_of_chan (x : chan_exn) : exn :=
  match x with
  | XWormholeClosed => WormholeClosedError
  | XWrongPassword => WrongPasswordError
  | XTimeout => TimeoutError
  | XOther n => OtherError n
  end.

(** ** The file system *)

(** [Unflushed data] is a file that is open for writing and has been handed
    [data]: the bytes sit in the buffer of the file object, and how many of
    them have reached the disk is not known before the file is closed. *)
Inductive node : Type :=
| File (data : list byte)
| Dir
| Unflushed (data : list byte).

(** A file object handed to the record pipe: a named file opened for
    writing, or a [tempfile.SpooledTemporaryFile], which has no name. *)
Inductive fileobj : Type :=
| NamedFile (name : string)
| SpooledTemporaryFile.

(** [zipfile.ZipFile.extractall] belongs to Python's standard library and
    is not under src/; this module holds what [write_directory] relies on. *)
Module ZipFile.
Import PyStr PosixPath.

Definition invalid_path_part (x : string) : bool :=
  String.eqb x "" || String.eqb x curdir || String.eqb x pardir.

(** The components of a member name that survive. *)
Definition arc_comps (filename : string) : list string :=
  List.filter (fun x => negb (invalid_path_part x)) (split sep filename).

(** Modelled from the spec: the extraction sanitizes every entry path, and
    entries naming parent-directory traversal sequences are confined to the
    destination root; the comment in [write_directory] adds that "/tmp/oops"
    and "../tmp/oops" both do the same thing as the (safe) "tmp/oops".
    Accordingly the member name is split at the separator, the components
    [""], ["."] and [".."] are dropped and the rest is joined again. *)
Definition sanitize (filename : string) : string :=
  String.concat "/" (arc_comps filename).

(** Modelled from the spec: a member is written at its sanitized name,
    joined under the destination and normalized. *)
Definition extract_target (path : string) (filename : string) : string :=
  normpath (join path (sanitize filename)).

(** A member whose name ends in the separator is a directory. *)
Definition extract_member (path : string) (fs : gmap string node)
    (member : string * list byte) : gmap string node :=
  let target := extract_target path member.1 in
  if endswith_char sep member.1
  then match fs !! target with
       | Some Dir => fs
       | _ => <[target := Dir]> fs
       end
  else <[target := File member.2]> fs.

(** Modelled from the spec: the members are extracted one after the other,
    each at its target. *)
Definition extractall (path : string) (members : list (string * list byte))
    (fs : gmap string node) : gmap string node :=
  fold_left (extract_member path) members fs.

End ZipFile.

(** ** Events *)

(** Lines printed on [args.stdout] by [self.msg]; the format string of each
    is given on its right. *)
Inductive console : Type :=
| MsgVerifier (verifier : list byte)          (* "Verifier %s." *)
| MsgText (body : json)                       (* them_d["message"] *)
| MsgUnknownOffer                             (* "I don't know what they're offering\n" *)
| MsgOfferDetails (them_d : json)             (* "Offer details: %r" *)
| MsgReceivingFile (size : Z) (name : string) (* "Receiving file (%d bytes) into: %s" *)
| MsgUnknownMode (zipmode : json)             (* "Error: unknown directory-transfer mode '%s'" *)
| MsgReceivingDir (size : Z) (name : string)  (* "Receiving directory (%d bytes) into: %s/" *)
| MsgDirStats (numfiles numbytes : Z)         (* "%d files, %d bytes (uncompressed)" *)
| MsgRefuseOverwrite (mode destname : string) (* "Error: refusing to overwrite existing %s %s" *)
| MsgReceiving (describe : string)            (* "Receiving (%s).." *)
| MsgBlank                                    (* "" *)
| MsgDropped                                  (* "Connection dropped before full file received" *)
| MsgGotWanted (received wanted : Z)          (* "got %d bytes, wanted %d" *)
| MsgFileWritten (name : string)              (* "Received file written to %s" *)
| MsgUnpacking                                (* "Unpacking zipfile.." *)
| MsgFilesWritten (name : string).            (* "Received files written to %s/" *)

Inductive event : Type :=
(* Tor and the wormhole channel *)
| EvTorStart
| EvWormhole (appid relay_url : string)
| EvSetCode (code : string)
| EvInputCode (prompt : string) (code_length : Z)
| EvVerify
| EvSend (data : json)
| EvDeriveKey (purpose : string)
| EvWormholeClose
(* the console *)
| EvMsg (m : console)
| EvStderr (line : string)
| EvLog (them_d : json)
| EvInput (prompt : string)
(* the transit receiver and the record pipe *)
| EvTransitReceiver (transit_helper : string) (no_listen : bool)
| EvSetTransitKey
| EvAddDirectHints (hints : json)
| EvAddRelayHints (hints : json)
| EvConnect
| EvWriteToFile (f : fileobj) (expected received : Z) (data : list byte)
| EvSendRecord (record : list byte)
| EvPipeClose
(* files *)
| EvOpen (name : string)
| EvSpool
| EvFileClose (f : fileobj)
| EvRename (src dst : string)
| EvExtractAll (path : string) (members : list (string * list byte))
| EvExtractFailed (path : string) (done : list (string * list byte)).

(** The effect of one event on the file system.  [open(name, "wb")] creates
    or truncates; the record pipe writes what it received into the file
    object it was given, where it stays buffered until [f.close()] puts it on
    the disk; [os.rename] moves the node, replacing the target; an
    extraction that completes writes all the members, one that breaks off
    ([EvExtractFailed]) has written [done]. *)
Definition apply_event (fs : gmap string node) (e : event) : gmap string node :=
  match e with
  | EvOpen name => <[name := File []]> fs
  | EvWriteToFile (NamedFile name) _ _ data => <[name := Unflushed data]> fs
  | EvFileClose (NamedFile name) =>
      match fs !! name with
      | Some (Unflushed data) => <[name := File data]> fs
      | _ => fs
      end
  | EvRename src dst =>
      match fs !! src with
      | Some n => <[dst := n]> (delete src fs)
      | None => fs
      end
  | EvExtractAll path members => ZipFile.extractall path members fs
  | EvExtractFailed path done => ZipFile.extractall path done fs
  | _ => fs
  end.

Definition replay (fs0 : gmap string node) (tr : list event) : gmap string node :=
  fold_left apply_event tr fs0.

(** ** Configuration, collaborators and state *)

(** The command-line arguments the session reads ([self.args]). *)
Record args : Type := {
  tor : bool;
  relay_url : string;
  code : option string;
  zeromode : bool;
  code_length : Z;
  verify : bool;
  transit_helper : string;
  no_listen : bool;
  output_file : option string;
  cwd : string;
  accept_file : bool
}.

(** What [zipfile] makes of the bytes in the spooled file: they are no
    archive ([zipfile.ZipFile] raises [BadZipFile]); they are an archive
    whose members all unpack; or they are an archive whose extraction raises
    [err] after it has written [done], the last of them possibly cut
    short. *)
Inductive unpacking : Type :=
| NotAnArchive
| Unpacks (members : list (string * list byte))
| Breaks (done : list (string * list byte)) (err : string).

(** What the collaborators answer during one session. *)
Record world : Type := {
  (* [w.verify()] *)
  verifier : chan_exn + list byte;
  (* [tr.get_direct_hints()], [tr.get_relay_hints()] *)
  direct_hints : json;
  relay_hints : json;
  (* [record_pipe.describe()] *)
  describe : string;
  (* [record_pipe.writeToFile(f, expected, progress)]: the count it returns
     and the bytes it wrote into [f] *)
  received : Z;
  written : list byte;
  (* [zipfile.ZipFile(f)] and [zf.extractall] on a file holding these bytes *)
  unzip : list byte -> unpacking
}.

(** The members the unpacking of [data] writes: all of them when it goes
    through, those before the failure when it breaks off, none when [data]
    is no archive. *)
Definition unpacked (wd : world) (data : list byte)
    : list (string * list byte) :=
  match unzip wd data with
  | Unpacks ms => ms
  | Breaks done _ => done
  | NotAnArchive => []
  end.

(** The members written from the archive the record pipe delivers. *)
Definition members (wd : world) : list (string * list byte) :=
  unpacked wd (written wd).

(** One answer of [w.get()], already decoded by [json.loads]. *)
Inductive get_result : Type :=
| Got (them_d : json)
| GetRaises (x : chan_exn).

(** The mutable part: the attributes of [self], the log of events, the
    lines waiting on standard input, and the file system the session
    started with. *)
Record state : Type := {
  fs0 : gmap string node;
  trace : list event;
  stdin : list string;
  _transit_receiver : bool;
  abs_destname : string;
  xfersize : Z
}.

(** The file system now. *)
Definition cur_fs (st : state) : gmap string node := replay (fs0 st) (trace st).

(** [os.path.exists]. *)
Definition exists_path (st : state) (p : string) : bool :=
  bool_decide (is_Some (cur_fs st !! p)).

(** What the spooled temporary file holds: what the record pipe has written
    into it since it was made. *)
Definition spool_step (held : list byte) (e : event) : list byte :=
  match e with
  | EvSpool => []
  | EvWriteToFile SpooledTemporaryFile _ _ data => held ++ data
  | _ => held
  end.

Definition spooled (tr : list event) : list byte := fold_left spool_step tr [].

(** The bytes a reader finds in the file object [f]. *)
Definition content (f : fileobj) (st : state) : list byte :=
  match f with
  | SpooledTemporaryFile => spooled (trace st)
  | NamedFile name =>
      match cur_fs st !! name with
      | Some (File data) | Some (Unflushed data) => data
      | _ => []
      end
  end.

(** ** The session monad *)

(** A computation returns, raises, or stays suspended on a Deferred that
    never fires. *)
Inductive res (A : Type) : Type :=
| Ret (a : A)
| Raise (e : exn)
| Pending.
Arguments Ret {A} a.
Arguments Raise {A} e.
Arguments Pending {A}.

Definition M (A : Type) : Type := state -> res A * state.

Definition ret {A} (a : A) : M A := fun st => (Ret a, st).
Definition raise {A} (e : exn) : M A := fun st => (Raise e, st).
Definition pending {A} : M A := fun st => (Pending, st).

Definition bind {A B} (m : M A) (k : A -> M B) : M B := fun st =>
  match m st with
  | (Ret a, st') => k a st'
  | (Raise e, st') => (Raise e, st')
  | (Pending, st') => (Pending, st')
  end.

Notation "'let*' x ':=' m 'in' k" := (bind m (fun x => k))
  (at level 10, x name, m at level 100, k at level 200).
Notation "m '>>' k" := (bind m (fun _ => k))
  (at level 199, k at level 200, right associativity).

(** [try: m except E: h]: [h e] is [Some] for the exceptions the clause
    catches. *)
Definition try_except {A} (m : M A) (h : exn -> option (M A)) : M A := fun st =>
  match m st with
  | (Raise e, st') =>
      match h e with
      | Some k => k st'
      | None => (Raise e, st')
      end
  | r => r
  end.

Definition emit (e : event) : M unit := fun st =>
  (Ret tt,
   {| fs0 := fs0 st; trace := trace st ++ [e]; stdin := stdin st;
      _transit_receiver := _transit_receiver st;
      abs_destname := abs_destname st; xfersize := xfersize st |}).

Definition get_state : M state := fun st => (Ret st, st).

Definition set_transit_receiver : M unit := fun st =>
  (Ret tt,
   {| fs0 := fs0 st; trace := trace st; stdin := stdin st;
      _transit_receiver := true;
      abs_destname := abs_destname st; xfersize := xfersize st |}).

Definition set_abs_destname (p : string) : M unit := fun st =>
  (Ret tt,
   {| fs0 := fs0 st; trace := trace st; stdin := stdin st;
      _transit_receiver := _transit_receiver st;
      abs_destname := p; xfersize := xfersize st |}).

Definition set_xfersize (n : Z) : M unit := fun st =>
  (Ret tt,
   {| fs0 := fs0 st; trace := trace st; stdin := stdin st;
      _transit_receiver := _transit_receiver st;
      abs_destname := abs_destname st; xfersize := n |}).

(** [six.moves.input(prompt)]: the next line of standard input, or
    [EOFError] at its end.  [EvInput] logs a line read at the prompt. *)
Definition input (prompt : string) : M string := fun st =>
  match stdin st with
  | [] => (Raise EOFError, st)
  | line :: rest =>
      (Ret line,
       {| fs0 := fs0 st; trace := trace st ++ [EvInput prompt]; stdin := rest;
          _transit_receiver := _transit_receiver st;
          abs_destname := abs_destname st; xfersize := xfersize st |})
  end.

(** ** Python operations on decoded documents *)

Fixpoint assoc (k : string) (kvs : list (string * json)) : option json :=
  match kvs with
  | [] => None
  | (k', v) :: rest => if String.eqb k' k then Some v else assoc k rest
  end.

Definition has_key (k : string) (kvs : list (string * json)) : bool :=
  bool_decide (is_Some (assoc k kvs)).

Definition is_str (k : string) (v : json) : bool :=
  match v with
  | JStr s => String.eqb s k
  | _ => false
  end.

(** [k in v]: a key of an object, a substring of a string, an element of a
    list; the other values are not iterable. *)
Definition py_in (k : string) (v : json) : M bool :=
  match v with
  | JObj kvs => ret (has_key k kvs)
  | JStr s => ret (PyStr.contains k s)
  | JList l => ret (existsb (is_str k) l)
  | _ => raise TypeError
  end.

(** [v[k]] for a string [k]. *)
Definition getitem (v : json) (k : string) : M json :=
  match v with
  | JObj kvs =>
      match assoc k kvs with
      | Some x => ret x
      | None => raise (KeyError k)
      end
  | _ => raise TypeError
  end.

(** The number a [%d] conversion prints. *)
Definition as_int (v : json) : M Z :=
  match v with
  | JNum n => ret n
  | JBool b => ret (Z.b2z b)
  | _ => raise TypeError
  end.

(** The string a path function accepts. *)
Definition as_path (v : json) : M string :=
  match v with
  | JStr s => ret s
  | _ => raise TypeError
  end.

(** [v != s] for a string literal [s]. *)
Definition json_ne_str (v : json) (s : string) : bool :=
  match v with
  | JStr s' => negb (String.eqb s' s)
  | _ => true
  end.

(** ** The receiver *)

Module TwistedReceiver.
Import PyStr PosixPath.

Definition APPID : string := "lothar.com/wormhole/text-or-file-xfer".

Section Receiver.

Variable args0 : args.
Variable wd : world.

Definition msg (m : console) : M unit := emit (EvMsg m).

(** [w.send(json.dumps(data).encode("utf-8"))] *)
Definition _send_data (data : json) : M unit := emit (EvSend data).

Definition _get_data (g : get_result) : M json :=
  (* this may raise WrongPasswordError *)
  match g with
  | GetRaises x => raise (exn_of_chan x)
  | Got them_d =>
      let* has_error := py_in "error" them_d in
      if has_error then
        let* reason := getitem them_d "error" in
        raise (TransferError reason)
      else ret them_d
  end.

Definition handle_code : M unit :=
  let* code :=
    (if zeromode args0 then
       if truthy (code args0) then raise AssertionError   (* assert not code *)
       else ret (Some "0-")
     else ret (code args0)) in
  if truthy code then emit (EvSetCode (default "" code))
  else emit (EvInputCode "Enter receive wormhole code: " (code_length args0)).

(** [verifier = yield w.verify()] *)
Definition w_verify : M (list byte) :=
  emit EvVerify >>
  match verifier wd with
  | inl x => raise (exn_of_chan x)
  | inr v => ret v
  end.

Definition show_verifier (v : list byte) : M unit :=
  if verify args0 then msg (MsgVerifier v) else ret tt.

Definition _build_transit (sender_hints : json) : M unit :=
  emit (EvTransitReceiver (transit_helper args0) (no_listen args0)) >>
  set_transit_receiver >>
  emit (EvDeriveKey (APPID +:+ "/transit-key")) >>
  emit EvSetTransitKey >>
  let* direct := getitem sender_hints "direct_connection_hints" in
  emit (EvAddDirectHints direct) >>
  let* relay := getitem sender_hints "relay_connection_hints" in
  emit (EvAddRelayHints relay) >>
  let receiver_hints :=
    JObj [("direct_connection_hints", direct_hints wd);
          ("relay_connection_hints", relay_hints wd)] in
  _send_data (jobj1 "transit" receiver_hints).

Definition _parse_transit (sender_hints : json) : M unit :=
  let* st := get_state in
  if _transit_receiver st then ret tt
  else _build_transit sender_hints.

Definition handle_text (them_d : json) : M unit :=
  let* body := getitem them_d "message" in
  msg (MsgText body) >>
  _send_data (jobj1 "answer" (jobj1 "message_ack" (JStr "ok"))).

Definition decide_destname (mode : string) (destname : string) : M string :=
  (* the basename() is intended to protect us against
     "~/.ssh/authorized_keys" and other attacks *)
  let destname := basename destname in
  let destname :=
    if truthy (output_file args0) then default "" (output_file args0) (* override *)
    else destname in
  let abs_destname := join (cwd args0) destname in
  let* st := get_state in
  if exists_path st abs_destname then
    msg (MsgRefuseOverwrite mode destname) >>
    raise (RespondError (mode +:+ " already exists"))
  else ret abs_destname.

(** The body of the [while] either breaks or raises, so it never runs a
    second time. *)
Definition ask_permission : M unit :=
  if true && negb (accept_file args0) then
    let* ok := input "ok? (y/n): " in
    if startswith "y" (lower ok) then ret tt   (* break *)
    else
      emit (EvStderr "transfer rejected") >>
      raise (RespondError "transfer rejected")
  else ret tt.

Definition handle_file (them_d : json) : M fileobj :=
  let* file_data := getitem them_d "file" in
  let* filename := getitem file_data "filename" in
  let* filename := as_path filename in
  let* abs := decide_destname "file" filename in
  set_abs_destname abs >>
  let* filesize := getitem file_data "filesize" in
  let* filesize := as_int filesize in
  set_xfersize filesize >>
  msg (MsgReceivingFile filesize (basename abs)) >>
  ask_permission >>
  let tmp_destname := abs +:+ ".tmp" in
  emit (EvOpen tmp_destname) >>
  ret (NamedFile tmp_destname).

Definition handle_directory (them_d : json) : M fileobj :=
  let* file_data := getitem them_d "directory" in
  let* zipmode := getitem file_data "mode" in
  if json_ne_str zipmode "zipfile/deflated" then
    msg (MsgUnknownMode zipmode) >>
    raise (RespondError "unknown mode")
  else
    let* dirname := getitem file_data "dirname" in
    let* dirname := as_path dirname in
    let* abs := decide_destname "directory" dirname in
    set_abs_destname abs >>
    let* zipsize := getitem file_data "zipsize" in
    let* zipsize := as_int zipsize in
    set_xfersize zipsize >>
    msg (MsgReceivingDir zipsize (basename abs)) >>
    let* numfiles := getitem file_data "numfiles" in
    let* numbytes := getitem file_data "numbytes" in
    let* numfiles := as_int numfiles in
    let* numbytes := as_int numbytes in
    msg (MsgDirStats numfiles numbytes) >>
    ask_permission >>
    emit EvSpool >>
    ret SpooledTemporaryFile.

Definition _send_permission : M unit :=
  _send_data (jobj1 "answer" (jobj1 "file_ack" (JStr "ok"))).

(** [self._transit_receiver.connect()]; the attribute is [None] until a
    transit message has been handled. *)
Definition _establish_transit : M unit :=
  let* st := get_state in
  if _transit_receiver st then emit EvConnect
  else raise AttributeError.

Definition _transfer_data (f : fileobj) : M unit :=
  (* now receive the rest of the owl *)
  msg (MsgReceiving (describe wd)) >>
  let* st := get_state in
  let received := received wd in
  emit (EvWriteToFile f (xfersize st) received (written wd)) >>
  if received <? xfersize st then
    msg MsgBlank >>
    msg MsgDropped >>
    msg (MsgGotWanted received (xfersize st)) >>
    raise (TransferError (JStr "Connection dropped before full file received"))
  else if negb (received =? xfersize st) then raise AssertionError
  else ret tt.

Definition write_file (f : fileobj) : M unit :=
  match f with
  | NamedFile tmp_name =>
      emit (EvFileClose f) >>
      let* st := get_state in
      emit (EvRename tmp_name (abs_destname st)) >>
      msg (MsgFileWritten (basename (abs_destname st)))
  | SpooledTemporaryFile => raise AttributeError   (* f.name *)
  end.

(** [zipfile.ZipFile(f, "r", ...)] raises on bytes that are no archive, and
    [zf.extractall] can raise part of the way; [f.close()] is reached only
    when both went through. *)
Definition write_directory (f : fileobj) : M unit :=
  msg MsgUnpacking >>
  let* st := get_state in
  match unzip wd (content f st) with
  | NotAnArchive => raise (OtherError "BadZipFile")
  | Breaks done err =>
      emit (EvExtractFailed (abs_destname st) done) >>
      raise (OtherError err)
  | Unpacks ms =>
      emit (EvExtractAll (abs_destname st) ms) >>
      msg (MsgFilesWritten (basename (abs_destname st))) >>
      emit (EvFileClose f)
  end.

(** The record [b"ok\n"]. *)
Definition ok_record : list byte := [Byte.x6f; Byte.x6b; Byte.x0a].

Definition close_transit : M unit :=
  emit (EvSendRecord ok_record) >>
  emit EvPipeClose.

Definition parse_offer (them_d : json) : M unit :=
  let* is_message := py_in "message" them_d in
  if is_message then handle_text them_d
  else
    (* transit will be created by this point, but not connected *)
    let* is_file := py_in "file" them_d in
    if is_file then
      let* f := handle_file them_d in
      _send_permission >>
      _establish_transit >>
      _transfer_data f >>
      write_file f >>
      close_transit
    else
      let* is_directory := py_in "directory" them_d in
      if is_directory then
        let* f := handle_directory them_d in
        _send_permission >>
        _establish_transit >>
        _transfer_data f >>
        write_directory f >>
        close_transit
      else
        msg MsgUnknownOffer >>
        msg (MsgOfferDetails them_d) >>
        raise (RespondError "unknown offer type").

(** The [while True] loop of [_go], one round per answer of [w.get()]; when
    no answer is left the session stays suspended in [w.get()].  The [try]
    around [_get_data] gives the message, or [None] when the clause for
    [WormholeClosedError] leaves [_go] with [returnValue(None)]. *)
Fixpoint _go_loop (want_offer done : bool) (inbox : list get_result) : M unit :=
  match inbox with
  | [] => pending
  | g :: inbox' =>
      let* got :=
        try_except (let* them_d := _get_data g in ret (Some them_d)) (fun e =>
          match e with
          | WormholeClosedError =>
              Some (if done then ret None
                    else raise (TransferError (JStr "unexpected close")))
          | _ => None
          end) in
      match got with
      | None => ret tt   (* returnValue(None) *)
      | Some them_d =>
          let* has_transit := py_in "transit" them_d in
          if has_transit then
            let* hints := getitem them_d "transit" in
            _parse_transit hints >>
            _go_loop want_offer done inbox'   (* continue *)
          else
            let* has_offer := py_in "offer" them_d in
            if has_offer then
              if negb want_offer then
                raise (TransferError (JStr "duplicate offer"))
              else
                let* offer := getitem them_d "offer" in
                try_except (parse_offer offer) (fun e =>
                  match e with
                  | RespondError response =>
                      Some (_send_data (jobj1 "error" (JStr response)) >>
                            raise (TransferError (JStr response)))
                  | _ => None
                  end)
                (* returnValue(None) *)
            else
              emit (EvLog them_d) >>
              raise (TransferError (JStr "expected offer, got none"))
      end
  end.

Definition _go (inbox : list get_result) : M unit :=
  handle_code >>
  let* verifier := w_verify in
  show_verifier verifier >>
  let want_offer := true in
  let done := false in
  _go_loop want_offer done inbox.

(** [d.addBoth(f)]: once [d] has fired, with a result or with a failure, [f]
    is called on it and what [f] gives becomes the outcome. *)
Definition addBoth {A} (d : M A) (f : res A -> M A) : M A := fun st =>
  match d st with
  | (Pending, st') => (Pending, st')
  | (r, st') => f r st'
  end.

(** Modelled from the spec: [w.close] is a method of the wormhole channel
    (wormhole.py), which is not under src/.  The spec has the channel closed
    when the session ends and has the close never mask the original
    outcome: called by [addBoth] on the outcome of [_go], it closes the
    channel and hands that outcome back. *)
Definition w_close (outcome : res unit) : M unit := fun st =>
  (outcome, (emit EvWormholeClose st).2).

Definition go (inbox : list get_result) : M unit :=
  (if tor args0 then emit EvTorStart else ret tt) >>
  emit (EvWormhole APPID (relay_url args0)) >>
  let d := _go inbox in
  addBoth d w_close.

End Receiver.
End TwistedReceiver.

(** [receive(args)] on a fresh receiver. *)
Definition init_state (fs : gmap string node) (lines : list string) : state :=
  {| fs0 := fs; trace := []; stdin := lines; _transit_receiver := false;
     abs_destname := ""; xfersize := 0 |}.

Definition receive (a : args) (wd : world) (inbox : list get_result) : M unit :=
  TwistedReceiver.go a wd inbox.

(** ** Notions used in the statements *)

Module Notions.
Import PyStr PosixPath.

(** A component that names an entry of a directory: not empty, not ["."],
    not [".."], and free of separators. *)
Definition plain (c : string) : Prop :=
  c <> "" /\ c <> curdir /\ c <> pardir /\ has_char sep c = false.

(** The path with the initial slashes [slashes] and the components
    [comps], as [normpath] writes it. *)
Definition render (slashes : string) (comps : list string) : string :=
  let p := slashes +:+ String.concat "/" comps in
  if String.eqb p "" then "." else p.

(** The messages [{"error": ...}]. *)
Definition is_error_msg (data : json) : bool :=
  match data with
  | JObj ((k, _) :: _) => String.eqb k "error"
  | _ => false
  end.

(** Events of the negotiation: they touch neither a file, nor the record
    pipe, nor the terminal input, tell the peer of no error and do not
    close the channel. *)
Definition quiet (e : event) : bool :=
  match e with
  | EvTorStart | EvWormhole _ _ | EvSetCode _ | EvInputCode _ _ | EvVerify
  | EvDeriveKey _ | EvMsg _ | EvLog _ | EvTransitReceiver _ _
  | EvSetTransitKey | EvAddDirectHints _ | EvAddRelayHints _ => true
  | EvSend data => negb (is_error_msg data)
  | _ => false
  end.

(** The destination write: the rename of the temporary file, or the
    extraction of the archive. *)
Definition materializes (e : event) : bool :=
  match e with
  | EvRename _ _ | EvExtractAll _ _ => true
  | _ => false
  end.

(** Events that create something on the file system or connect the record
    pipe. *)
Definition commits (e : event) : bool :=
  match e with
  | EvConnect | EvOpen _ | EvSpool | EvWriteToFile _ _ _ _
  | EvRename _ _ | EvExtractAll _ _ | EvExtractFailed _ _ => true
  | _ => false
  end.

(** Events that can change what the file system holds at [p]: the creation
    of [p], a write into [p], the close of [p], and any rename or
    extraction. *)
Definition writes_to (p : string) (e : event) : bool :=
  match e with
  | EvOpen name => String.eqb name p
  | EvWriteToFile (NamedFile name) _ _ _ => String.eqb name p
  | EvFileClose (NamedFile name) => String.eqb name p
  | EvRename _ _ | EvExtractAll _ _ | EvExtractFailed _ _ => true
  | _ => false
  end.

(** An extraction that broke off. *)
Definition breaks_off (e : event) : bool :=
  match e with
  | EvExtractFailed _ _ => true
  | _ => false
  end.

Definition is_close (e : event) : bool :=
  match e with
  | EvWormholeClose => true
  | _ => false
  end.

Definition is_record (e : event) : bool :=
  match e with
  | EvSendRecord _ => true
  | _ => false
  end.

(** The prompt of the permission gate, when it asks. *)
Definition consent (a : args) : list event :=
  if accept_file a then [] else [EvInput "ok? (y/n): "].

(** The value under [k2] in the object under [k1]. *)
Definition lookup2 (them_d : json) (k1 k2 : string) : option json :=
  match them_d with
  | JObj kvs =>
      match assoc k1 kvs with
      | Some (JObj kvs2) => assoc k2 kvs2
      | _ => None
      end
  | _ => None
  end.

Definition int_of (v : json) : option Z :=
  match v with
  | JNum n => Some n
  | JBool b => Some (Z.b2z b)
  | _ => None
  end.

(** The size an offer advertises under [kind]/[key]. *)
Definition advertised (offer : json) (kind key : string) : option Z :=
  match lookup2 offer kind key with
  | Some v => int_of v
  | None => None
  end.

(** The offer a negotiation message carries. *)
Definition offer_of (them_d : json) : option json :=
  match them_d with
  | JObj kvs => assoc "offer" kvs
  | _ => None
  end.

(** The state with [evs] logged. *)
Definition logged (evs : list event) (st : state) : state :=
  {| fs0 := fs0 st; trace := trace st ++ evs; stdin := stdin st;
     _transit_receiver := _transit_receiver st;
     abs_destname := abs_destname st; xfersize := xfersize st |}.

End Notions.

(** ** The permission gate in the words of the specification *)

Module Specified.
Import PyStr TwistedReceiver Notions.

(** The gate as the specification words it, to be compared with
    [ask_permission]: it prompts in a loop until a yes or a no is given.  A
    line that begins with [y] or [Y] is a yes and grants; a line that begins
    with [n] or [N] is a no and raises "transfer rejected"; after any other
    line the gate prompts again.  [lines] is what standard input holds. *)
Fixpoint ask_in_a_loop (lines : list string) (st : state) : res unit * state :=
  match lines with
  | [] => (Raise EOFError, st)
  | ok :: rest =>
      let asked :=
        {| fs0 := fs0 st; trace := trace st ++ [EvInput "ok? (y/n): "];
           stdin := rest; _transit_receiver := _transit_receiver st;
           abs_destname := abs_destname st; xfersize := xfersize st |} in
      if startswith "y" (lower ok) then (Ret tt, asked)
      else if startswith "n" (lower ok) then
        (Raise (RespondError "transfer rejected"),
         logged [EvStderr "transfer rejected"] asked)
      else ask_in_a_loop rest asked
  end.

Definition ask_permission_as_specified (a : args) : M unit := fun st =>
  if accept_file a then (Ret tt, st) else ask_in_a_loop (stdin st) st.

End Specified.

(** ** The shape of a run *)

Module Shape.
Import PyStr PosixPath TwistedReceiver Notions.

(** How [handle_file] and [handle_directory] end.  [opening] is the event
    that creates the file object and [obj] the object, both from the
    destination; [adv] is the size the offer advertises. *)
Inductive handled (a : args) (opening : string -> event)
    (obj : string -> fileobj) (adv : option Z) (st : state) :
    res fileobj -> state -> Prop :=
| handled_early e evs st' :
    (* a failure before the user is asked, or at the end of input *)
    trace st' = trace st ++ evs ->
    Forall (fun e => quiet e = true) evs ->
    fs0 st' = fs0 st ->
    handled a opening obj adv st (Raise e) st'
| handled_refused evs st' :
    accept_file a = false ->
    trace st' = trace st ++ evs
                ++ [EvInput "ok? (y/n): "; EvStderr "transfer rejected"] ->
    Forall (fun e => quiet e = true) evs ->
    fs0 st' = fs0 st ->
    handled a opening obj adv st (Raise (RespondError "transfer rejected")) st'
| handled_open evs f st' :
    f = obj (abs_destname st') ->
    trace st' = trace st ++ evs ++ consent a ++ [opening (abs_destname st')] ->
    Forall (fun e => quiet e = true) evs ->
    fs0 st' = fs0 st ->
    _transit_receiver st' = _transit_receiver st ->
    cur_fs st !! abs_destname st' = None ->
    adv = Some (xfersize st') ->
    handled a opening obj adv st (Ret f) st'.

(** The name the destination gets: the override when one is configured,
    the final component of the proposed name otherwise. *)
Definition effective_name (a : args) (destname : string) : string :=
  if truthy (output_file a) then default "" (output_file a)
  else basename destname.

(** The answer that accepts a file or a directory. *)
Definition file_ack : event :=
  EvSend (jobj1 "answer" (jobj1 "file_ack" (JStr "ok"))).

(** What follows [handle_file] in [parse_offer]. *)
Definition receive_file (a : args) (wd : world) (f : fileobj) : M unit :=
  _send_permission >>
  _establish_transit >>
  _transfer_data wd f >>
  write_file f >>
  close_transit.

(** What follows [handle_directory] in [parse_offer]. *)
Definition receive_directory (a : args) (wd : world) (f : fileobj) : M unit :=
  _send_permission >>
  _establish_transit >>
  _transfer_data wd f >>
  write_directory wd f >>
  close_transit.

(** The events of the transfer proper, from the answer to the offer on, for
    the file object [f], the expected size [n] and the destination [abs];
    [finish] is the destination write. *)
Definition transfer_events (wd : world) (f : fileobj) (n : Z)
    (finish : list event) : list event :=
  [file_ack; EvConnect; EvMsg (MsgReceiving (describe wd));
   EvWriteToFile f n (received wd) (written wd)]
  ++ (if received wd <? n then
        [EvMsg MsgBlank; EvMsg MsgDropped; EvMsg (MsgGotWanted (received wd) n)]
      else if negb (received wd =? n) then []
      else finish ++ [EvSendRecord ok_record; EvPipeClose]).

Definition transfer_result (wd : world) (n : Z) : res unit :=
  if received wd <? n then
    Raise (TransferError (JStr "Connection dropped before full file received"))
  else if negb (received wd =? n) then Raise AssertionError
  else Ret tt.

Definition file_finish (tmp abs : string) : list event :=
  [EvFileClose (NamedFile tmp); EvRename tmp abs;
   EvMsg (MsgFileWritten (basename abs))].

(** The unpacking of the spooled archive and, when it goes through, the
    end of the transfer. *)
Definition directory_finish (wd : world) (abs : string) : list event :=
  EvMsg MsgUnpacking ::
  match unzip wd (written wd) with
  | NotAnArchive => []
  | Breaks done _ => [EvExtractFailed abs done]
  | Unpacks ms =>
      [EvExtractAll abs ms; EvMsg (MsgFilesWritten (basename abs));
       EvFileClose SpooledTemporaryFile; EvSendRecord ok_record; EvPipeClose]
  end.

Definition unpack_result (wd : world) : res unit :=
  match unzip wd (written wd) with
  | NotAnArchive => Raise (OtherError "BadZipFile")
  | Breaks _ err => Raise (OtherError err)
  | Unpacks _ => Ret tt
  end.

(** The events and the outcome of the transfer of a directory, from the
    answer to the offer on. *)
Definition directory_events (wd : world) (n : Z) (abs : string) : list event :=
  [file_ack; EvConnect; EvMsg (MsgReceiving (describe wd));
   EvWriteToFile SpooledTemporaryFile n (received wd) (written wd)]
  ++ (if received wd <? n then
        [EvMsg MsgBlank; EvMsg MsgDropped; EvMsg (MsgGotWanted (received wd) n)]
      else if negb (received wd =? n) then []
      else directory_finish wd abs).

Definition directory_result (wd : world) (n : Z) : res unit :=
  if received wd <? n then
    Raise (TransferError (JStr "Connection dropped before full file received"))
  else if negb (received wd =? n) then Raise AssertionError
  else unpack_result wd.

(** The runs of [parse_offer]. *)
Inductive offer_run (a : args) (wd : world) (offer : json) (st : state) :
    res unit -> state -> Prop :=
| run_light r evs st' :
    (* a text message, or a failure before the user is asked *)
    trace st' = trace st ++ evs ->
    Forall (fun e => quiet e = true) evs ->
    fs0 st' = fs0 st ->
    r <> Pending ->
    offer_run a wd offer st r st'
| run_refused evs st' :
    accept_file a = false ->
    trace st' = trace st ++ evs
                ++ [EvInput "ok? (y/n): "; EvStderr "transfer rejected"] ->
    Forall (fun e => quiet e = true) evs ->
    fs0 st' = fs0 st ->
    offer_run a wd offer st (Raise (RespondError "transfer rejected")) st'
| run_no_transit evs opening st' :
    (* the offer came before any transit message *)
    _transit_receiver st = false ->
    trace st' = trace st ++ evs ++ consent a ++ [opening; file_ack] ->
    Forall (fun e => quiet e = true) evs ->
    opening = EvOpen (abs_destname st' +:+ ".tmp") \/ opening = EvSpool ->
    fs0 st' = fs0 st ->
    cur_fs st !! abs_destname st' = None ->
    offer_run a wd offer st (Raise AttributeError) st'
| run_file evs st' :
    let abs := abs_destname st' in
    let tmp := abs +:+ ".tmp" in
    trace st' = trace st ++ evs ++ consent a ++ [EvOpen tmp]
                ++ transfer_events wd (NamedFile tmp) (xfersize st')
                     (file_finish tmp abs) ->
    Forall (fun e => quiet e = true) evs ->
    fs0 st' = fs0 st ->
    cur_fs st !! abs = None ->
    advertised offer "file" "filesize" = Some (xfersize st') ->
    offer_run a wd offer st (transfer_result wd (xfersize st')) st'
| run_directory evs st' :
    let abs := abs_destname st' in
    trace st' = trace st ++ evs ++ consent a ++ [EvSpool]
                ++ directory_events wd (xfersize st') abs ->
    Forall (fun e => quiet e = true) evs ->
    fs0 st' = fs0 st ->
    cur_fs st !! abs = None ->
    advertised offer "directory" "zipsize" = Some (xfersize st') ->
    offer_run a wd offer st (directory_result wd (xfersize st')) st'.

(** How the outcome of [parse_offer] becomes the outcome of [_go]: a
    [RespondError] is told to the peer and turned into a [TransferError]. *)
Inductive offer_outcome : res unit -> res unit -> list event -> Prop :=
| outcome_ret : offer_outcome (Ret tt) (Ret tt) []
| outcome_respond response :
    offer_outcome (Raise (RespondError response))
      (Raise (TransferError (JStr response)))
      [EvSend (jobj1 "error" (JStr response))]
| outcome_raise e :
    (forall response, e <> RespondError response) ->
    offer_outcome (Raise e) (Raise e) [].

(** The runs of the negotiation: no offer is dispatched and the run fails
    or stays suspended, or one offer is dispatched and its outcome decides. *)
Inductive negotiation (a : args) (wd : world) (inbox : list get_result)
    (st : state) : res unit -> state -> Prop :=
| neg_no_offer r evs st' :
    trace st' = trace st ++ evs ->
    Forall (fun e => quiet e = true) evs ->
    fs0 st' = fs0 st ->
    (r = Pending \/ exists e, r = Raise e /\ forall s, e <> RespondError s) ->
    negotiation a wd inbox st r st'
| neg_offer them_d offer evs st1 r1 st2 r post st' :
    In (Got them_d) inbox ->
    offer_of them_d = Some offer ->
    trace st1 = trace st ++ evs ->
    Forall (fun e => quiet e = true) evs ->
    fs0 st1 = fs0 st ->
    parse_offer a wd offer st1 = (r1, st2) ->
    offer_outcome r1 r post ->
    trace st' = trace st2 ++ post ->
    fs0 st' = fs0 st2 ->
    abs_destname st' = abs_destname st2 ->
    xfersize st' = xfersize st2 ->
    negotiation a wd inbox st r st'.

(** What [go] adds once [_go] has fired. *)
Definition closing (r : res unit) : list event :=
  match r with
  | Pending => []
  | _ => [EvWormholeClose]
  end.

(** The events of a whole session, by the way it ends. *)
Inductive session_run (a : args) (wd : world) (inbox : list get_result)
    (st : state) : res unit -> state -> list event -> Prop :=
| ses_idle r evs st' :
    (* no offer is dispatched *)
    Forall (fun e => quiet e = true) evs ->
    (r = Pending \/ exists e, r = Raise e /\ forall s, e <> RespondError s) ->
    session_run a wd inbox st r st' (evs ++ closing r)
| ses_light r1 r post evs st' :
    (* a text message, or a failure before the user is asked *)
    Forall (fun e => quiet e = true) evs ->
    offer_outcome r1 r post ->
    session_run a wd inbox st r st' (evs ++ post ++ [EvWormholeClose])
| ses_refused evs st' :
    accept_file a = false ->
    Forall (fun e => quiet e = true) evs ->
    session_run a wd inbox st
      (Raise (TransferError (JStr "transfer rejected"))) st'
      (evs ++ [EvInput "ok? (y/n): "; EvStderr "transfer rejected";
               EvSend (jobj1 "error" (JStr "transfer rejected"));
               EvWormholeClose])
| ses_no_transit evs opening st' :
    Forall (fun e => quiet e = true) evs ->
    opening = EvOpen (abs_destname st' +:+ ".tmp") \/ opening = EvSpool ->
    cur_fs st !! abs_destname st' = None ->
    session_run a wd inbox st (Raise AttributeError) st'
      (evs ++ consent a ++ [opening; file_ack; EvWormholeClose])
| ses_file them_d offer evs st' :
    let abs := abs_destname st' in
    let tmp := abs +:+ ".tmp" in
    let n := xfersize st' in
    In (Got them_d) inbox ->
    offer_of them_d = Some offer ->
    advertised offer "file" "filesize" = Some n ->
    Forall (fun e => quiet e = true) evs ->
    cur_fs st !! abs = None ->
    session_run a wd inbox st (transfer_result wd n) st'
      (evs ++ consent a ++ [EvOpen tmp]
           ++ transfer_events wd (NamedFile tmp) n (file_finish tmp abs)
           ++ [EvWormholeClose])
| ses_directory them_d offer evs st' :
    let abs := abs_destname st' in
    let n := xfersize st' in
    In (Got them_d) inbox ->
    offer_of them_d = Some offer ->
    advertised offer "directory" "zipsize" = Some n ->
    Forall (fun e => quiet e = true) evs ->
    cur_fs st !! abs = None ->
    session_run a wd inbox st (directory_result wd n) st'
      (evs ++ consent a ++ [EvSpool]
           ++ directory_events wd n abs
           ++ [EvWormholeClose]).

End Shape.

(** ** A scenario *)

Module Scenario.
Import TwistedReceiver.

Definition ex_args : args :=
  {| tor := false; relay_url := "ws://relay.example:4000/v1";
     code := Some "4-purple-sausages"; zeromode := false; code_length := 2;
     verify := false; transit_helper := "tcp:transit.example:4001";
     no_listen := false; output_file := None; cwd := "/home/u";
     accept_file := true |}.

Definition abc : list byte := [Byte.x61; Byte.x62; Byte.x63].

(** The pipe delivers the three bytes [abc]; the archive, when one is
    expected, has the one member [../../evil]. *)
Definition ex_world : world :=
  {| verifier := inr []; direct_hints := JList []; relay_hints := JList [];
     describe := "direct"; received := 3; written := abc;
     unzip := fun _ => Unpacks [("../../evil", abc)] |}.

(** The same pipe, but its three bytes are no archive. *)
Definition no_archive_world : world :=
  {| verifier := inr []; direct_hints := JList []; relay_hints := JList [];
     describe := "direct"; received := 3; written := abc;
     unzip := fun _ => NotAnArchive |}.

(** The same pipe, but the unpacking of its three bytes stops after the
    member [a]. *)
Definition broken_archive_world : world :=
  {| verifier := inr []; direct_hints := JList []; relay_hints := JList [];
     describe := "direct"; received := 3; written := abc;
     unzip := fun _ => Breaks [("a", abc)] "BadZipFile" |}.

Definition transit_msg : get_result :=
  Got (jobj1 "transit"
         (JObj [("direct_connection_hints", JList []);
                ("relay_connection_hints", JList [])])).

Definition file_offer (name : string) (size : Z) : json :=
  jobj1 "file" (JObj [("filename", JStr name); ("filesize", JNum size)]).

Definition directory_offer (mode name : string) (size : Z) : json :=
  jobj1 "directory"
    (JObj [("mode", JStr mode); ("dirname", JStr name); ("zipsize", JNum size);
           ("numfiles", JNum 1); ("numbytes", JNum 3)]).

Definition offer_msg (offer : json) : get_result := Got (jobj1 "offer" offer).

(** The events of a run from the fresh state. *)
Definition events_of (a : args) (wd : world) (inbox : list get_result)
    (fs : gmap string node) (lines : list string) : list event :=
  trace (receive a wd inbox (init_state fs lines)).2.

Definition outcome_of (a : args) (wd : world) (inbox : list get_result)
    (fs : gmap string node) (lines : list string) : res unit :=
  (receive a wd inbox (init_state fs lines)).1.

(** The arguments of [ex_args] with the output file [o] and the working
    directory [/home/u]. *)
Definition ex_override (o : string) : args :=
  {| tor := false; relay_url := "ws://relay.example:4000/v1";
     code := Some "4-purple-sausages"; zeromode := false; code_length := 2;
     verify := false; transit_helper := "tcp:transit.example:4001";
     no_listen := false; output_file := Some o; cwd := "/home/u";
     accept_file := true |}.

End Scenario.

(** ** Notions for the further properties *)

Module Protocol.
Import PyStr PosixPath TwistedReceiver Notions Shape.

(** The answer that acknowledges a text message. *)
Definition message_ack : event :=
  EvSend (jobj1 "answer" (jobj1 "message_ack" (JStr "ok"))).

(** The code [handle_code] hands to the channel: ["0-"] in zero mode, the
    configured code otherwise. *)
Definition effective_code (a : args) : option string :=
  if zeromode a then Some "0-" else code a.

(** The channel calls that open a session: Tor when configured, the
    creation of the wormhole, and the code, set or asked for. *)
Definition setup_events (a : args) : list event :=
  (if tor a then [EvTorStart] else [])
  ++ [EvWormhole APPID (relay_url a);
      if truthy (effective_code a) then EvSetCode (default "" (effective_code a))
      else EvInputCode "Enter receive wormhole code: " (code_length a)].

(** The prompt of the permission gate: a line read by [input]. *)
Definition is_prompt (e : event) : bool :=
  match e with
  | EvInput _ => true
  | _ => false
  end.

(** The prompt for the wormhole code: [w.input_code] reads it at the
    terminal. *)
Definition is_code_prompt (e : event) : bool :=
  match e with
  | EvInputCode _ _ => true
  | _ => false
  end.

(** The reads of the terminal, by either prompt. *)
Definition reads_terminal (e : event) : bool :=
  is_prompt e || is_code_prompt e.

(** The creation of the transit receiver. *)
Definition is_build (e : event) : bool :=
  match e with
  | EvTransitReceiver _ _ => true
  | _ => false
  end.

(** The events the negotiation loop and the handling of an offer can
    log: all but the setup of the channel, the line with the verifier and
    the close of the channel. *)
Definition by_loop (e : event) : bool :=
  match e with
  | EvTorStart | EvWormhole _ _ | EvSetCode _ | EvInputCode _ _ | EvVerify
  | EvWormholeClose | EvMsg (MsgVerifier _) => false
  | _ => true
  end.

(** The events that set the channel up, before the first message is
    read. *)
Definition by_setup (e : event) : bool :=
  match e with
  | EvTorStart | EvWormhole _ _ | EvSetCode _ | EvInputCode _ _ | EvVerify
  | EvMsg (MsgVerifier _) => true
  | _ => false
  end.

(** The events the handling of an offer can log: the console, the
    answers to the peer, the record pipe and the files. *)
Definition by_offer (e : event) : bool :=
  match e with
  | EvMsg (MsgVerifier _) => false
  | EvMsg _ | EvSend _ | EvStderr _ | EvInput _ | EvConnect
  | EvWriteToFile _ _ _ _ | EvSendRecord _ | EvPipeClose | EvOpen _ | EvSpool
  | EvFileClose _ | EvRename _ _ | EvExtractAll _ _ | EvExtractFailed _ _ =>
      true
  | _ => false
  end.

(** The events of the handling of a transit message: the making of the
    transit receiver and the transit message sent in return. *)
Definition by_transit (e : event) : bool :=
  match e with
  | EvTransitReceiver _ _ | EvDeriveKey _ | EvSetTransitKey
  | EvAddDirectHints _ | EvAddRelayHints _ => true
  | EvSend (JObj [(k, _)]) => String.eqb k "transit"
  | _ => false
  end.

(** The answer that accepts a file or a directory, whatever it says. *)
Definition is_file_ack (e : event) : bool :=
  match e with
  | EvSend (JObj [(k, JObj [(k2, _)])]) =>
      String.eqb k "answer" && String.eqb k2 "file_ack"
  | _ => false
  end.

(** The creation of the object the payload is written to. *)
Definition is_opening (e : event) : bool :=
  match e with
  | EvOpen _ | EvSpool => true
  | _ => false
  end.

(** Every acceptance in [evs] comes after an opening; [seen] tells whether
    an opening came before [evs]. *)
Fixpoint ack_after_opening (seen : bool) (evs : list event) : bool :=
  match evs with
  | [] => true
  | e :: rest =>
      if is_file_ack e then seen && ack_after_opening seen rest
      else ack_after_opening (seen || is_opening e) rest
  end.

(** What the properties of the session use about the events of the
    negotiation loop, entered in the state [st]: they are events of the
    loop; the transit receiver is made at most once, and not at all when
    there is one already; the pipe is connected only with a transit
    receiver; an offer is accepted at most once, and after the opening. *)
Definition loop_facts (st : state) (evs : list event) : Prop :=
  Forall (fun e => by_loop e = true) evs
  /\ (length (List.filter is_build evs)
      <= if _transit_receiver st then 0 else 1)%nat
  /\ (In EvConnect evs ->
      _transit_receiver st = true \/ exists h n, In (EvTransitReceiver h n) evs)
  /\ (length (List.filter is_file_ack evs) <= 1)%nat
  /\ ack_after_opening false evs = true.

End Protocol.

(** * Properties *)

(** ** Strings and paths *)

Section PathFacts.
Import PyStr PosixPath.

Lemma append_cons a (s t : string) : String a s +:+ t = String a (s +:+ t).
Proof. reflexivity. Qed.

Lemma append_nil_l (s : string) : "" +:+ s = s.
Proof. reflexivity. Qed.

Lemma append_nil_r (s : string) : s +:+ "" = s.
Proof.
  induction s as [|a s IH]; [reflexivity | now rewrite append_cons, IH].
Qed.

Lemma append_assoc (s t u : string) : (s +:+ t) +:+ u = s +:+ (t +:+ u).
Proof.
  induction s as [|a s IH]; [reflexivity | now rewrite !append_cons, IH].
Qed.

Lemma rfind_from_absent c s : forall i last,
  has_char c s = false -> rfind_from c i last s = last.
Proof.
  induction s as [|a s IH]; intros i last H; simpl in *; [reflexivity|].
  apply orb_false_iff in H as [Ha Hs]. rewrite Ha. now apply IH.
Qed.

Lemma rfind_from_present c s : forall i last last',
  has_char c s = true ->
  rfind_from c i last s = rfind_from c i last' s /\ i <= rfind_from c i last s.
Proof.
  induction s as [|a s IH]; intros i last last' H; simpl in *; [discriminate|].
  destruct (has_char c s) eqn:Hs.
  - destruct (IH (i + 1) (if Ascii.eqb a c then i else last)
                 (if Ascii.eqb a c then i else last') eq_refl) as [E L].
    split; [exact E | lia].
  - rewrite orb_false_r in H. rewrite H.
    rewrite !rfind_from_absent by assumption. split; [reflexivity | lia].
Qed.

Lemma rfind_from_shift c s : forall i last k,
  rfind_from c (i + k) (last + k) s = rfind_from c i last s + k.
Proof.
  induction s as [|a s IH]; intros i last k; simpl; [reflexivity|].
  replace (i + k + 1) with (i + 1 + k) by lia.
  destruct (Ascii.eqb a c); apply IH.
Qed.

(** [basename] by recursion on the path: what follows the last separator. *)
Lemma basename_cons a r :
  basename (String a r) =
    if has_char sep r then basename r
    else if Ascii.eqb a sep then r else String a r.
Proof.
  unfold basename, rfind, slice_from. cbn [rfind_from].
  destruct (has_char sep r) eqn:Hr.
  - destruct (rfind_from_present sep r (0 + 1)
                (if Ascii.eqb a sep then 0 else -1) (-1 + 1) Hr) as [E _].
    rewrite E, rfind_from_shift.
    destruct (rfind_from_present sep r 0 (-1) (-1) Hr) as [_ L].
    replace (Z.to_nat (rfind_from sep 0 (-1) r + 1 + 1))
      with (S (Z.to_nat (rfind_from sep 0 (-1) r + 1))) by lia.
    reflexivity.
  - rewrite rfind_from_absent by assumption.
    destruct (Ascii.eqb a sep); reflexivity.
Qed.

Lemma basename_no_sep p : has_char sep (basename p) = false.
Proof.
  induction p as [|a r IH]; [reflexivity|].
  rewrite basename_cons. destruct (has_char sep r) eqn:Hr; [exact IH|].
  destruct (Ascii.eqb a sep) eqn:Ha; [exact Hr|].
  simpl. now rewrite Ha, Hr.
Qed.

(** The path is a directory part, empty or ending in the separator,
    followed by its [basename]. *)
Lemma basename_suffix p :
  exists d, p = d +:+ basename p /\ (d = "" \/ endswith_char sep d = true).
Proof.
  induction p as [|a r IH]; [exists ""; auto|].
  rewrite basename_cons. destruct (has_char sep r) eqn:Hr.
  - destruct IH as (d & E & Hd). exists (String a d). split.
    + now rewrite append_cons, <- E.
    + right. destruct Hd as [-> | Hd].
      * rewrite append_nil_l in E. rewrite E in Hr.
        now rewrite basename_no_sep in Hr.
      * simpl. destruct d; [discriminate | exact Hd].
  - destruct (Ascii.eqb a sep) eqn:Ha.
    + exists (String a ""). split; [reflexivity|]. right. simpl. exact Ha.
    + exists "". auto.
Qed.

Lemma basename_id p : has_char sep p = false -> basename p = p.
Proof.
  destruct p as [|a r]; [reflexivity|]. simpl. intros H.
  apply orb_false_iff in H as [Ha Hr].
  now rewrite basename_cons, Hr, Ha.
Qed.

Lemma join_absolute a b : startswith "/" b = true -> join a b = b.
Proof. unfold join. now intros ->. Qed.

Lemma join_relative a b :
  startswith "/" b = false ->
  join a b =
    a +:+ (if String.eqb a "" || endswith_char sep a then "" else "/") +:+ b.
Proof.
  unfold join. intros ->. destruct (String.eqb a "" || endswith_char sep a);
    reflexivity.
Qed.

End PathFacts.

(** ** Components of a path *)

Section SplitFacts.
Import PyStr PosixPath.

Lemma split_nonempty c s : split c s <> [].
Proof.
  destruct s as [|a r]; simpl; [discriminate|].
  destruct (Ascii.eqb a c); [discriminate|]. destruct (split c r); discriminate.
Qed.

Lemma split_app_sep c (a b : string) :
  split c (a +:+ String c b) = split c a ++ split c b.
Proof.
  induction a as [|x a IH].
  - rewrite append_nil_l. simpl. now rewrite Ascii.eqb_refl.
  - rewrite append_cons. simpl. rewrite IH.
    destruct (Ascii.eqb x c); [reflexivity|].
    destruct (split c a) eqn:E; [now apply split_nonempty in E | reflexivity].
Qed.

Lemma split_no_sep c s : Forall (fun x => has_char c x = false) (split c s).
Proof.
  induction s as [|a r IH]; simpl.
  - repeat constructor.
  - destruct (Ascii.eqb a c) eqn:Ha.
    + constructor; [reflexivity | exact IH].
    + destruct (split c r) as [|h t]; [repeat constructor; simpl; now rewrite Ha|].
      inversion IH; subst. constructor; [|assumption]. simpl. now rewrite Ha.
Qed.

Lemma split_whole c s : has_char c s = false -> split c s = [s].
Proof.
  induction s as [|a r IH]; simpl; [reflexivity|]. intros H.
  apply orb_false_iff in H as [Ha Hr]. now rewrite Ha, IH.
Qed.

Lemma concat_cons2 (x y : string) l :
  String.concat "/" (x :: y :: l) = x +:+ String sep (String.concat "/" (y :: l)).
Proof. reflexivity. Qed.

Lemma split_concat l :
  l <> [] -> Forall (fun x => has_char sep x = false) l ->
  split sep (String.concat "/" l) = l.
Proof.
  induction l as [|x l IH]; [congruence|]. intros _ H. inversion H; subst.
  destruct l as [|y l].
  - simpl. now apply split_whole.
  - rewrite concat_cons2, split_app_sep, IH by (assumption || discriminate).
    rewrite split_whole by assumption. reflexivity.
Qed.

Lemma endswith_char_app c s :
  endswith_char c s = true -> exists d, s = d +:+ String c "".
Proof.
  induction s as [|a r IH]; [discriminate|]. simpl. destruct r as [|b r'].
  - intros H. apply Ascii.eqb_eq in H. subst. now exists "".
  - intros H. destruct (IH H) as [d E]. exists (String a d).
    now rewrite append_cons, <- E.
Qed.

End SplitFacts.

(** ** Normalization and sanitized member names *)

Section Confinement.
Import PyStr PosixPath ZipFile Notions.


Lemma arc_comps_plain filename : Forall plain (arc_comps filename).
Proof.
  unfold arc_comps. apply List.Forall_forall. intros c Hc.
  apply filter_In in Hc as [Hin Hv].
  pose proof (split_no_sep sep filename) as Hs.
  rewrite List.Forall_forall in Hs. specialize (Hs c Hin).
  unfold invalid_path_part in Hv. apply negb_true_iff in Hv.
  apply orb_false_iff in Hv as [Hv H3]. apply orb_false_iff in Hv as [H1 H2].
  apply String.eqb_neq in H1, H2, H3. repeat split; assumption.
Qed.

Lemma norm_step_plain abs st c : plain c -> norm_step abs st c = st ++ [c].
Proof.
  intros (H1 & H2 & H3 & _). unfold norm_step.
  apply String.eqb_neq in H1, H2, H3. now rewrite H1, H2, H3.
Qed.

Lemma norm_fold_plain abs comps : forall st,
  Forall plain comps -> fold_left (norm_step abs) comps st = st ++ comps.
Proof.
  induction comps as [|c comps IH]; intros st H; simpl.
  - now rewrite app_nil_r.
  - inversion H; subst. rewrite norm_step_plain, IH by assumption.
    now rewrite <- app_assoc.
Qed.

Lemma split_sanitize filename :
  split sep (sanitize filename) =
    match arc_comps filename with [] => [""] | _ => arc_comps filename end.
Proof.
  unfold sanitize. pose proof (arc_comps_plain filename) as H.
  destruct (arc_comps filename) as [|c l] eqn:E; [reflexivity|].
  apply split_concat; [discriminate|].
  eapply Forall_impl; [exact H|]. now intros x (_ & _ & _ & Hx).
Qed.

(** Folding the loop of [normpath] over a sanitized name pushes its
    components, and nothing else. *)
Lemma norm_fold_sanitize abs filename st :
  fold_left (norm_step abs) (split sep (sanitize filename)) st
  = st ++ arc_comps filename.
Proof.
  rewrite split_sanitize. pose proof (arc_comps_plain filename) as H.
  destruct (arc_comps filename) as [|c l].
  - simpl. now rewrite app_nil_r.
  - now apply norm_fold_plain.
Qed.

Lemma sanitize_relative filename : startswith "/" (sanitize filename) = false.
Proof.
  unfold sanitize. pose proof (arc_comps_plain filename) as H.
  destruct (arc_comps filename) as [|c l]; [reflexivity|].
  inversion H as [|? ? (Hne & _ & _ & Hs) _]; subst.
  destruct c as [|a c]; [congruence|].
  simpl in Hs. apply orb_false_iff in Hs as [Ha _].
  assert (E : exists r, String.concat "/" (String a c :: l) = String a r).
  { destruct l; [now exists c|]. rewrite concat_cons2, append_cons. eauto. }
  destruct E as [r ->]. cbn [startswith]. unfold sep in Ha.
  now rewrite Ascii.eqb_sym, Ha.
Qed.

(** The path the member is joined to, in the three cases of [join]. *)
Lemma join_sanitize_cases path filename :
  let arc := sanitize filename in
  (path = "" /\ join path arc = arc)
  \/ (exists d, path = d +:+ String sep "" /\ join path arc = d +:+ String sep arc)
  \/ (path <> "" /\ endswith_char sep path = false
      /\ join path arc = path +:+ String sep arc).
Proof.
  intros arc. subst arc. unfold join. rewrite (sanitize_relative filename).
  destruct (String.eqb path "") eqn:E.
  - apply String.eqb_eq in E. left. now subst.
  - apply String.eqb_neq in E. simpl.
    destruct (endswith_char sep path) eqn:Hs.
    + right. left. destruct (endswith_char_app _ _ Hs) as [d ->].
      exists d. split; [reflexivity|]. now rewrite append_assoc.
    + right. right. split; [assumption|]. split; reflexivity.
Qed.

Lemma startswith_join pre path filename :
  (pre = "/" \/ pre = "//" \/ pre = "///") ->
  startswith pre (join path (sanitize filename)) = startswith pre path.
Proof.
  intros Hpre.
  pose proof (sanitize_relative filename) as Hrel.
  destruct (join_sanitize_cases path filename)
    as [[-> ->] | [(d & -> & ->) | (Hne & Hend & ->)]].
  - destruct (sanitize filename) as [|a r]; [reflexivity|]. cbn [startswith] in Hrel.
    apply andb_false_iff in Hrel as [Hrel|?]; [|discriminate].
    destruct Hpre as [-> | [-> | ->]]; cbn [startswith]; now rewrite Hrel.
  - destruct (sanitize filename) as [|a r] eqn:Ea; cbn [startswith] in Hrel;
      destruct d as [|c1 [|c2 [|c3 d]]];
      destruct Hpre as [-> | [-> | ->]]; rewrite ?append_cons, ?append_nil_l;
      cbn [startswith]; rewrite ?andb_true_r, ?andb_false_r; try reflexivity.
    all: try (apply andb_false_iff in Hrel as [Hrel|?]; [|discriminate]).
    all: rewrite ?Hrel, ?andb_false_r; reflexivity.
  - unfold sep in *.
    destruct path as [|c1 [|c2 [|c3 d]]]; [congruence | | |];
      destruct Hpre as [-> | [-> | ->]]; rewrite ?append_cons, ?append_nil_l;
      cbn [startswith]; rewrite ?andb_true_r, ?andb_false_r; try reflexivity.
    all: cbn [endswith_char] in Hend; rewrite 1?(Ascii.eqb_sym _ c1), 1?(Ascii.eqb_sym _ c2).
    all: rewrite ?Hend, ?andb_false_r; try reflexivity.
Qed.

Lemma initial_slashes_join path filename :
  initial_slashes (join path (sanitize filename)) = initial_slashes path.
Proof.
  unfold initial_slashes. now rewrite !startswith_join by auto.
Qed.

Lemma norm_step_empty abs st : norm_step abs st "" = st.
Proof. reflexivity. Qed.

(** The components kept for the joined path are those kept for the
    destination, then the surviving components of the member name. *)
Lemma norm_comps_join path filename :
  norm_comps (join path (sanitize filename))
  = norm_comps path ++ arc_comps filename.
Proof.
  unfold norm_comps. rewrite startswith_join by auto.
  destruct (join_sanitize_cases path filename)
    as [[-> ->] | [(d & -> & ->) | (Hne & Hend & ->)]].
  - now rewrite norm_fold_sanitize.
  - rewrite !split_app_sep, !fold_left_app, norm_fold_sanitize.
    reflexivity.
  - now rewrite split_app_sep, fold_left_app, norm_fold_sanitize.
Qed.

Lemma normpath_render path :
  normpath path = render (initial_slashes path) (norm_comps path).
Proof.
  unfold normpath, render. destruct (String.eqb path "") eqn:E; [|reflexivity].
  apply String.eqb_eq in E. now subst.
Qed.

Lemma extract_target_render path filename :
  extract_target path filename
  = render (initial_slashes path) (norm_comps path ++ arc_comps filename).
Proof.
  unfold extract_target.
  now rewrite normpath_render, initial_slashes_join, norm_comps_join.
Qed.

Lemma extract_member_other path fs m p :
  p <> extract_target path m.1 -> extract_member path fs m !! p = fs !! p.
Proof.
  unfold extract_member. intros Hne.
  destruct (endswith_char sep m.1); [destruct (fs !! extract_target path m.1) as [[]|]|];
    rewrite ?lookup_insert_ne by congruence; reflexivity.
Qed.

(** Extraction touches the targets of the members, and nothing else. *)
Lemma extractall_changes path members : forall fs p,
  extractall path members fs !! p <> fs !! p ->
  exists m, In m members /\ p = extract_target path m.1.
Proof.
  unfold extractall.
  induction members as [|m members IH]; intros fs p H; simpl in *; [congruence|].
  destruct (decide (p = extract_target path m.1)) as [E|E].
  - exists m. split; [now left | assumption].
  - rewrite <- (extract_member_other path fs m p E) in H.
    destruct (IH _ _ H) as (m' & Hin & ->). eauto.
Qed.

End Confinement.

(** ** Running the receiver *)

Section Runs.
Import PyStr PosixPath TwistedReceiver Notions Shape.

Lemma ask_permission_auto a st :
  accept_file a = true -> ask_permission a st = (Ret tt, st).
Proof. unfold ask_permission. now intros ->. Qed.

Lemma ask_permission_eof a st :
  accept_file a = false -> stdin st = [] ->
  ask_permission a st = (Raise EOFError, st).
Proof.
  intros Ha Hs. unfold ask_permission, bind, input. rewrite Ha.
  cbn [andb negb]. now rewrite Hs.
Qed.

(** With no auto-accept, one line is read: a line beginning with [y] or
    [Y] grants, any other line rejects. *)
Lemma ask_permission_answer a st ok rest :
  accept_file a = false -> stdin st = ok :: rest ->
  ask_permission a st =
    let asked :=
      {| fs0 := fs0 st; trace := trace st ++ [EvInput "ok? (y/n): "];
         stdin := rest; _transit_receiver := _transit_receiver st;
         abs_destname := abs_destname st; xfersize := xfersize st |} in
    if startswith "y" (lower ok) then (Ret tt, asked)
    else (Raise (RespondError "transfer rejected"),
          logged [EvStderr "transfer rejected"] asked).
Proof.
  intros Ha Hs. unfold ask_permission, bind, input. rewrite Ha.
  cbn [andb negb]. rewrite Hs.
  destruct (startswith "y" (lower ok)); reflexivity.
Qed.

Lemma decide_destname_eq a mode destname st :
  decide_destname a mode destname st =
    if exists_path st (join (cwd a) (effective_name a destname))
    then (Raise (RespondError (mode +:+ " already exists")),
          logged [EvMsg (MsgRefuseOverwrite mode (effective_name a destname))] st)
    else (Ret (join (cwd a) (effective_name a destname)), st).
Proof.
  unfold decide_destname, effective_name, bind, get_state, ret, raise, msg, emit.
  cbv zeta. destruct (exists_path st _); reflexivity.
Qed.

Lemma exists_path_false st p : exists_path st p = false -> cur_fs st !! p = None.
Proof.
  unfold exists_path. intros H. apply bool_decide_eq_false in H.
  now apply eq_None_not_Some.
Qed.

(** Unfolding of the monad and of the straight-line methods. *)
Ltac unfold_m :=
  unfold _parse_transit, _build_transit, handle_text, _send_permission,
    _establish_transit, _transfer_data, write_file, write_directory,
    close_transit, w_verify, show_verifier, handle_code, _get_data,
    _send_data, msg, py_in, getitem, as_int, as_path, input, try_except,
    bind, ret, raise, pending, emit, get_state, set_abs_destname,
    set_xfersize, set_transit_receiver, content in *.

Ltac simpl_state :=
  cbn [fst snd trace fs0 stdin _transit_receiver abs_destname xfersize
       andb negb logged] in *.

(** One step of symbolic execution: split on what the run tests next. *)
Ltac step :=
  match goal with
  | H : (_, _) = (_, _) |- _ => inversion H; clear H; subst
  | H : decide_destname _ _ _ _ = _ |- _ => rewrite decide_destname_eq in H
  | H : context [match ?x with _ => _ end] |- _ =>
      lazymatch x with
      | context [match _ with _ => _ end] => fail
      | _ => destruct x eqn:?
      end
  end; simpl_state.

Ltac norm_bool :=
  repeat match goal with
         | H : negb _ = true |- _ => apply negb_true_iff in H
         | H : negb _ = false |- _ => apply negb_false_iff in H
         end.

Ltac exec := unfold_m; simpl_state; repeat step; norm_bool.

(** [trace st' = trace st ++ evs] for a literal [evs]. *)
Ltac trace_eq :=
  simpl_state; rewrite <- ?app_assoc; cbn [app];
  first [reflexivity | symmetry; apply app_nil_r].

Ltac all_quiet := repeat constructor.

(** The three ways [handle_file] and [handle_directory] end, tried on a
    run whose events are explicit. *)
Tactic Notation "early" open_constr(evs) :=
  eapply (handled_early _ _ _ _ _ _ evs); [trace_eq | all_quiet | reflexivity].

Tactic Notation "refused" open_constr(evs) :=
  match goal with
  | Ha : accept_file _ = false |- _ =>
      eapply (handled_refused _ _ _ _ _ evs);
      [exact Ha | trace_eq | all_quiet | reflexivity]
  end.

Tactic Notation "opened" open_constr(evs) :=
  eapply (handled_open _ _ _ _ _ evs);
  [ reflexivity
  | unfold consent; simpl_state;
    match goal with Ha : accept_file _ = _ |- _ => rewrite Ha end; trace_eq
  | all_quiet | reflexivity | reflexivity
  | simpl_state; now apply exists_path_false
  | unfold advertised, lookup2; simpl_state;
    repeat match goal with Hk : assoc _ _ = _ |- _ => rewrite Hk; clear Hk end;
    reflexivity ].

Ltac handled_case :=
  first [ early (@nil event) | early [_] | early [_; _]
        | refused [_] | refused [_; _]
        | opened [_] | opened [_; _] ].

Lemma handle_file_handled a them_d st r st' :
  handle_file a them_d st = (r, st') ->
  handled a (fun abs => EvOpen (abs +:+ ".tmp"))
    (fun abs => NamedFile (abs +:+ ".tmp"))
    (advertised them_d "file" "filesize") st r st'.
Proof.
  unfold handle_file, ask_permission. intros H. exec.
  all: handled_case.
Qed.

Lemma handle_directory_handled a them_d st r st' :
  handle_directory a them_d st = (r, st') ->
  handled a (fun _ => EvSpool) (fun _ => SpooledTemporaryFile)
    (advertised them_d "directory" "zipsize") st r st'.
Proof.
  unfold handle_directory, ask_permission. intros H. exec.
  all: handled_case.
Qed.

Lemma receive_file_run a wd tmp st r st' :
  receive_file a wd (NamedFile tmp) st = (r, st') ->
  fs0 st' = fs0 st /\ abs_destname st' = abs_destname st
  /\ xfersize st' = xfersize st
  /\ if _transit_receiver st
     then r = transfer_result wd (xfersize st)
          /\ trace st' = trace st
               ++ transfer_events wd (NamedFile tmp) (xfersize st)
                    (file_finish tmp (abs_destname st))
     else r = Raise AttributeError /\ trace st' = trace st ++ [file_ack].
Proof.
  unfold receive_file, transfer_result, transfer_events, file_finish, file_ack.
  intros H. exec.
  all: repeat split; try reflexivity.
  all: repeat match goal with Hc : _ = _ |- _ => rewrite Hc end.
  all: repeat split; try reflexivity; trace_eq.
Qed.

(** The spooled file holds what was written after it was made. *)
Lemma spooled_app tr evs : spooled (tr ++ evs) = fold_left spool_step evs (spooled tr).
Proof. apply fold_left_app. Qed.

Lemma spooled_fresh tr : spooled (tr ++ [EvSpool]) = [].
Proof. now rewrite spooled_app. Qed.

(** In the hypotheses, the content of a spool that was empty at [st]. *)
Ltac spool_content Hsp :=
  repeat match goal with
         | Hu : unzip _ (spooled _) = _ |- _ =>
             rewrite !spooled_app, Hsp in Hu; cbn [fold_left spool_step app] in Hu
         end.

Lemma receive_directory_run a wd st r st' :
  spooled (trace st) = [] ->
  receive_directory a wd SpooledTemporaryFile st = (r, st') ->
  fs0 st' = fs0 st /\ abs_destname st' = abs_destname st
  /\ xfersize st' = xfersize st
  /\ if _transit_receiver st
     then r = directory_result wd (xfersize st)
          /\ trace st' = trace st
               ++ directory_events wd (xfersize st) (abs_destname st)
     else r = Raise AttributeError /\ trace st' = trace st ++ [file_ack].
Proof.
  unfold receive_directory, directory_result, directory_events,
    directory_finish, unpack_result, file_ack.
  intros Hsp H. exec. all: spool_content Hsp.
  all: repeat split; try reflexivity.
  all: repeat match goal with Hc : _ = _ |- _ => rewrite Hc end.
  all: repeat split; try reflexivity; trace_eq.
Qed.

Lemma parse_offer_eq a wd them_d :
  parse_offer a wd them_d =
    (let* is_message := py_in "message" them_d in
     if is_message then handle_text them_d
     else
       let* is_file := py_in "file" them_d in
       if is_file then
         let* f := handle_file a them_d in receive_file a wd f
       else
         let* is_directory := py_in "directory" them_d in
         if is_directory then
           let* f := handle_directory a them_d in receive_directory a wd f
         else
           msg MsgUnknownOffer >>
           msg (MsgOfferDetails them_d) >>
           raise (RespondError "unknown offer type")).
Proof. reflexivity. Qed.

Ltac light evs :=
  eapply (run_light _ _ _ _ _ evs); [trace_eq | all_quiet | reflexivity | discriminate].

Lemma offer_run_failed a wd offer opening obj adv st e st' :
  handled a opening obj adv st (Raise e) st' ->
  offer_run a wd offer st (Raise e) st'.
Proof.
  intros H. inversion H; subst.
  - eapply run_light; eauto.
  - eapply run_refused; eauto.
Qed.

Lemma offer_run_file a wd offer st f s0 r st' :
  handled a (fun abs => EvOpen (abs +:+ ".tmp"))
    (fun abs => NamedFile (abs +:+ ".tmp"))
    (advertised offer "file" "filesize") st (Ret f) s0 ->
  receive_file a wd f s0 = (r, st') ->
  offer_run a wd offer st r st'.
Proof.
  intros H Hr. inversion H; subst.
  apply receive_file_run in Hr as (Hfs & Habs & Hx & Hr).
  destruct (_transit_receiver s0) eqn:Ht; destruct Hr as [-> Htr].
  - rewrite <- Hx. eapply (run_file _ _ _ _ evs).
    + rewrite Htr, Habs, Hx.
      match goal with Hs : trace s0 = _ |- _ => rewrite Hs end.
      now rewrite <- !app_assoc.
    + eassumption.
    + congruence.
    + now rewrite Habs.
    + now rewrite Hx.
  - eapply (run_no_transit _ _ _ _ evs (EvOpen (abs_destname s0 +:+ ".tmp"))).
    + congruence.
    + rewrite Htr.
      match goal with Hs : trace s0 = _ |- _ => rewrite Hs end.
      now rewrite <- !app_assoc.
    + eassumption.
    + left. now rewrite Habs.
    + congruence.
    + now rewrite Habs.
Qed.

Lemma offer_run_directory a wd offer st f s0 r st' :
  handled a (fun _ => EvSpool) (fun _ => SpooledTemporaryFile)
    (advertised offer "directory" "zipsize") st (Ret f) s0 ->
  receive_directory a wd f s0 = (r, st') ->
  offer_run a wd offer st r st'.
Proof.
  intros H Hr. inversion H; subst.
  assert (Hsp : spooled (trace s0) = []).
  { match goal with Hs : trace s0 = _ |- _ => rewrite Hs end.
    rewrite !app_assoc. apply spooled_fresh. }
  apply (receive_directory_run _ _ _ _ _ Hsp) in Hr as (Hfs & Habs & Hx & Hr).
  destruct (_transit_receiver s0) eqn:Ht; destruct Hr as [-> Htr].
  - rewrite <- Hx. eapply (run_directory _ _ _ _ evs).
    + rewrite Htr, Habs, Hx.
      match goal with Hs : trace s0 = _ |- _ => rewrite Hs end.
      now rewrite <- !app_assoc.
    + eassumption.
    + congruence.
    + now rewrite Habs.
    + now rewrite Hx.
  - eapply (run_no_transit _ _ _ _ evs EvSpool).
    + congruence.
    + rewrite Htr.
      match goal with Hs : trace s0 = _ |- _ => rewrite Hs end.
      now rewrite <- !app_assoc.
    + eassumption.
    + now right.
    + congruence.
    + now rewrite Habs.
Qed.

(** Every run of [parse_offer] has one of the shapes of [offer_run]. *)
Lemma parse_offer_run a wd offer st r st' :
  parse_offer a wd offer st = (r, st') -> offer_run a wd offer st r st'.
Proof.
  rewrite parse_offer_eq. intros H. exec.
  all: try (light (@nil event)).
  all: try match goal with
       | |- offer_run _ _ _ _ _ {| trace := (trace _ ++ [_]) ++ [_] |} =>
           eapply (run_light _ _ _ _ _ [_; _]);
           [trace_eq | all_quiet | reflexivity | discriminate]
       end.
  all: match goal with
       | H : handle_file _ _ _ = (Raise _, _) |- _ =>
           apply handle_file_handled in H; eapply offer_run_failed; exact H
       | H : handle_directory _ _ _ = (Raise _, _) |- _ =>
           apply handle_directory_handled in H; eapply offer_run_failed; exact H
       | H : handle_file _ _ _ = (Ret _, _) |- _ =>
           apply handle_file_handled in H; eapply offer_run_file; eassumption
       | H : handle_directory _ _ _ = (Ret _, _) |- _ =>
           apply handle_directory_handled in H; eapply offer_run_directory; eassumption
       | H : handle_file _ _ _ = (Pending, _) |- _ =>
           apply handle_file_handled in H; inversion H
       | H : handle_directory _ _ _ = (Pending, _) |- _ =>
           apply handle_directory_handled in H; inversion H
       end.
Qed.

Lemma transfer_result_cases wd n :
  (received wd < n
   /\ transfer_result wd n
      = Raise (TransferError (JStr "Connection dropped before full file received")))
  \/ (received wd > n /\ transfer_result wd n = Raise AssertionError)
  \/ (received wd = n /\ transfer_result wd n = Ret tt).
Proof.
  unfold transfer_result.
  destruct (received wd <? n) eqn:E1; [left; split; [lia | reflexivity]|].
  destruct (received wd =? n) eqn:E2; simpl; [right; right | right; left];
    split; (lia || reflexivity).
Qed.

Lemma directory_result_cases wd n :
  (received wd < n
   /\ directory_result wd n
      = Raise (TransferError (JStr "Connection dropped before full file received")))
  \/ (received wd > n /\ directory_result wd n = Raise AssertionError)
  \/ (received wd = n /\ directory_result wd n = unpack_result wd).
Proof.
  unfold directory_result.
  destruct (received wd <? n) eqn:E1; [left; split; [lia | reflexivity]|].
  destruct (received wd =? n) eqn:E2; simpl; [right; right | right; left];
    split; (lia || reflexivity).
Qed.

(** The unpacking ends: with success, or with the error of [zipfile]. *)
Lemma unpack_result_cases wd :
  unpack_result wd = Ret tt \/ exists err, unpack_result wd = Raise (OtherError err).
Proof. unfold unpack_result. destruct (unzip wd (written wd)); eauto. Qed.

Lemma directory_result_not_pending wd n : directory_result wd n <> Pending.
Proof.
  destruct (directory_result_cases wd n) as [[_ ->] | [[_ ->] | [_ ->]]];
    try discriminate.
  destruct (unpack_result_cases wd) as [-> | (err & ->)]; discriminate.
Qed.

Lemma transfer_result_not_pending wd n : transfer_result wd n <> Pending.
Proof.
  destruct (transfer_result_cases wd n) as [[_ ->] | [[_ ->] | [_ ->]]];
    discriminate.
Qed.

Lemma parse_offer_not_pending a wd offer st r st' :
  parse_offer a wd offer st = (r, st') -> r <> Pending.
Proof.
  intros H. apply parse_offer_run in H. inversion H; subst; try congruence.
  - apply transfer_result_not_pending.
  - apply directory_result_not_pending.
Qed.

Ltac give_events :=
  first [ exists (@nil event); split; [trace_eq|]
        | eexists [_]; split; [trace_eq|]
        | eexists [_; _]; split; [trace_eq|]
        | eexists [_; _; _]; split; [trace_eq|]
        | eexists [_; _; _; _]; split; [trace_eq|]
        | eexists [_; _; _; _; _]; split; [trace_eq|]
        | eexists [_; _; _; _; _; _]; split; [trace_eq|]
        | eexists [_; _; _; _; _; _; _]; split; [trace_eq|] ].

(** A transit message only talks to the transit receiver and to the peer. *)
Lemma _parse_transit_quiet a wd hints st r st' :
  _parse_transit a wd hints st = (r, st') ->
  exists evs,
    trace st' = trace st ++ evs
    /\ Forall (fun e => quiet e = true) evs
    /\ fs0 st' = fs0 st
    /\ r <> Pending
    /\ forall s, r <> Raise (RespondError s).
Proof.
  intros H. exec.
  all: give_events; repeat split; try all_quiet; congruence.
Qed.

Lemma negotiation_after a wd inbox st evs st1 r st' :
  trace st1 = trace st ++ evs ->
  Forall (fun e => quiet e = true) evs ->
  fs0 st1 = fs0 st ->
  negotiation a wd inbox st1 r st' ->
  negotiation a wd inbox st r st'.
Proof.
  intros Ht Hq Hfs H.
  inversion H as [r0 evs0 st0 Htr0 Hq0 Hfs0 Hr0
                 | them_d offer evs0 s1 r1 s2 r0 post st0
                     Hin Hof Htr1 Hq1 Hfs1 Hpo Hout Htr2 Hfs2 Habs2 Hx2]; subst.
  - eapply (neg_no_offer _ _ _ _ _ (evs ++ evs0)).
    + rewrite Htr0, Ht. now rewrite app_assoc.
    + now apply Forall_app.
    + congruence.
    + assumption.
  - eapply (neg_offer _ _ _ _ them_d offer (evs ++ evs0) s1 r1 s2 r post).
    + assumption.
    + assumption.
    + rewrite Htr1, Ht. now rewrite app_assoc.
    + now apply Forall_app.
    + congruence.
    + assumption.
    + assumption.
    + assumption.
    + assumption.
    + assumption.
    + assumption.
Qed.

Lemma negotiation_cons a wd g inbox st r st' :
  negotiation a wd inbox st r st' -> negotiation a wd (g :: inbox) st r st'.
Proof.
  intros H.
  inversion H as [r0 evs0 st0 Htr0 Hq0 Hfs0 Hr0
                 | them_d offer evs0 s1 r1 s2 r0 post st0
                     Hin Hof Htr1 Hq1 Hfs1 Hpo Hout Htr2 Hfs2 Habs2 Hx2]; subst.
  - eapply neg_no_offer; eassumption.
  - eapply (neg_offer _ _ _ _ them_d offer evs0 s1 r1 s2 r post);
      first [assumption | now right].
Qed.

Lemma _go_loop_cons a wd want_offer done g inbox :
  _go_loop a wd want_offer done (g :: inbox) =
    (let* got :=
       try_except (let* them_d := _get_data g in ret (Some them_d)) (fun e =>
         match e with
         | WormholeClosedError =>
             Some (if done then ret None
                   else raise (TransferError (JStr "unexpected close")))
         | _ => None
         end) in
     match got with
     | None => ret tt
     | Some them_d =>
         let* has_transit := py_in "transit" them_d in
         if has_transit then
           let* hints := getitem them_d "transit" in
           _parse_transit a wd hints >>
           _go_loop a wd want_offer done inbox
         else
           let* has_offer := py_in "offer" them_d in
           if has_offer then
             if negb want_offer then
               raise (TransferError (JStr "duplicate offer"))
             else
               let* offer := getitem them_d "offer" in
               try_except (parse_offer a wd offer) (fun e =>
                 match e with
                 | RespondError response =>
                     Some (_send_data (jobj1 "error" (JStr response)) >>
                           raise (TransferError (JStr response)))
                 | _ => None
                 end)
           else
             emit (EvLog them_d) >>
             raise (TransferError (JStr "expected offer, got none"))
     end).
Proof. reflexivity. Qed.

Ltac unfold_loop :=
  unfold _send_data, _get_data, py_in, getitem, try_except,
    bind, ret, raise, pending, emit, get_state in *.

Ltac no_offer evs :=
  eapply (neg_no_offer _ _ _ _ _ evs);
  [trace_eq | all_quiet | reflexivity
  | first [now left | right; eexists; split; [reflexivity | congruence]]].

(** Every run of the loop, entered as [_go] enters it, is a negotiation. *)
Lemma _go_loop_negotiation a wd inbox : forall st r st',
  _go_loop a wd true false inbox st = (r, st') ->
  negotiation a wd inbox st r st'.
Proof.
  induction inbox as [|g inbox IH]; intros st r st' H.
  - inversion H; subst. no_offer (@nil event).
  - rewrite _go_loop_cons in H. unfold_loop. simpl_state.
    destruct g as [them_d|x].
    2: { destruct x; simpl_state; inversion H; subst; no_offer (@nil event). }
    repeat step.
    all: try (no_offer (@nil event)).
    all: try (no_offer [EvLog (JStr s)]).
    all: try (no_offer [EvLog (JList l)]).
    all: try (no_offer [EvLog (JObj kvs)]).
    all: try match goal with
         | Ht : _parse_transit _ _ _ _ = (Ret _, _),
           Hl : _go_loop _ _ _ _ _ _ = _ |- _ =>
             apply _parse_transit_quiet in Ht as (evs & Htr & Hq & Hfs & _);
             apply IH in Hl; apply negotiation_cons;
             eapply negotiation_after; eassumption
         | Ht : _parse_transit _ _ _ _ = (?r, _) |- _ =>
             apply _parse_transit_quiet in Ht as (evs & Htr & Hq & Hfs & Hp & Hne);
             first [ congruence
                   | eapply (neg_no_offer _ _ _ _ _ evs);
                     [assumption | assumption | assumption |];
                     right; eexists; split; [reflexivity|];
                     intros s' ->; now apply (Hne s') ]
         end.
    all: try match goal with
         | Hp : parse_offer _ _ _ _ = (Pending, _) |- _ =>
             now apply parse_offer_not_pending in Hp
         end.
    all: try match goal with
         | Hp : parse_offer _ _ ?offer ?st = (?r1, ?s2), Ha : assoc "offer" ?kvs = Some ?offer
           |- negotiation _ _ (Got ?d :: _) _ ?r ?st' =>
             eapply (neg_offer _ _ _ _ d offer (@nil event) st r1 s2 r);
             [ now left | exact Ha | symmetry; apply app_nil_r | constructor
             | reflexivity | exact Hp | | | | | ]
         end.
    all: try match goal with
         | |- offer_outcome (Ret ?u) _ _ => destruct u; apply outcome_ret
         | |- offer_outcome (Raise (RespondError _)) _ _ => apply outcome_respond
         | |- offer_outcome (Raise _) _ _ => apply outcome_raise; congruence
         end.
    all: try reflexivity.
    all: symmetry; apply app_nil_r.
Qed.

Lemma _go_eq a wd inbox :
  _go a wd inbox =
    (handle_code a >>
     let* verifier := w_verify wd in
     show_verifier a verifier >>
     _go_loop a wd true false inbox).
Proof. reflexivity. Qed.

(** Every run of [_go] is a negotiation. *)
Lemma _go_negotiation a wd inbox st r st' :
  _go a wd inbox st = (r, st') -> negotiation a wd inbox st r st'.
Proof.
  rewrite _go_eq. intros H. exec.
  all: try match goal with
       | Hl : _go_loop _ _ _ _ _ ?s = _ |- _ =>
           apply _go_loop_negotiation in Hl;
           first [ refine (negotiation_after _ _ _ _ [_; _; _] _ _ _ _ _ _ Hl);
                   [trace_eq | all_quiet | reflexivity]
                 | refine (negotiation_after _ _ _ _ [_; _] _ _ _ _ _ _ Hl);
                   [trace_eq | all_quiet | reflexivity] ]
       end.
  all: try (no_offer (@nil event)).
  all: try (eapply (neg_no_offer _ _ _ _ _ [_; _]);
            [trace_eq | all_quiet | reflexivity
            | right; eexists; split; [reflexivity | destruct c; discriminate]]).
Qed.

(** [go] runs [_go] after the channel is made and closes the channel once
    [_go] has fired; the outcome is the one [_go] had. *)
Lemma go_unfold a wd inbox st r st' :
  go a wd inbox st = (r, st') ->
  exists s0 pre s1,
    trace s0 = trace st ++ pre
    /\ Forall (fun e => quiet e = true) pre
    /\ fs0 s0 = fs0 st
    /\ _go a wd inbox s0 = (r, s1)
    /\ fs0 st' = fs0 s1
    /\ abs_destname st' = abs_destname s1
    /\ xfersize st' = xfersize s1
    /\ trace st' = trace s1 ++ closing r.
Proof.
  unfold go, addBoth, w_close. intros H. unfold_m. simpl_state.
  assert (Hpre : exists s0 pre,
             trace s0 = trace st ++ pre
             /\ Forall (fun e => quiet e = true) pre
             /\ fs0 s0 = fs0 st
             /\ match _go a wd inbox s0 with
                | (Pending, s1) => (Pending, s1)
                | (r1, s1) =>
                    (r1, {| fs0 := fs0 s1; trace := trace s1 ++ [EvWormholeClose];
                            stdin := stdin s1;
                            _transit_receiver := _transit_receiver s1;
                            abs_destname := abs_destname s1;
                            xfersize := xfersize s1 |})
                end = (r, st')).
  { destruct (tor a); simpl_state; eexists;
      [exists [EvTorStart; EvWormhole APPID (relay_url a)]
      | exists [EvWormhole APPID (relay_url a)]];
      (split; [|split; [all_quiet | split; [|exact H]]]);
      [trace_eq | reflexivity | trace_eq | reflexivity]. }
  clear H. destruct Hpre as (s0 & pre & Htr & Hq & Hfs & H).
  destruct (_go a wd inbox s0) as [r1 s1] eqn:Hgo.
  exists s0, pre, s1.
  destruct r1 as [[]|e|]; inversion H; subst; simpl_state;
    repeat (split; [first [assumption | reflexivity]|]); trace_eq.
Qed.

(** A run of [go]: a negotiation, then the close of the channel unless the
    session stays suspended. *)
Lemma go_run a wd inbox st r st' :
  go a wd inbox st = (r, st') ->
  exists s1,
    negotiation a wd inbox st r s1
    /\ fs0 st' = fs0 s1
    /\ abs_destname st' = abs_destname s1
    /\ xfersize st' = xfersize s1
    /\ trace st' = trace s1 ++ closing r.
Proof.
  intros H.
  apply go_unfold in H
    as (s0 & pre & s1 & Htr & Hq & Hfs & Hgo & Hfs' & Habs & Hx & Htr').
  apply _go_negotiation in Hgo.
  exists s1. split; [eapply negotiation_after; eassumption|].
  repeat (split; [assumption|]). assumption.
Qed.
End Runs.

(** ** Sessions *)

Section Sessions.
Import PyStr PosixPath TwistedReceiver Notions Shape.

Lemma replay_app fs tr1 tr2 : replay fs (tr1 ++ tr2) = replay (replay fs tr1) tr2.
Proof. apply fold_left_app. Qed.

Lemma apply_quiet fs e : quiet e = true -> apply_event fs e = fs.
Proof. destruct e; simpl; congruence. Qed.

Lemma replay_quiet fs evs :
  Forall (fun e => quiet e = true) evs -> replay fs evs = fs.
Proof.
  intros H. revert fs. induction H as [|e evs He _ IH]; intros fs; [reflexivity|].
  cbn [replay fold_left]. rewrite apply_quiet by assumption. apply IH.
Qed.

Lemma cur_fs_quiet st st1 evs :
  trace st1 = trace st ++ evs -> fs0 st1 = fs0 st ->
  Forall (fun e => quiet e = true) evs -> cur_fs st1 = cur_fs st.
Proof.
  unfold cur_fs. intros -> -> H. now rewrite replay_app, replay_quiet.
Qed.

Lemma cur_fs_app st st' evs :
  trace st' = trace st ++ evs -> fs0 st' = fs0 st ->
  cur_fs st' = replay (cur_fs st) evs.
Proof. unfold cur_fs. intros -> ->. apply replay_app. Qed.

(** The outcome of a transfer is never a [RespondError]; [_go] hands it on
    unchanged. *)
Lemma transfer_outcome wd n r post :
  offer_outcome (transfer_result wd n) r post ->
  r = transfer_result wd n /\ post = [].
Proof.
  destruct (transfer_result_cases wd n) as [[_ E] | [[_ E] | [_ E]]];
    rewrite E; intros H; inversion H; subst; auto.
Qed.

Lemma directory_outcome wd n r post :
  offer_outcome (directory_result wd n) r post ->
  r = directory_result wd n /\ post = [].
Proof.
  destruct (directory_result_cases wd n) as [[_ E] | [[_ E] | [_ E]]];
    rewrite E; try (intros H; inversion H; subst; now auto).
  destruct (unpack_result_cases wd) as [-> | (err & ->)];
    intros H; inversion H; subst; auto.
Qed.

(** Every run of [go] is a [session_run]. *)
Lemma go_session a wd inbox st r st' :
  go a wd inbox st = (r, st') ->
  fs0 st' = fs0 st
  /\ exists evs, trace st' = trace st ++ evs
              /\ session_run a wd inbox st r st' evs.
Proof.
  intros H. apply go_run in H as (s & Hn & Hfs & Habs & Hx & Htr).
  inversion Hn as [r0 evs0 st0 Htr0 Hq0 Hfs0 Hr0
                  | them_d offer evs0 s1 r1 s2 r0 post st0
                      Hin Hof Htr1 Hq1 Hfs1 Hpo Hout Htr2 Hfs2 Habs2 Hx2]; subst.
  - split; [congruence|]. exists (evs0 ++ closing r). split.
    + rewrite Htr, Htr0. now rewrite app_assoc.
    + now apply ses_idle.
  - assert (Hcur : cur_fs s1 = cur_fs st) by (eapply cur_fs_quiet; eassumption).
    assert (Hc : closing r = [EvWormholeClose]).
    { inversion Hout; reflexivity. }
    rewrite Hc in Htr.
    apply parse_offer_run in Hpo.
    inversion Hpo as [r' oevs s' Ho Hoq Hofs Hnp
                     | oevs s' Hacc Ho Hoq Hofs
                     | oevs opening s' Hnt Ho Hoq Hop Hofs Hoc
                     | oevs s' abs tmp Ho Hoq Hofs Hoc Hadv
                     | oevs s' abs Ho Hoq Hofs Hoc Hadv]; subst.
    + split; [congruence|]. exists ((evs0 ++ oevs) ++ post ++ [EvWormholeClose]).
      split.
      * rewrite Htr, Htr2, Ho, Htr1. now rewrite <- !app_assoc.
      * eapply ses_light; [now apply Forall_app | eassumption].
    + split; [congruence|]. inversion Hout as [|response|e Hne]; subst.
      2: { exfalso. eapply Hne. reflexivity. }
      eexists. split; [|eapply (ses_refused _ _ _ _ (evs0 ++ oevs));
                        [assumption | now apply Forall_app]].
      rewrite Htr, Htr2, Ho, Htr1. now rewrite <- !app_assoc.
    + split; [congruence|]. inversion Hout; subst.
      eexists. split; [|eapply (ses_no_transit _ _ _ _ (evs0 ++ oevs) opening)].
      * rewrite Htr, Htr2, Ho, Htr1. rewrite <- !app_assoc. cbn [app].
        reflexivity.
      * now apply Forall_app.
      * now rewrite Habs, Habs2.
      * now rewrite Habs, Habs2, <- Hcur.
    + split; [congruence|].
      apply transfer_outcome in Hout as [-> ->].
      eexists. split; [|rewrite <- Hx2, <- Hx;
                        eapply (ses_file _ _ _ _ them_d offer (evs0 ++ oevs))].
      * rewrite Htr, Htr2, Ho, Htr1. subst abs tmp.
        rewrite Hx, Hx2, Habs, Habs2. rewrite <- !app_assoc. cbn [app].
        reflexivity.
      * assumption.
      * assumption.
      * now rewrite Hx, Hx2.
      * now apply Forall_app.
      * subst abs. now rewrite Habs, Habs2, <- Hcur.
    + split; [congruence|].
      apply directory_outcome in Hout as [-> ->].
      eexists. split; [|rewrite <- Hx2, <- Hx;
                        eapply (ses_directory _ _ _ _ them_d offer (evs0 ++ oevs))].
      * rewrite Htr, Htr2, Ho, Htr1. subst abs.
        rewrite Hx, Hx2, Habs, Habs2. rewrite <- !app_assoc. cbn [app].
        reflexivity.
      * assumption.
      * assumption.
      * now rewrite Hx, Hx2.
      * now apply Forall_app.
      * subst abs. now rewrite Habs, Habs2, <- Hcur.
Qed.

End Sessions.

(** ** Reasoning on the events of a session *)

Section EventFacts.
Import PyStr PosixPath TwistedReceiver Notions Shape.

Lemma quiet_forall (P : event -> Prop) evs :
  (forall e, quiet e = true -> P e) ->
  Forall (fun e => quiet e = true) evs -> Forall P evs.
Proof. intros HP H. eapply Forall_impl; [exact H | exact HP]. Qed.

Lemma quiet_not_close e : quiet e = true -> is_close e = false.
Proof. destruct e; simpl; congruence. Qed.

Lemma quiet_not_materializes e : quiet e = true -> materializes e = false.
Proof. destruct e; simpl; congruence. Qed.

Lemma quiet_not_commits e : quiet e = true -> commits e = false.
Proof. destruct e; simpl; congruence. Qed.

Lemma quiet_not_record e : quiet e = true -> is_record e = false.
Proof. destruct e; simpl; congruence. Qed.

Lemma quiet_not_breaks_off e : quiet e = true -> breaks_off e = false.
Proof. destruct e; simpl; congruence. Qed.

Lemma events_unique st st' (evs evs' : list event) :
  trace st' = trace st ++ evs -> trace st' = trace st ++ evs' -> evs = evs'.
Proof. intros -> H. now apply app_inv_head in H. Qed.

End EventFacts.

Create HintDb events.
#[local] Hint Resolve quiet_not_close quiet_not_materializes quiet_not_commits
  quiet_not_record quiet_not_breaks_off : events.

(** Splits the event lists of [session_run] into their cases. *)
Ltac open_events :=
  unfold Shape.transfer_events, Shape.transfer_result, Shape.file_finish,
    Shape.directory_events, Shape.directory_result, Shape.directory_finish,
    Shape.unpack_result, Notions.consent, Shape.file_ack, Shape.closing in *;
  repeat match goal with
         | |- context [accept_file ?a] => destruct (accept_file a) eqn:?
         | |- context [Z.ltb ?x ?y] => destruct (Z.ltb x y) eqn:?
         | |- context [Z.eqb ?x ?y] => destruct (Z.eqb x y) eqn:?
         | |- context [unzip ?w ?d] => destruct (unzip w d) eqn:?
         end;
  cbn [negb app] in *.

Section Closing.
Import PyStr PosixPath TwistedReceiver Notions Shape.

(** The events of a session that ends are events that do not close the
    channel, followed by the close. *)
Lemma session_run_close a wd inbox st r st' evs :
  session_run a wd inbox st r st' evs -> r <> Pending ->
  exists body,
    evs = body ++ [EvWormholeClose]
    /\ Forall (fun e => is_close e = false) body.
Proof.
  intros H Hr.
  inversion H as [r0 evs0 s Hq Hres | r1 r0 post evs0 s Hq Hout
                 | evs0 s Hacc Hq | evs0 opening s Hq Hop Hc
                 | them_d offer evs0 s abs tmp n Hin Hof Hadv Hq Hc
                 | them_d offer evs0 s abs n Hin Hof Hadv Hq Hc]; subst.
  - destruct Hres as [-> | (e & -> & _)]; [congruence|].
    exists evs0. split; [reflexivity|].
    eapply quiet_forall; [|eassumption]. auto with events.
  - exists (evs0 ++ post). split; [now rewrite <- app_assoc|].
    apply Forall_app. split.
    + eapply quiet_forall; [|eassumption]. auto with events.
    + inversion Hout; repeat constructor.
  - exists (evs0 ++ [EvInput "ok? (y/n): "; EvStderr "transfer rejected";
                     EvSend (jobj1 "error" (JStr "transfer rejected"))]).
    split; [now rewrite <- app_assoc|].
    apply Forall_app. split; [|repeat constructor].
    eapply quiet_forall; [|eassumption]. auto with events.
  - exists (evs0 ++ consent a ++ [opening; file_ack]).
    split; [now rewrite <- !app_assoc|].
    apply Forall_app. split; [eapply quiet_forall; [|eassumption]; auto with events|].
    destruct Hop as [-> | ->]; open_events; repeat constructor.
  - exists (evs0 ++ consent a ++ [EvOpen tmp]
                 ++ transfer_events wd (NamedFile tmp) n (file_finish tmp abs)).
    split; [now rewrite <- !app_assoc|].
    apply Forall_app. split; [eapply quiet_forall; [|eassumption]; auto with events|].
    open_events; repeat constructor.
  - exists (evs0 ++ consent a ++ [EvSpool] ++ directory_events wd n abs).
    split; [now rewrite <- !app_assoc|].
    apply Forall_app. split; [eapply quiet_forall; [|eassumption]; auto with events|].
    open_events; repeat constructor.
Qed.

Lemma filter_none {A} (f : A -> bool) l :
  Forall (fun x => f x = false) l -> List.filter f l = [].
Proof.
  induction 1 as [|x l Hx _ IH]; [reflexivity|]. simpl. now rewrite Hx.
Qed.

End Closing.

Section ChannelClose.
Import PyStr PosixPath TwistedReceiver Notions Shape Scenario.

(** C5. On every exit path of the session, whether [_go] succeeded or
    failed, the close of the wormhole channel is invoked exactly once, as
    the last action before the outcome is handed on, and the outcome is the
    one [_go] produced: the close does not replace it. *)
Theorem go_closes_channel_once a wd inbox st r st' evs :
  go a wd inbox st = (r, st') ->
  trace st' = trace st ++ evs ->
  r <> Pending ->
  length (List.filter is_close evs) = 1%nat
  /\ last evs = Some EvWormholeClose
  /\ exists s0 s1,
       _go a wd inbox s0 = (r, s1)
       /\ trace st' = trace s1 ++ [EvWormholeClose].
Proof.
  intros Hgo Htr Hr.
  destruct (go_session _ _ _ _ _ _ Hgo) as (_ & evs' & Htr' & Hs).
  rewrite (events_unique _ _ _ _ Htr Htr').
  destruct (session_run_close _ _ _ _ _ _ _ Hs Hr) as (body & -> & Hbody).
  split; [|split].
  - rewrite List.filter_app, (filter_none _ _ Hbody). reflexivity.
  - apply last_snoc.
  - apply go_unfold in Hgo as (s0 & pre & s1 & _ & _ & _ & H & _ & _ & _ & Hc).
    exists s0, s1. split; [exact H|]. rewrite Hc.
    destruct r; [reflexivity | reflexivity | congruence].
Qed.

Lemma go_closes_channel_once_witness :
  let inbox := [transit_msg; offer_msg (file_offer "b.txt" 5)] in
  length (List.filter is_close (events_of ex_args ex_world inbox ∅ [])) = 1%nat
  /\ last (events_of ex_args ex_world inbox ∅ []) = Some EvWormholeClose
  /\ exists s0 s1,
       _go ex_args ex_world inbox s0
       = (Raise (TransferError
                   (JStr "Connection dropped before full file received")), s1)
       /\ trace (receive ex_args ex_world inbox (init_state ∅ [])).2
          = trace s1 ++ [EvWormholeClose].
Proof.
  intros inbox.
  apply (go_closes_channel_once ex_args ex_world inbox (init_state ∅ [])
           (Raise (TransferError
                     (JStr "Connection dropped before full file received")))
           (receive ex_args ex_world inbox (init_state ∅ [])).2);
    [vm_compute; reflexivity | vm_compute; reflexivity | discriminate].
Defined.

End ChannelClose.

(** ** The properties of the session *)

(** Membership in the events of a session: a quiet part cannot hold an
    event that is not quiet. *)
Lemma quiet_in evs e :
  Forall (fun e => Notions.quiet e = true) evs -> In e evs ->
  Notions.quiet e = true.
Proof. intros H Hin. rewrite List.Forall_forall in H. now apply H. Qed.

Ltac split_in H :=
  repeat match type of H with
         | In _ (_ ++ _) => apply in_app_or in H; destruct H as [H|H]
         | In _ (_ :: _) => destruct H as [H|H]
         | In _ [] => destruct H
         end.

(** Decides where an event that is not quiet sits in an event list. *)
Ltac find_in H :=
  split_in H;
  try match type of H with
      | In _ ?evs =>
          match goal with
          | Hq : Forall _ evs |- _ =>
              apply (quiet_in _ _ Hq) in H; discriminate H
          end
      end;
  try discriminate H.

Ltac open_in H := revert H; open_events; intros H.

Ltac bools :=
  repeat match goal with
         | H : (_ <? _) = true |- _ => apply Z.ltb_lt in H
         | H : (_ <? _) = false |- _ => apply Z.ltb_ge in H
         | H : (_ =? _) = true |- _ => apply Z.eqb_eq in H
         | H : (_ =? _) = false |- _ => apply Z.eqb_neq in H
         end.

Section ByteCount.
Import PyStr PosixPath TwistedReceiver Notions Shape Scenario.

(** C1, the reading that fails: a directory is offered with three bytes,
    the pipe delivers all three, and the session still fails, with
    [BadZipFile], because the three bytes are no archive.  So the byte
    counts can agree in a session that does not succeed. *)
Lemma byte_count_law_counterexample :
  In (EvWriteToFile SpooledTemporaryFile 3 3 abc)
     (events_of ex_args no_archive_world
        [transit_msg; offer_msg (directory_offer "zipfile/deflated" "d" 3)]
        ∅ [])
  /\ outcome_of ex_args no_archive_world
       [transit_msg; offer_msg (directory_offer "zipfile/deflated" "d" 3)]
       ∅ []
     = Raise (OtherError "BadZipFile")
  /\ outcome_of ex_args no_archive_world
       [transit_msg; offer_msg (directory_offer "zipfile/deflated" "d" 3)]
       ∅ []
     <> Ret tt.
Proof. vm_compute. split; [tauto | split; [reflexivity | discriminate]]. Qed.

(** C1. In a session where the record pipe was asked for [n] bytes, the
    size the offer advertised, and reported [m] received bytes, the session
    succeeds only if [m = n].  With [m = n] the session of a file succeeds;
    the session of a directory succeeds exactly when the bytes received
    unpack as an archive, and fails with the error of the unpacking
    otherwise.  If [m < n] the session fails with "Connection dropped
    before full file received", the console reports both counts, and
    neither a rename nor an extraction, whole or broken off, takes place. *)
Theorem byte_count_law a wd inbox st r st' evs f n m data :
  go a wd inbox st = (r, st') ->
  trace st' = trace st ++ evs ->
  In (EvWriteToFile f n m data) evs ->
  (exists them_d offer,
      In (Got them_d) inbox /\ offer_of them_d = Some offer
      /\ (advertised offer "file" "filesize" = Some n
          \/ advertised offer "directory" "zipsize" = Some n))
  /\ m = received wd
  /\ data = written wd
  /\ (r = Ret tt -> m = n)
  /\ (m = n ->
      match f with
      | NamedFile _ => r = Ret tt
      | SpooledTemporaryFile =>
          match unzip wd data with
          | Unpacks _ => r = Ret tt
          | NotAnArchive => r = Raise (OtherError "BadZipFile")
          | Breaks _ err => r = Raise (OtherError err)
          end
      end)
  /\ (m < n ->
      r = Raise (TransferError
                   (JStr "Connection dropped before full file received"))
      /\ In (EvMsg (MsgGotWanted m n)) evs
      /\ Forall (fun e => materializes e = false) evs
      /\ Forall (fun e => breaks_off e = false) evs).
Proof.
  intros Hgo Htr Hin.
  destruct (go_session _ _ _ _ _ _ Hgo) as (_ & evs' & Htr' & Hs).
  rewrite (events_unique _ _ _ _ Htr Htr') in *. clear Htr evs.
  inversion Hs as [r0 evs0 s Hq Hres | r1 r0 post evs0 s Hq Hout
                  | evs0 s Hacc Hq | evs0 opening s Hq Hop Hc
                  | them_d offer evs0 s abs tmp n0 Hin0 Hof Hadv Hq Hc
                  | them_d offer evs0 s abs n0 Hin0 Hof Hadv Hq Hc]; subst.
  - destruct r; cbn [closing] in Hin; find_in Hin.
  - inversion Hout; subst; find_in Hin.
  - find_in Hin.
  - destruct Hop as [-> | ->]; open_in Hin; find_in Hin.
  - open_in Hin; bools; find_in Hin.
    all: injection Hin as <- <- <- <-.
    all: (split; [exists them_d, offer; auto|]).
    all: (split; [reflexivity|]).
    all: (split; [reflexivity|]).
    all: (split; [intros; (discriminate || congruence || lia)|]).
    all: (split; [intros; (reflexivity || lia)|]).
    all: intros Hlt; try lia.
    all: (split; [reflexivity|]).
    all: (split; [apply in_or_app; right; simpl; tauto|]).
    all: split.
    all: (apply Forall_app; split;
          [eapply quiet_forall;
           [first [exact quiet_not_materializes | exact quiet_not_breaks_off]
           | eassumption]
          | repeat constructor]).
  - open_in Hin; bools; find_in Hin.
    all: injection Hin as <- <- <- <-.
    all: (split; [exists them_d, offer; auto|]).
    all: (split; [reflexivity|]).
    all: (split; [reflexivity|]).
    all: (split; [intros; (discriminate || congruence || lia)|]).
    all: (split; [intros; (reflexivity || congruence || lia)|]).
    all: intros Hlt; try lia.
    all: (split; [reflexivity|]).
    all: (split; [apply in_or_app; right; simpl; tauto|]).
    all: split.
    all: (apply Forall_app; split;
          [eapply quiet_forall;
           [first [exact quiet_not_materializes | exact quiet_not_breaks_off]
           | eassumption]
          | repeat constructor]).
Qed.

Lemma byte_count_law_witness :
  let inbox := [transit_msg; offer_msg (file_offer "b.txt" 5)] in
  let evs := events_of ex_args ex_world inbox ∅ [] in
  (exists them_d offer,
      In (Got them_d) inbox /\ offer_of them_d = Some offer
      /\ (advertised offer "file" "filesize" = Some 5
          \/ advertised offer "directory" "zipsize" = Some 5))
  /\ 3 = received ex_world
  /\ abc = written ex_world
  /\ (outcome_of ex_args ex_world inbox ∅ [] = Ret tt -> 3 = 5)
  /\ (3 = 5 -> outcome_of ex_args ex_world inbox ∅ [] = Ret tt)
  /\ (3 < 5 ->
      outcome_of ex_args ex_world inbox ∅ []
      = Raise (TransferError
                 (JStr "Connection dropped before full file received"))
      /\ In (EvMsg (MsgGotWanted 3 5)) evs
      /\ Forall (fun e => materializes e = false) evs
      /\ Forall (fun e => breaks_off e = false) evs).
Proof.
  intros inbox evs.
  apply (byte_count_law ex_args ex_world inbox (init_state ∅ [])
           (outcome_of ex_args ex_world inbox ∅ [])
           (receive ex_args ex_world inbox (init_state ∅ [])).2 evs
           (NamedFile "/home/u/b.txt.tmp") 5 3 abc).
  - vm_compute. reflexivity.
  - vm_compute. reflexivity.
  - vm_compute. tauto.
Defined.

End ByteCount.

(** Finds the event [e] of [H : In e evs] that satisfies [Hp : p e = true],
    for a [p] that no quiet event satisfies (lemma [Hquiet]). *)
Ltac pick_in H Hp Hquiet :=
  split_in H;
  try match type of H with
      | In _ ?evs =>
          match goal with
          | Hq : Forall _ evs |- _ =>
              apply (quiet_in _ _ Hq) in H; apply Hquiet in H;
              rewrite H in Hp; discriminate Hp
          end
      end;
  try discriminate H;
  try (subst; discriminate Hp).

Lemma consent_in a e : In e (Notions.consent a) -> e = EvInput "ok? (y/n): ".
Proof.
  unfold Notions.consent. destruct (accept_file a); simpl; [tauto|].
  intros [<-|[]]. reflexivity.
Qed.

Lemma consent_no_record a :
  Forall (fun x => Notions.is_record x = false) (Notions.consent a).
Proof. unfold Notions.consent. destruct (accept_file a); repeat constructor. Qed.

(** As [open_events], but the prompt of the gate stays folded. *)
Ltac open_transfer :=
  unfold Shape.transfer_events, Shape.transfer_result, Shape.file_finish,
    Shape.directory_events, Shape.directory_result, Shape.directory_finish,
    Shape.unpack_result, Shape.file_ack, Shape.closing in *;
  repeat match goal with
         | |- context [Z.ltb ?x ?y] => destruct (Z.ltb x y) eqn:?
         | |- context [Z.eqb ?x ?y] => destruct (Z.eqb x y) eqn:?
         | |- context [unzip ?w ?d] => destruct (unzip w d) eqn:?
         end;
  cbn [negb app] in *.

Ltac pick_consent H Hp :=
  try match type of H with
      | In _ (Notions.consent _) =>
          apply consent_in in H; first [discriminate H | subst; discriminate Hp]
      end.

Section Completion.
Import PyStr PosixPath TwistedReceiver Notions Shape Scenario.

(** C9. When a session performs the destination write ([e], the rename or
    the extraction), its events are: events without any record, among them
    the payload write; [e]; events without any record; then the record
    [ok\n], three bytes long, the close of the pipe and the close of the
    channel.  So one record is sent, after the destination write and after
    the payload, and the pipe is closed right after it.  A session that
    sends a record has performed the destination write. *)
Theorem completion_record a wd inbox st r st' evs :
  go a wd inbox st = (r, st') ->
  trace st' = trace st ++ evs ->
  (forall e, In e evs -> materializes e = true ->
     exists before between,
       evs = before ++ e :: between
                    ++ [EvSendRecord ok_record; EvPipeClose; EvWormholeClose]
       /\ Forall (fun x => is_record x = false) before
       /\ Forall (fun x => is_record x = false) between
       /\ (exists f n m d, In (EvWriteToFile f n m d) before)
       /\ r = Ret tt)
  /\ (forall record, In (EvSendRecord record) evs ->
        record = ok_record
        /\ exists e, In e evs /\ materializes e = true)
  /\ ok_record = [Byte.x6f; Byte.x6b; Byte.x0a]
  /\ length ok_record = 3%nat.
Proof.
  intros Hgo Htr.
  destruct (go_session _ _ _ _ _ _ Hgo) as (_ & evs' & Htr' & Hs).
  rewrite (events_unique _ _ _ _ Htr Htr') in *. clear Htr evs.
  split; [|split; [|split; reflexivity]].
  - intros e Hin Hm.
    inversion Hs as [r0 evs0 s Hq Hres | r1 r0 post evs0 s Hq Hout
                    | evs0 s Hacc Hq | evs0 opening s Hq Hop Hc
                    | them_d offer evs0 s abs tmp n0 Hin0 Hof Hadv Hq Hc
                    | them_d offer evs0 s abs n0 Hin0 Hof Hadv Hq Hc]; subst.
    + destruct r; cbn [closing] in Hin; pick_in Hin Hm quiet_not_materializes.
    + inversion Hout; subst; pick_in Hin Hm quiet_not_materializes.
    + pick_in Hin Hm quiet_not_materializes.
    + destruct Hop as [-> | ->]; open_in Hin;
        pick_in Hin Hm quiet_not_materializes.
    + revert Hin; open_transfer; intros Hin;
        pick_in Hin Hm quiet_not_materializes; pick_consent Hin Hm.
      subst e.
      exists (evs0 ++ consent a
                ++ [EvOpen tmp; EvSend (jobj1 "answer" (jobj1 "file_ack" (JStr "ok")));
                    EvConnect; EvMsg (MsgReceiving (describe wd));
                    EvWriteToFile (NamedFile tmp) n0 (received wd) (written wd);
                    EvFileClose (NamedFile tmp)]),
             [EvMsg (MsgFileWritten (basename abs))].
      split; [rewrite <- !app_assoc; reflexivity|].
      split; [|split; [repeat constructor|split; [|reflexivity]]].
      * apply Forall_app. split;
          [eapply quiet_forall; [exact quiet_not_record | eassumption]|].
        apply Forall_app. split; [apply consent_no_record | repeat constructor].
      * exists (NamedFile tmp), n0, (received wd), (written wd).
        apply in_or_app. right. apply in_or_app. right. simpl. tauto.
    + revert Hin; open_transfer; intros Hin;
        pick_in Hin Hm quiet_not_materializes; pick_consent Hin Hm.
      subst e.
      exists (evs0 ++ consent a
                ++ [EvSpool; EvSend (jobj1 "answer" (jobj1 "file_ack" (JStr "ok")));
                    EvConnect; EvMsg (MsgReceiving (describe wd));
                    EvWriteToFile SpooledTemporaryFile n0 (received wd) (written wd);
                    EvMsg MsgUnpacking]),
             [EvMsg (MsgFilesWritten (basename abs));
              EvFileClose SpooledTemporaryFile].
      split; [rewrite <- !app_assoc; reflexivity|].
      split; [|split; [repeat constructor|split; [|reflexivity]]].
      * apply Forall_app. split;
          [eapply quiet_forall; [exact quiet_not_record | eassumption]|].
        apply Forall_app. split; [apply consent_no_record | repeat constructor].
      * exists SpooledTemporaryFile, n0, (received wd), (written wd).
        apply in_or_app. right. apply in_or_app. right. simpl. tauto.
  - intros record Hin. assert (Hm : is_record (EvSendRecord record) = true) by reflexivity.
    inversion Hs as [r0 evs0 s Hq Hres | r1 r0 post evs0 s Hq Hout
                    | evs0 s Hacc Hq | evs0 opening s Hq Hop Hc
                    | them_d offer evs0 s abs tmp n0 Hin0 Hof Hadv Hq Hc
                    | them_d offer evs0 s abs n0 Hin0 Hof Hadv Hq Hc]; subst.
    + destruct r; cbn [closing] in Hin; pick_in Hin Hm quiet_not_record.
    + inversion Hout; subst; pick_in Hin Hm quiet_not_record.
    + pick_in Hin Hm quiet_not_record.
    + destruct Hop as [-> | ->]; open_in Hin; pick_in Hin Hm quiet_not_record.
    + revert Hin; open_transfer; intros Hin;
        pick_in Hin Hm quiet_not_record; pick_consent Hin Hm.
      injection Hin as <-. split; [reflexivity|].
      exists (EvRename tmp abs). split; [|reflexivity].
      apply in_or_app. right. apply in_or_app. right. simpl. tauto.
    + revert Hin; open_transfer; intros Hin;
        pick_in Hin Hm quiet_not_record; pick_consent Hin Hm.
      injection Hin as <-. split; [reflexivity|].
      match goal with
      | H : unzip _ _ = Unpacks ?ms |- _ => exists (EvExtractAll abs ms)
      end.
      split; [|reflexivity].
      apply in_or_app. right. apply in_or_app. right. simpl. tauto.
Qed.

Lemma completion_record_witness :
  let inbox := [transit_msg; offer_msg (file_offer "b.txt" 3)] in
  let evs := events_of ex_args ex_world inbox ∅ [] in
  (forall e, In e evs -> materializes e = true ->
     exists before between,
       evs = before ++ e :: between
                    ++ [EvSendRecord ok_record; EvPipeClose; EvWormholeClose]
       /\ Forall (fun x => is_record x = false) before
       /\ Forall (fun x => is_record x = false) between
       /\ (exists f n m d, In (EvWriteToFile f n m d) before)
       /\ outcome_of ex_args ex_world inbox ∅ [] = Ret tt)
  /\ (forall record, In (EvSendRecord record) evs ->
        record = ok_record
        /\ exists e, In e evs /\ materializes e = true)
  /\ ok_record = [Byte.x6f; Byte.x6b; Byte.x0a]
  /\ length ok_record = 3%nat.
Proof.
  intros inbox evs.
  apply (completion_record ex_args ex_world inbox (init_state ∅ [])
           (outcome_of ex_args ex_world inbox ∅ [])
           (receive ex_args ex_world inbox (init_state ∅ [])).2 evs).
  - vm_compute. reflexivity.
  - vm_compute. reflexivity.
Defined.

End Completion.

Section Untouched.
Import PyStr PosixPath TwistedReceiver Notions Shape.

Lemma quiet_not_writes p e : quiet e = true -> writes_to p e = false.
Proof. destruct e; simpl; congruence. Qed.

Lemma apply_untouched fs e p :
  writes_to p e = false -> apply_event fs e !! p = fs !! p.
Proof.
  destruct e; simpl; try reflexivity; try discriminate.
  - destruct f; [|reflexivity]. intros H. apply String.eqb_neq in H.
    now rewrite lookup_insert_ne.
  - intros H. apply String.eqb_neq in H. now rewrite lookup_insert_ne.
  - destruct f; [|reflexivity]. intros H. apply String.eqb_neq in H.
    destruct (fs !! name) as [[]|]; try reflexivity.
    now rewrite lookup_insert_ne.
Qed.

Lemma replay_untouched p evs : forall fs,
  Forall (fun e => writes_to p e = false) evs -> replay fs evs !! p = fs !! p.
Proof.
  induction evs as [|e evs IH]; intros fs H; [reflexivity|].
  inversion H; subst. cbn [replay fold_left].
  change (replay (apply_event fs e) evs !! p = fs !! p).
  rewrite IH by assumption. now apply apply_untouched.
Qed.

Lemma replay_consent a fs : replay fs (consent a) = fs.
Proof. unfold consent. now destruct (accept_file a). Qed.

Lemma consent_not_writes a p :
  Forall (fun e => writes_to p e = false) (consent a).
Proof. unfold consent. destruct (accept_file a); repeat constructor. Qed.

Lemma consent_not_materializes a :
  Forall (fun e => materializes e = false) (consent a).
Proof. unfold consent. destruct (accept_file a); repeat constructor. Qed.

Lemma tmp_differs (p : string) : p +:+ ".tmp" <> p.
Proof.
  induction p as [|c p IH]; [discriminate|].
  rewrite append_cons. intros H. injection H as H. now apply IH.
Qed.

Lemma tmp_eqb (p : string) : String.eqb (p +:+ ".tmp") p = false.
Proof. apply String.eqb_neq, tmp_differs. Qed.

Lemma Forall_prefix {A} (P : A -> Prop) (pre post : list A) :
  Forall P (pre ++ post) -> Forall P pre.
Proof. intros H. now apply Forall_app in H as [H _]. Qed.

End Untouched.

Ltac dest_forall Htmp :=
  unfold Shape.file_ack; cbn [Shape.closing app];
  repeat match goal with
         | |- Forall _ (_ :: _) =>
             constructor;
             [first [right; right; reflexivity | right; right; exact Htmp
                    | left; reflexivity | right; left; reflexivity]|]
         | |- Forall _ [] => constructor
         end.

Section Materialization.
Import PyStr PosixPath TwistedReceiver Notions Shape Scenario.

(** Before the destination write and before an extraction breaks off, the
    events of a session leave the destination alone. *)
Lemma session_run_destination a wd inbox st r st' evs :
  session_run a wd inbox st r st' evs ->
  Forall (fun e => materializes e = true \/ breaks_off e = true
                   \/ writes_to (abs_destname st') e = false) evs.
Proof.
  intros Hs.
  assert (Hquiet : forall l, Forall (fun e => quiet e = true) l ->
            Forall (fun e => materializes e = true \/ breaks_off e = true
                             \/ writes_to (abs_destname st') e = false) l).
  { intros l. apply quiet_forall. intros e He. right. right.
    now apply quiet_not_writes. }
  assert (Hcons : Forall (fun e => materializes e = true \/ breaks_off e = true
                     \/ writes_to (abs_destname st') e = false) (consent a)).
  { eapply Forall_impl; [apply (consent_not_writes a (abs_destname st'))|].
    intros e He. now right; right. }
  pose proof (tmp_eqb (abs_destname st')) as Htmp.
  assert (Hquiet' := Hquiet).
  inversion Hs as [r0 evs0 s Hq Hres | r1 r0 post evs0 s Hq Hout
                  | evs0 s Hacc Hq | evs0 opening s Hq Hop Hc
                  | them_d offer evs0 s abs tmp n0 Hin0 Hof Hadv Hq Hc
                  | them_d offer evs0 s abs n0 Hin0 Hof Hadv Hq Hc]; subst;
    (apply Forall_app; split; [auto|]).
  - destruct r; dest_forall Htmp.
  - inversion Hout; subst; dest_forall Htmp.
  - dest_forall Htmp.
  - apply Forall_app. split; [auto|].
    destruct Hop as [-> | ->]; dest_forall Htmp.
  - apply Forall_app. split; [auto|].
    subst abs tmp n0. open_transfer; dest_forall Htmp.
  - apply Forall_app. split; [auto|].
    subst abs n0. open_transfer; dest_forall Htmp.
Qed.

(** A session that does not succeed performs no destination write, and
    writes nowhere but into the temporary file, unless an extraction broke
    off. *)
Lemma session_run_failure a wd inbox st r st' evs :
  session_run a wd inbox st r st' evs -> r <> Ret tt ->
  Forall (fun e => materializes e = false) evs
  /\ forall p, p <> abs_destname st' +:+ ".tmp" ->
              Forall (fun e => breaks_off e = true \/ writes_to p e = false) evs.
Proof.
  intros Hs Hr.
  assert (Hgoal : forall p, p <> abs_destname st' +:+ ".tmp" ->
            Forall (fun e => materializes e = false
                             /\ (breaks_off e = true \/ writes_to p e = false))
                   evs).
  { intros p Hp.
    assert (Hneq : String.eqb (abs_destname st' +:+ ".tmp") p = false).
    { apply String.eqb_neq. congruence. }
    assert (Hquiet : forall l, Forall (fun e => quiet e = true) l ->
              Forall (fun e => materializes e = false
                               /\ (breaks_off e = true \/ writes_to p e = false))
                     l).
    { intros l. apply quiet_forall. intros e He.
      split; [now apply quiet_not_materializes
             | right; now apply quiet_not_writes]. }
    assert (Hcons : Forall (fun e => materializes e = false
                              /\ (breaks_off e = true \/ writes_to p e = false))
                      (consent a)).
    { unfold consent. destruct (accept_file a); constructor; [|constructor].
      split; [reflexivity | now right]. }
    inversion Hs as [r0 evs0 s Hq Hres | r1 r0 post evs0 s Hq Hout
                    | evs0 s Hacc Hq | evs0 opening s Hq Hop Hc
                    | them_d offer evs0 s abs tmp n0 Hin0 Hof Hadv Hq Hc
                    | them_d offer evs0 s abs n0 Hin0 Hof Hadv Hq Hc]; subst;
      (apply Forall_app; split; [auto|]).
    all: try (apply Forall_app; split; [auto|]).
    all: try subst abs; try subst tmp; try subst n0.
    all: revert Hr; try (destruct Hop as [-> | ->]); try (inversion Hout; subst);
      try (destruct r); open_transfer; intros Hr; try congruence.
    all: repeat (constructor;
                 [split; [reflexivity
                         | first [right; reflexivity | right; exact Hneq
                                 | left; reflexivity]]|]);
      constructor. }
  split.
  - eapply Forall_impl; [apply (Hgoal "")|]; [|now intros e [H _]].
    intros H. symmetry in H. destruct (abs_destname st'); discriminate H.
  - intros p Hp. eapply Forall_impl; [apply (Hgoal p Hp)|]. now intros e [_ H].
Qed.

Lemma not_broken_untouched p evs :
  Forall (fun e => breaks_off e = true \/ writes_to p e = false) evs ->
  Forall (fun e => breaks_off e = false) evs ->
  Forall (fun e => writes_to p e = false) evs.
Proof.
  induction 1 as [|e evs [Hb|Hw] _ IH]; intros Hn; inversion Hn; subst;
    constructor; first [congruence | assumption | now apply IH].
Qed.

(** C2, the reading that fails: a directory is offered, the pipe delivers
    all its bytes, and the unpacking stops after the member [a].  The
    session fails, and the member [a], absent before, is now under the
    destination: an extraction did begin, and it left a part of the tree
    behind. *)
Lemma no_partial_destination_counterexample :
  outcome_of ex_args broken_archive_world
    [transit_msg; offer_msg (directory_offer "zipfile/deflated" "d" 3)] ∅ []
  = Raise (OtherError "BadZipFile")
  /\ In (EvExtractFailed "/home/u/d" [("a", abc)])
        (events_of ex_args broken_archive_world
           [transit_msg; offer_msg (directory_offer "zipfile/deflated" "d" 3)]
           ∅ [])
  /\ cur_fs (init_state ∅ []) !! "/home/u/d/a" = None
  /\ cur_fs (receive ex_args broken_archive_world
               [transit_msg; offer_msg (directory_offer "zipfile/deflated" "d" 3)]
               (init_state ∅ [])).2 !! "/home/u/d/a"
     = Some (File abc).
Proof.
  split; [vm_compute; reflexivity|].
  split; [vm_compute; tauto|].
  split; [reflexivity|].
  vm_compute. reflexivity.
Qed.

(** C2. With [dest] the final destination of the session:
    - what the record pipe writes into a named file goes to the temporary
      sibling [dest.tmp];
    - a rename happens only in a session that succeeds, from [dest.tmp] to
      [dest], which was absent when the session began, after the pipe
      reported the full size; [dest] then holds all the pipe wrote and
      [dest.tmp] is gone;
    - a session that opened a named file and succeeds has closed [dest.tmp]
      and renamed it to [dest], in this order;
    - an extraction that goes through happens only in a session that
      succeeds, into [dest], which was absent when the session began, and
      unpacks what the pipe wrote; a session that spooled a directory and
      succeeds has performed it;
    - in a session that does not succeed there is no rename and no
      extraction that goes through; if no extraction broke off either,
      every path but [dest.tmp], so [dest] itself, is as it was;
    - an extraction that breaks off does so in a session that fails, after
      the pipe reported the full size, and the members unpacked before the
      failure stay under [dest];
    - at every moment of a session before the destination write and before
      an extraction breaks off, [dest] is as it was when the session began:
      no partial file is visible there. *)
Theorem no_partial_destination a wd inbox st r st' evs :
  go a wd inbox st = (r, st') ->
  trace st' = trace st ++ evs ->
  let dest := abs_destname st' in
  (forall name n m d, In (EvWriteToFile (NamedFile name) n m d) evs ->
     name = dest +:+ ".tmp")
  /\ (forall src dst, In (EvRename src dst) evs ->
        r = Ret tt /\ src = dest +:+ ".tmp" /\ dst = dest
        /\ received wd = xfersize st'
        /\ cur_fs st !! dest = None
        /\ cur_fs st' !! dest = Some (File (written wd))
        /\ cur_fs st' !! (dest +:+ ".tmp") = None)
  /\ (forall name, In (EvOpen name) evs -> r = Ret tt ->
        name = dest +:+ ".tmp"
        /\ exists pre post,
             evs = pre ++ [EvFileClose (NamedFile name); EvRename name dest]
                       ++ post)
  /\ (forall path ms, In (EvExtractAll path ms) evs ->
        r = Ret tt /\ path = dest
        /\ unzip wd (written wd) = Unpacks ms
        /\ received wd = xfersize st'
        /\ cur_fs st !! dest = None
        /\ cur_fs st' = ZipFile.extractall dest ms (cur_fs st))
  /\ (In EvSpool evs -> r = Ret tt ->
        exists ms, unzip wd (written wd) = Unpacks ms
                   /\ In (EvExtractAll dest ms) evs)
  /\ (r <> Ret tt ->
        Forall (fun e => materializes e = false) evs
        /\ (Forall (fun e => breaks_off e = false) evs ->
            (forall p, p <> dest +:+ ".tmp" ->
               cur_fs st' !! p = cur_fs st !! p)
            /\ cur_fs st' !! dest = cur_fs st !! dest))
  /\ (forall path done, In (EvExtractFailed path done) evs ->
        (exists err, r = Raise (OtherError err)
                     /\ unzip wd (written wd) = Breaks done err)
        /\ path = dest
        /\ received wd = xfersize st'
        /\ cur_fs st' = ZipFile.extractall dest done (cur_fs st))
  /\ (forall pre post, evs = pre ++ post ->
        Forall (fun e => materializes e = false) pre ->
        Forall (fun e => breaks_off e = false) pre ->
        replay (cur_fs st) pre !! dest = cur_fs st !! dest).
Proof.
  intros Hgo Htr dest.
  destruct (go_session _ _ _ _ _ _ Hgo) as (Hfs & evs' & Htr' & Hs).
  rewrite (events_unique _ _ _ _ Htr Htr') in *. clear Htr evs.
  pose proof (cur_fs_app _ _ _ Htr' Hfs) as Hcur.
  split; [|split; [|split; [|split; [|split; [|split; [|split]]]]]].
  - intros name n m d Hin.
    assert (Hm : commits (EvWriteToFile (NamedFile name) n m d) = true) by reflexivity.
    inversion Hs as [r0 evs0 s Hq Hres | r1 r0 post evs0 s Hq Hout
                    | evs0 s Hacc Hq | evs0 opening s Hq Hop Hc
                    | them_d offer evs0 s abs tmp n0 Hin0 Hof Hadv Hq Hc
                    | them_d offer evs0 s abs n0 Hin0 Hof Hadv Hq Hc]; subst.
    + destruct r; cbn [closing] in Hin; pick_in Hin Hm quiet_not_commits.
    + inversion Hout; subst; pick_in Hin Hm quiet_not_commits.
    + pick_in Hin Hm quiet_not_commits.
    + destruct Hop as [-> | ->]; open_in Hin; pick_in Hin Hm quiet_not_commits.
    + revert Hin; open_transfer; intros Hin;
        pick_in Hin Hm quiet_not_commits; pick_consent Hin Hm.
      all: now injection Hin as <- _ _ _.
    + revert Hin; open_transfer; intros Hin;
        pick_in Hin Hm quiet_not_commits; pick_consent Hin Hm.
  - intros src dst Hin.
    assert (Hm : materializes (EvRename src dst) = true) by reflexivity.
    inversion Hs as [r0 evs0 s Hq Hres | r1 r0 post evs0 s Hq Hout
                    | evs0 s Hacc Hq | evs0 opening s Hq Hop Hc
                    | them_d offer evs0 s abs tmp n0 Hin0 Hof Hadv Hq Hc
                    | them_d offer evs0 s abs n0 Hin0 Hof Hadv Hq Hc]; subst.
    + destruct r; cbn [closing] in Hin; pick_in Hin Hm quiet_not_materializes.
    + inversion Hout; subst; pick_in Hin Hm quiet_not_materializes.
    + pick_in Hin Hm quiet_not_materializes.
    + destruct Hop as [-> | ->]; open_in Hin;
        pick_in Hin Hm quiet_not_materializes.
    + revert Hin Hcur; open_transfer; intros Hin Hcur; bools;
        pick_in Hin Hm quiet_not_materializes; pick_consent Hin Hm.
      injection Hin as <- <-.
      repeat (split; [first [reflexivity | assumption]|]).
      rewrite Hcur, !replay_app, (replay_quiet _ _ Hq), replay_consent.
      cbn [replay fold_left apply_event].
      rewrite !lookup_insert_eq.
      split; [reflexivity|].
      rewrite lookup_insert_ne
        by (intros E; symmetry in E; now apply tmp_differs in E).
      apply lookup_delete_eq.
    + revert Hin; open_transfer; intros Hin;
        pick_in Hin Hm quiet_not_materializes; pick_consent Hin Hm.
  - intros name Hin.
    assert (Hm : commits (EvOpen name) = true) by reflexivity.
    inversion Hs as [r0 evs0 s Hq Hres | r1 r0 post evs0 s Hq Hout
                    | evs0 s Hacc Hq | evs0 opening s Hq Hop Hc
                    | them_d offer evs0 s abs tmp n0 Hin0 Hof Hadv Hq Hc
                    | them_d offer evs0 s abs n0 Hin0 Hof Hadv Hq Hc]; subst.
    + destruct r; cbn [closing] in Hin; pick_in Hin Hm quiet_not_commits.
    + inversion Hout; subst; pick_in Hin Hm quiet_not_commits.
    + pick_in Hin Hm quiet_not_commits.
    + intros Hr. discriminate Hr.
    + revert Hin; open_transfer; intros Hin Hr; try discriminate Hr;
        pick_in Hin Hm quiet_not_commits; pick_consent Hin Hm.
      injection Hin as <-. split; [reflexivity|].
      exists (evs0 ++ consent a
                ++ [EvOpen tmp; EvSend (jobj1 "answer" (jobj1 "file_ack" (JStr "ok")));
                    EvConnect; EvMsg (MsgReceiving (describe wd));
                    EvWriteToFile (NamedFile tmp) n0 (received wd) (written wd)]),
             [EvMsg (MsgFileWritten (basename abs)); EvSendRecord ok_record;
              EvPipeClose; EvWormholeClose].
      rewrite <- !app_assoc. reflexivity.
    + revert Hin; open_transfer; intros Hin Hr; try discriminate Hr;
        pick_in Hin Hm quiet_not_commits; pick_consent Hin Hm.
  - intros path ms Hin.
    assert (Hm : materializes (EvExtractAll path ms) = true) by reflexivity.
    inversion Hs as [r0 evs0 s Hq Hres | r1 r0 post evs0 s Hq Hout
                    | evs0 s Hacc Hq | evs0 opening s Hq Hop Hc
                    | them_d offer evs0 s abs tmp n0 Hin0 Hof Hadv Hq Hc
                    | them_d offer evs0 s abs n0 Hin0 Hof Hadv Hq Hc]; subst.
    + destruct r; cbn [closing] in Hin; pick_in Hin Hm quiet_not_materializes.
    + inversion Hout; subst; pick_in Hin Hm quiet_not_materializes.
    + pick_in Hin Hm quiet_not_materializes.
    + destruct Hop as [-> | ->]; open_in Hin;
        pick_in Hin Hm quiet_not_materializes.
    + revert Hin; open_transfer; intros Hin;
        pick_in Hin Hm quiet_not_materializes; pick_consent Hin Hm.
    + revert Hin Hcur; open_transfer; intros Hin Hcur; bools;
        pick_in Hin Hm quiet_not_materializes; pick_consent Hin Hm.
      injection Hin as <- <-.
      repeat (split; [first [reflexivity | assumption]|]).
      rewrite Hcur, !replay_app, (replay_quiet _ _ Hq), replay_consent.
      reflexivity.
  - intros Hin.
    assert (Hm : commits EvSpool = true) by reflexivity.
    inversion Hs as [r0 evs0 s Hq Hres | r1 r0 post evs0 s Hq Hout
                    | evs0 s Hacc Hq | evs0 opening s Hq Hop Hc
                    | them_d offer evs0 s abs tmp n0 Hin0 Hof Hadv Hq Hc
                    | them_d offer evs0 s abs n0 Hin0 Hof Hadv Hq Hc]; subst.
    + destruct r; cbn [closing] in Hin; pick_in Hin Hm quiet_not_commits.
    + inversion Hout; subst; pick_in Hin Hm quiet_not_commits.
    + pick_in Hin Hm quiet_not_commits.
    + intros Hr. discriminate Hr.
    + revert Hin; open_transfer; intros Hin Hr; try discriminate Hr;
        pick_in Hin Hm quiet_not_commits; pick_consent Hin Hm.
    + clear Hin. open_transfer; intros Hr; try discriminate Hr.
      eexists. split; [reflexivity|].
      apply in_or_app. right. apply in_or_app. right. simpl. tauto.
  - intros Hr.
    destruct (session_run_failure _ _ _ _ _ _ _ Hs Hr) as [Hmat Hw].
    split; [exact Hmat|]. intros Hb.
    assert (Hp : forall p, p <> dest +:+ ".tmp" -> cur_fs st' !! p = cur_fs st !! p).
    { intros p Hp. rewrite Hcur. apply replay_untouched.
      apply not_broken_untouched; [now apply Hw | exact Hb]. }
    split; [exact Hp|]. apply Hp. intros H. symmetry in H. now apply tmp_differs in H.
  - intros path done Hin.
    assert (Hm : breaks_off (EvExtractFailed path done) = true) by reflexivity.
    inversion Hs as [r0 evs0 s Hq Hres | r1 r0 post evs0 s Hq Hout
                    | evs0 s Hacc Hq | evs0 opening s Hq Hop Hc
                    | them_d offer evs0 s abs tmp n0 Hin0 Hof Hadv Hq Hc
                    | them_d offer evs0 s abs n0 Hin0 Hof Hadv Hq Hc]; subst.
    + destruct r; cbn [closing] in Hin; pick_in Hin Hm quiet_not_breaks_off.
    + inversion Hout; subst; pick_in Hin Hm quiet_not_breaks_off.
    + pick_in Hin Hm quiet_not_breaks_off.
    + destruct Hop as [-> | ->]; open_in Hin;
        pick_in Hin Hm quiet_not_breaks_off.
    + revert Hin; open_transfer; intros Hin;
        pick_in Hin Hm quiet_not_breaks_off; pick_consent Hin Hm.
    + revert Hin Hcur; open_transfer; intros Hin Hcur; bools;
        pick_in Hin Hm quiet_not_breaks_off; pick_consent Hin Hm.
      injection Hin as <- <-.
      split; [eexists; split; reflexivity|].
      repeat (split; [first [reflexivity | assumption]|]).
      rewrite Hcur, !replay_app, (replay_quiet _ _ Hq), replay_consent.
      reflexivity.
  - intros pre post -> Hpre Hbr.
    apply replay_untouched.
    pose proof (session_run_destination _ _ _ _ _ _ _ Hs) as Hd.
    apply Forall_prefix in Hd.
    clear - Hd Hpre Hbr. induction Hpre as [|e pre He _ IH]; [constructor|].
    inversion Hbr; subst.
    inversion Hd as [|? ? [Hm|[Hb|Hw]] Hd']; subst; constructor;
      first [congruence | assumption | now apply IH].
Qed.

Lemma no_partial_destination_witness :
  let inbox := [transit_msg; offer_msg (file_offer "b.txt" 3)] in
  let st := init_state ∅ [] in
  let st' := (receive ex_args ex_world inbox st).2 in
  let evs := events_of ex_args ex_world inbox ∅ [] in
  let dest := "/home/u/b.txt" in
  (forall name n m d, In (EvWriteToFile (NamedFile name) n m d) evs ->
     name = dest +:+ ".tmp")
  /\ (forall src dst, In (EvRename src dst) evs ->
        outcome_of ex_args ex_world inbox ∅ [] = Ret tt
        /\ src = dest +:+ ".tmp" /\ dst = dest
        /\ received ex_world = xfersize st'
        /\ cur_fs st !! dest = None
        /\ cur_fs st' !! dest = Some (File (written ex_world))
        /\ cur_fs st' !! (dest +:+ ".tmp") = None)
  /\ (forall name, In (EvOpen name) evs ->
        outcome_of ex_args ex_world inbox ∅ [] = Ret tt ->
        name = dest +:+ ".tmp"
        /\ exists pre post,
             evs = pre ++ [EvFileClose (NamedFile name); EvRename name dest]
                       ++ post)
  /\ (forall path ms, In (EvExtractAll path ms) evs ->
        outcome_of ex_args ex_world inbox ∅ [] = Ret tt /\ path = dest
        /\ unzip ex_world (written ex_world) = Unpacks ms
        /\ received ex_world = xfersize st'
        /\ cur_fs st !! dest = None
        /\ cur_fs st' = ZipFile.extractall dest ms (cur_fs st))
  /\ (In EvSpool evs -> outcome_of ex_args ex_world inbox ∅ [] = Ret tt ->
        exists ms, unzip ex_world (written ex_world) = Unpacks ms
                   /\ In (EvExtractAll dest ms) evs)
  /\ (outcome_of ex_args ex_world inbox ∅ [] <> Ret tt ->
        Forall (fun e => materializes e = false) evs
        /\ (Forall (fun e => breaks_off e = false) evs ->
            (forall p, p <> dest +:+ ".tmp" ->
               cur_fs st' !! p = cur_fs st !! p)
            /\ cur_fs st' !! dest = cur_fs st !! dest))
  /\ (forall path done, In (EvExtractFailed path done) evs ->
        (exists err, outcome_of ex_args ex_world inbox ∅ []
                     = Raise (OtherError err)
                     /\ unzip ex_world (written ex_world) = Breaks done err)
        /\ path = dest
        /\ received ex_world = xfersize st'
        /\ cur_fs st' = ZipFile.extractall dest done (cur_fs st))
  /\ (forall pre post, evs = pre ++ post ->
        Forall (fun e => materializes e = false) pre ->
        Forall (fun e => breaks_off e = false) pre ->
        replay (cur_fs st) pre !! dest = cur_fs st !! dest).
Proof.
  intros inbox st st' evs dest.
  apply (no_partial_destination ex_args ex_world inbox st
           (outcome_of ex_args ex_world inbox ∅ []) st' evs).
  - vm_compute. reflexivity.
  - vm_compute. reflexivity.
Defined.

End Materialization.

Section Permission.
Import PyStr PosixPath TwistedReceiver Notions Shape Scenario.

Lemma quiet_not_loud e : quiet e = true -> negb (quiet e) = false.
Proof. now intros ->. Qed.

(** C8, the reading that fails: without auto-accept and with the lines
    [maybe] and [y] on standard input, the gate prompts once, takes [maybe]
    for a no and raises "transfer rejected", leaving [y] unread.  A gate
    that prompted until a yes or a no is given would have prompted a second
    time and granted. *)
Lemma permission_gate_counterexample :
  let a := {| tor := false; relay_url := "ws://relay.example:4000/v1";
              code := Some "4-purple-sausages"; zeromode := false;
              code_length := 2; verify := false;
              transit_helper := "tcp:transit.example:4001";
              no_listen := false; output_file := None; cwd := "/home/u";
              accept_file := false |} in
  let s := init_state ∅ ["maybe"; "y"] in
  (ask_permission a s).1 = Raise (RespondError "transfer rejected")
  /\ trace (ask_permission a s).2
     = [EvInput "ok? (y/n): "; EvStderr "transfer rejected"]
  /\ stdin (ask_permission a s).2 = ["y"]
  /\ (Specified.ask_permission_as_specified a s).1 = Ret tt
  /\ trace (Specified.ask_permission_as_specified a s).2
     = [EvInput "ok? (y/n): "; EvInput "ok? (y/n): "]
  /\ stdin (Specified.ask_permission_as_specified a s).2 = []
  /\ ask_permission a s <> Specified.ask_permission_as_specified a s.
Proof.
  cbv zeta. repeat split; try (vm_compute; reflexivity).
  vm_compute. discriminate.
Qed.

(** C8. With auto-accept the gate grants at once, without a prompt.
    Without it the gate prompts and reads one line: a line that begins
    with [y] or [Y] grants, any other line is a no and raises the
    responder-error "transfer rejected"; so the prompt is answered yes or
    no by the first line and the loop ends there.  In a session where the
    answer was no, the outcome is the failure "transfer rejected", the peer
    is sent that error, and nothing was connected, opened or written: the
    file system is as it was. *)
Theorem permission_gate a :
  (accept_file a = true -> forall s, ask_permission a s = (Ret tt, s))
  /\ (accept_file a = false -> forall s ok rest,
        stdin s = ok :: rest ->
        let asked :=
          {| fs0 := fs0 s; trace := trace s ++ [EvInput "ok? (y/n): "];
             stdin := rest; _transit_receiver := _transit_receiver s;
             abs_destname := abs_destname s; xfersize := xfersize s |} in
        ask_permission a s =
          if startswith "y" (lower ok) then (Ret tt, asked)
          else (Raise (RespondError "transfer rejected"),
                logged [EvStderr "transfer rejected"] asked))
  /\ (forall wd inbox st r st' evs,
        go a wd inbox st = (r, st') ->
        trace st' = trace st ++ evs ->
        In (EvStderr "transfer rejected") evs ->
        r = Raise (TransferError (JStr "transfer rejected"))
        /\ In (EvSend (jobj1 "error" (JStr "transfer rejected"))) evs
        /\ Forall (fun e => commits e = false) evs
        /\ cur_fs st' = cur_fs st).
Proof.
  split; [|split].
  - intros Ha s. now apply ask_permission_auto.
  - intros Ha s ok rest Hs. now apply ask_permission_answer.
  - intros wd inbox st r st' evs Hgo Htr Hin.
    destruct (go_session _ _ _ _ _ _ Hgo) as (Hfs & evs' & Htr' & Hs).
    rewrite (events_unique _ _ _ _ Htr Htr') in *. clear Htr evs.
    pose proof (cur_fs_app _ _ _ Htr' Hfs) as Hcur.
    assert (Hm : negb (quiet (EvStderr "transfer rejected")) = true) by reflexivity.
    inversion Hs as [r0 evs0 s Hq Hres | r1 r0 post evs0 s Hq Hout
                    | evs0 s Hacc Hq | evs0 opening s Hq Hop Hc
                    | them_d offer evs0 s abs tmp n0 Hin0 Hof Hadv Hq Hc
                    | them_d offer evs0 s abs n0 Hin0 Hof Hadv Hq Hc]; subst.
    + destruct r; cbn [closing] in Hin; pick_in Hin Hm quiet_not_loud.
    + inversion Hout; subst; pick_in Hin Hm quiet_not_loud.
    + split; [reflexivity|]. split; [apply in_or_app; right; simpl; tauto|].
      split.
      * apply Forall_app. split; [|repeat constructor].
        eapply quiet_forall; [exact quiet_not_commits | eassumption].
      * rewrite Hcur, replay_app, (replay_quiet _ _ Hq). reflexivity.
    + destruct Hop as [-> | ->]; open_in Hin; pick_in Hin Hm quiet_not_loud.
    + revert Hin; open_transfer; intros Hin;
        pick_in Hin Hm quiet_not_loud; pick_consent Hin Hm.
    + revert Hin; open_transfer; intros Hin;
        pick_in Hin Hm quiet_not_loud; pick_consent Hin Hm.
Qed.

Lemma permission_gate_witness :
  let a := {| tor := false; relay_url := "ws://relay.example:4000/v1";
              code := Some "4-purple-sausages"; zeromode := false;
              code_length := 2; verify := false;
              transit_helper := "tcp:transit.example:4001";
              no_listen := false; output_file := None; cwd := "/home/u";
              accept_file := false |} in
  let inbox := [transit_msg; offer_msg (file_offer "b.txt" 3)] in
  outcome_of a ex_world inbox ∅ ["maybe"; "y"]
  = Raise (TransferError (JStr "transfer rejected"))
  /\ In (EvSend (jobj1 "error" (JStr "transfer rejected")))
        (events_of a ex_world inbox ∅ ["maybe"; "y"])
  /\ Forall (fun e => commits e = false)
        (events_of a ex_world inbox ∅ ["maybe"; "y"])
  /\ cur_fs (receive a ex_world inbox (init_state ∅ ["maybe"; "y"])).2
     = cur_fs (init_state ∅ ["maybe"; "y"]).
Proof.
  intros a inbox.
  apply (proj2 (proj2 (permission_gate a)) ex_world inbox
           (init_state ∅ ["maybe"; "y"])
           (outcome_of a ex_world inbox ∅ ["maybe"; "y"])
           (receive a ex_world inbox (init_state ∅ ["maybe"; "y"])).2
           (events_of a ex_world inbox ∅ ["maybe"; "y"])).
  - vm_compute. reflexivity.
  - vm_compute. reflexivity.
  - vm_compute. tauto.
Defined.

End Permission.

Section RespondErrors.
Import PyStr PosixPath TwistedReceiver Notions Shape Scenario.

Lemma session_run_no_marker a wd inbox st r st' evs :
  session_run a wd inbox st r st' evs ->
  forall response, r <> Raise (RespondError response).
Proof.
  intros Hs response.
  inversion Hs as [r0 evs0 s Hq Hres | r1 r0 post evs0 s Hq Hout
                  | evs0 s Hacc Hq | evs0 opening s Hq Hop Hc
                  | them_d offer evs0 s abs tmp n0 Hin0 Hof Hadv Hq Hc
                  | them_d offer evs0 s abs n0 Hin0 Hof Hadv Hq Hc]; subst;
    try discriminate.
  - destruct Hres as [-> | (e & -> & Hne)]; [discriminate|].
    intros H. injection H as ->. now apply (Hne response).
  - inversion Hout as [|? |e Hne]; subst; try discriminate.
    intros H. injection H as ->. now apply (Hne response).
  - destruct (transfer_result_cases wd n0) as [[_ ->] | [[_ ->] | [_ ->]]];
      discriminate.
  - destruct (directory_result_cases wd n0) as [[_ ->] | [[_ ->] | [_ ->]]];
      try discriminate.
    destruct (unpack_result_cases wd) as [-> | (err & ->)]; discriminate.
Qed.

Lemma quiet_not_error e : quiet e = true -> negb (quiet e) = false.
Proof. now intros ->. Qed.

(** C3. A [RespondError] raised while an offer is handled is caught in the
    round of the loop that dispatched the offer: the round first sends
    [{"error": reason}] to the peer and then fails with
    [TransferError(reason)].  Seen from outside, a session never ends with
    a [RespondError], and an error message to the peer is the last thing
    sent before the close, in a session that fails with that reason.  The
    four tagged failures raise the marker with their reason: a refused
    consent, an unknown directory mode, an unknown offer type and a
    destination that exists. *)
Theorem respond_error_reported a wd :
  (* the [except RespondError] clause *)
  (forall done kvs offer inbox st response s2,
      has_key "error" kvs = false -> has_key "transit" kvs = false ->
      assoc "offer" kvs = Some offer ->
      parse_offer a wd offer st = (Raise (RespondError response), s2) ->
      _go_loop a wd true done (Got (JObj kvs) :: inbox) st
      = (Raise (TransferError (JStr response)),
         logged [EvSend (jobj1 "error" (JStr response))] s2))
  (* the session *)
  /\ (forall inbox st r st' evs,
        go a wd inbox st = (r, st') ->
        trace st' = trace st ++ evs ->
        (forall response, r <> Raise (RespondError response))
        /\ (forall v, In (EvSend (jobj1 "error" v)) evs ->
              exists response body,
                v = JStr response
                /\ r = Raise (TransferError (JStr response))
                /\ evs = body ++ [EvSend (jobj1 "error" v); EvWormholeClose]))
  (* the four sources *)
  /\ (forall st ok rest,
        accept_file a = false -> stdin st = ok :: rest ->
        startswith "y" (lower ok) = false ->
        (ask_permission a st).1 = Raise (RespondError "transfer rejected"))
  /\ (forall st kvs fkvs zipmode,
        assoc "directory" kvs = Some (JObj fkvs) ->
        assoc "mode" fkvs = Some zipmode ->
        json_ne_str zipmode "zipfile/deflated" = true ->
        (handle_directory a (JObj kvs) st).1 = Raise (RespondError "unknown mode"))
  /\ (forall st kvs,
        has_key "message" kvs = false -> has_key "file" kvs = false ->
        has_key "directory" kvs = false ->
        (parse_offer a wd (JObj kvs) st).1
        = Raise (RespondError "unknown offer type"))
  /\ (forall st mode destname,
        exists_path st (join (cwd a) (effective_name a destname)) = true ->
        (decide_destname a mode destname st).1
        = Raise (RespondError (mode +:+ " already exists"))).
Proof.
  split; [|split; [|split; [|split; [|split]]]].
  - intros done kvs offer inbox st response s2 He Ht Ho Hp.
    rewrite _go_loop_cons.
    unfold _get_data, py_in, getitem, try_except, bind, ret, raise, _send_data,
      emit, logged.
    rewrite He, Ht. cbn [negb]. 
    assert (Hk : has_key "offer" kvs = true).
    { unfold has_key. rewrite Ho. apply bool_decide_eq_true. eauto. }
    rewrite Hk, Ho, Hp. reflexivity.
  - intros inbox st r st' evs Hgo Htr.
    destruct (go_session _ _ _ _ _ _ Hgo) as (Hfs & evs' & Htr' & Hs).
    rewrite (events_unique _ _ _ _ Htr Htr') in *. clear Htr evs.
    split; [now apply (session_run_no_marker _ _ _ _ _ _ _ Hs)|].
    intros v Hin.
    assert (Hm : negb (quiet (EvSend (jobj1 "error" v))) = true) by reflexivity.
    inversion Hs as [r0 evs0 s Hq Hres | r1 r0 post evs0 s Hq Hout
                    | evs0 s Hacc Hq | evs0 opening s Hq Hop Hc
                    | them_d offer evs0 s abs tmp n0 Hin0 Hof Hadv Hq Hc
                    | them_d offer evs0 s abs n0 Hin0 Hof Hadv Hq Hc]; subst.
    + destruct r; cbn [closing] in Hin; pick_in Hin Hm quiet_not_error.
    + inversion Hout; subst; pick_in Hin Hm quiet_not_error.
      injection Hin as <-. exists response, evs0. auto.
    + pick_in Hin Hm quiet_not_error. injection Hin as <-.
      exists "transfer rejected",
        (evs0 ++ [EvInput "ok? (y/n): "; EvStderr "transfer rejected"]).
      split; [reflexivity|]. split; [reflexivity|]. now rewrite <- app_assoc.
    + destruct Hop as [-> | ->]; open_in Hin; pick_in Hin Hm quiet_not_error.
    + revert Hin; open_transfer; intros Hin;
        pick_in Hin Hm quiet_not_error; pick_consent Hin Hm.
    + revert Hin; open_transfer; intros Hin;
        pick_in Hin Hm quiet_not_error; pick_consent Hin Hm.
  - intros st ok rest Ha Hs Hy.
    rewrite (ask_permission_answer _ _ _ _ Ha Hs). cbv zeta. now rewrite Hy.
  - intros st kvs fkvs zipmode Hd Hm Hne.
    unfold handle_directory, getitem, bind, ret, raise, msg, emit.
    now rewrite Hd, Hm, Hne.
  - intros st kvs Hm Hf Hd.
    unfold parse_offer, py_in, bind, ret, raise, msg, emit.
    now rewrite Hm, Hf, Hd.
  - intros st mode destname He. rewrite decide_destname_eq. now rewrite He.
Qed.

Lemma respond_error_reported_witness :
  let inbox := [offer_msg (directory_offer "tar" "d" 3)] in
  let evs := events_of ex_args ex_world inbox ∅ [] in
  (forall response,
      outcome_of ex_args ex_world inbox ∅ [] <> Raise (RespondError response))
  /\ (forall v, In (EvSend (jobj1 "error" v)) evs ->
        exists response body,
          v = JStr response
          /\ outcome_of ex_args ex_world inbox ∅ []
             = Raise (TransferError (JStr response))
          /\ evs = body ++ [EvSend (jobj1 "error" v); EvWormholeClose]).
Proof.
  intros inbox evs.
  apply (proj1 (proj2 (respond_error_reported ex_args ex_world)) inbox
           (init_state ∅ []) (outcome_of ex_args ex_world inbox ∅ [])
           (receive ex_args ex_world inbox (init_state ∅ [])).2 evs).
  - vm_compute. reflexivity.
  - vm_compute. reflexivity.
Defined.

End RespondErrors.

Section ChannelClosed.
Import PyStr PosixPath TwistedReceiver Notions Shape Scenario.

(** C4. When [w.get()] raises [WormholeClosedError] in a round of the
    negotiation loop, the session ends in success if the flag [done] (a
    transfer has completed) is set, and fails with "unexpected close"
    otherwise.  [_go] enters the loop with the flag unset. *)
Theorem closed_while_waiting a wd want_offer done inbox st :
  _go_loop a wd want_offer done (GetRaises XWormholeClosed :: inbox) st
  = (if done then (Ret tt, st)
     else (Raise (TransferError (JStr "unexpected close")), st))
  /\ _go a wd (GetRaises XWormholeClosed :: inbox)
     = (handle_code a >>
        let* verifier := w_verify wd in
        show_verifier a verifier >>
        _go_loop a wd true false (GetRaises XWormholeClosed :: inbox)).
Proof.
  split; [|reflexivity]. rewrite _go_loop_cons.
  unfold _get_data, try_except, bind, ret, raise. cbn [exn_of_chan].
  destruct done; reflexivity.
Qed.

End ChannelClosed.

Section Destination.
Import PyStr PosixPath TwistedReceiver Notions Shape Scenario ZipFile.

Lemma no_sep_relative s : has_char sep s = false -> startswith "/" s = false.
Proof.
  destruct s as [|c s]; [reflexivity|]. cbn [has_char startswith].
  intros H. apply orb_false_iff in H as [H _]. unfold sep in H.
  now rewrite Ascii.eqb_sym, H.
Qed.

Lemma cur_fs_logged_msg st m : cur_fs (logged [EvMsg m] st) = cur_fs st.
Proof. unfold cur_fs, logged. cbn [fs0 trace]. now rewrite replay_app. Qed.

(** C7. The proposed name is cut down to its final component: what
    follows its last separator, free of separators.  When no override is
    configured that component is the name of the destination, and the
    destination is the working directory, a separator if needed, and that
    component.  When the resolved path exists, the resolution prints a
    message and raises the responder-error "... already exists"; it leaves
    the file system as it is, and an offer of a file or of a directory with
    that name fails in the same way before anything is created. *)
Theorem destination_resolution a wd mode destname st :
  let name := effective_name a destname in
  let abs := join (cwd a) name in
  has_char sep (basename destname) = false
  /\ (exists d, destname = d +:+ basename destname
                /\ (d = "" \/ endswith_char sep d = true))
  /\ (truthy (output_file a) = false ->
      name = basename destname
      /\ abs = cwd a
               +:+ (if String.eqb (cwd a) "" || endswith_char sep (cwd a)
                    then "" else "/")
               +:+ basename destname)
  /\ decide_destname a mode destname st
     = (if exists_path st abs
        then (Raise (RespondError (mode +:+ " already exists")),
              logged [EvMsg (MsgRefuseOverwrite mode name)] st)
        else (Ret abs, st))
  /\ (exists_path st abs = true ->
      cur_fs (decide_destname a mode destname st).2 = cur_fs st
      /\ (forall kvs fkvs,
            has_key "message" kvs = false -> has_key "file" kvs = true ->
            assoc "file" kvs = Some (JObj fkvs) ->
            assoc "filename" fkvs = Some (JStr destname) ->
            parse_offer a wd (JObj kvs) st
            = (Raise (RespondError "file already exists"),
               logged [EvMsg (MsgRefuseOverwrite "file" name)] st))
      /\ (forall kvs fkvs,
            has_key "message" kvs = false -> has_key "file" kvs = false ->
            has_key "directory" kvs = true ->
            assoc "directory" kvs = Some (JObj fkvs) ->
            assoc "mode" fkvs = Some (JStr "zipfile/deflated") ->
            assoc "dirname" fkvs = Some (JStr destname) ->
            parse_offer a wd (JObj kvs) st
            = (Raise (RespondError "directory already exists"),
               logged [EvMsg (MsgRefuseOverwrite "directory" name)] st))).
Proof.
  intros name abs.
  split; [apply basename_no_sep|]. split; [apply basename_suffix|].
  split; [|split; [apply decide_destname_eq|]].
  - intros Ht. subst abs name. unfold effective_name. rewrite Ht.
    split; [reflexivity|]. apply join_relative, no_sep_relative, basename_no_sep.
  - intros He. subst abs name. split; [|split].
    + rewrite decide_destname_eq, He. apply cur_fs_logged_msg.
    + intros kvs fkvs Hm Hf Hk Hn.
      unfold parse_offer, handle_file, py_in, getitem, as_path, bind, ret.
      rewrite Hm, Hf, Hk, Hn. cbn [negb].
      now rewrite decide_destname_eq, He.
    + intros kvs fkvs Hm Hf Hd Hk Hmode Hn.
      unfold parse_offer, handle_directory, py_in, getitem, as_path, bind, ret.
      rewrite Hm, Hf, Hd, Hk, Hmode, Hn. cbn [negb json_ne_str].
      rewrite String.eqb_refl. cbn [negb].
      now rewrite decide_destname_eq, He.
Qed.

Lemma destination_resolution_witness :
  let st := init_state {["/home/u/b.txt" := File []]} [] in
  cur_fs (decide_destname ex_args "file" "a/b.txt" st).2 = cur_fs st
  /\ (forall kvs fkvs,
        has_key "message" kvs = false -> has_key "file" kvs = true ->
        assoc "file" kvs = Some (JObj fkvs) ->
        assoc "filename" fkvs = Some (JStr "a/b.txt") ->
        parse_offer ex_args ex_world (JObj kvs) st
        = (Raise (RespondError "file already exists"),
           logged [EvMsg (MsgRefuseOverwrite "file" "b.txt")] st))
  /\ (forall kvs fkvs,
        has_key "message" kvs = false -> has_key "file" kvs = false ->
        has_key "directory" kvs = true ->
        assoc "directory" kvs = Some (JObj fkvs) ->
        assoc "mode" fkvs = Some (JStr "zipfile/deflated") ->
        assoc "dirname" fkvs = Some (JStr "a/b.txt") ->
        parse_offer ex_args ex_world (JObj kvs) st
        = (Raise (RespondError "directory already exists"),
           logged [EvMsg (MsgRefuseOverwrite "directory" "b.txt")] st)).
Proof.
  intros st.
  apply (proj2 (proj2 (proj2 (proj2
           (destination_resolution ex_args ex_world "file" "a/b.txt" st))))).
  vm_compute. reflexivity.
Defined.

(** C10. When an override is configured, the name of the destination is
    the override as given, not its final component: the destination is the
    join of the working directory with the override, whatever name the
    peer proposed.  An absolute override is the destination all by itself;
    a relative one follows the working directory with its separators kept,
    and an override that has a separator is not its own final component. *)
Theorem override_taken_verbatim a mode destname st o :
  output_file a = Some o ->
  o <> "" ->
  effective_name a destname = o
  /\ decide_destname a mode destname st
     = (if exists_path st (join (cwd a) o)
        then (Raise (RespondError (mode +:+ " already exists")),
              logged [EvMsg (MsgRefuseOverwrite mode o)] st)
        else (Ret (join (cwd a) o), st))
  /\ (startswith "/" o = true -> join (cwd a) o = o)
  /\ (startswith "/" o = false ->
      join (cwd a) o
      = cwd a
        +:+ (if String.eqb (cwd a) "" || endswith_char sep (cwd a)
             then "" else "/")
        +:+ o)
  /\ (has_char sep o = true -> basename o <> o).
Proof.
  intros Ho Hne.
  assert (He : effective_name a destname = o).
  { unfold effective_name, truthy. rewrite Ho.
    apply String.eqb_neq in Hne. now rewrite Hne. }
  split; [exact He|]. split; [now rewrite decide_destname_eq, He|].
  split; [apply join_absolute|]. split; [apply join_relative|].
  intros Hs Hb. rewrite <- Hb, basename_no_sep in Hs. discriminate.
Qed.

Lemma override_taken_verbatim_witness :
  let o := "../../etc/cron.d/job" in
  let st := init_state ∅ [] in
  (effective_name (ex_override o) "b.txt" = o
   /\ decide_destname (ex_override o) "file" "b.txt" st
      = (if exists_path st (join "/home/u" o)
         then (Raise (RespondError ("file" +:+ " already exists")),
               logged [EvMsg (MsgRefuseOverwrite "file" o)] st)
         else (Ret (join "/home/u" o), st))
   /\ (startswith "/" o = true -> join "/home/u" o = o)
   /\ (startswith "/" o = false ->
       join "/home/u" o
       = "/home/u"
         +:+ (if String.eqb "/home/u" "" || endswith_char sep "/home/u"
              then "" else "/")
         +:+ o)
   /\ (has_char sep o = true -> basename o <> o))
  /\ (decide_destname (ex_override o) "file" "b.txt" st).1
     = Ret "/home/u/../../etc/cron.d/job"
  /\ normpath "/home/u/../../etc/cron.d/job" = "/etc/cron.d/job"
  /\ (decide_destname (ex_override "/etc/passwd") "file" "b.txt" st).1
     = Ret "/etc/passwd".
Proof.
  intros o st. split; [|vm_compute; auto].
  apply (override_taken_verbatim (ex_override o) "file" "b.txt" st o).
  - reflexivity.
  - discriminate.
Defined.

End Destination.

Section Extraction.
Import PyStr PosixPath TwistedReceiver Notions Shape Scenario ZipFile.

(** C6. For every member of the archive, the name is sanitized to
    components that name plain entries (none is empty, ["."] or [".."],
    none holds a separator), and the path it is extracted to is the
    normalized destination followed by exactly these components: it lies
    under the destination, whatever traversal the name encodes.  The
    extraction changes the file system at such targets only, and
    [write_directory] extracts under the destination of the session the
    members that the unpacking of its file yields: all of them, after
    which the file is closed, or those before the failure when the
    unpacking breaks off, or none when the file holds no archive; for the
    spooled file these are the members unpacked from what the pipe wrote
    into it.  The member [../../evil] lands at [evil] under the
    destination. *)
Theorem extraction_confined wd f st path filename :
  Forall plain (arc_comps filename)
  /\ extract_target path filename
     = render (initial_slashes path) (norm_comps path ++ arc_comps filename)
  /\ normpath path = render (initial_slashes path) (norm_comps path)
  /\ (forall archive fs p,
        extractall path archive fs !! p <> fs !! p ->
        exists m, In m archive /\ p = extract_target path m.1)
  /\ cur_fs (write_directory wd f st).2
     = match unzip wd (content f st) with
       | Unpacks ms =>
           apply_event (extractall (abs_destname st) ms (cur_fs st))
             (EvFileClose f)
       | Breaks done _ => extractall (abs_destname st) done (cur_fs st)
       | NotAnArchive => cur_fs st
       end
  /\ cur_fs (write_directory wd SpooledTemporaryFile st).2
     = extractall (abs_destname st) (unpacked wd (spooled (trace st)))
         (cur_fs st)
  /\ extract_target "/home/u/d" "../../evil" = "/home/u/d/evil"
  /\ sanitize "/tmp/oops" = "tmp/oops"
  /\ sanitize "../tmp/oops" = "tmp/oops".
Proof.
  split; [apply arc_comps_plain|]. split; [apply extract_target_render|].
  split; [apply normpath_render|]. split; [apply extractall_changes|].
  assert (Hc : forall g, content g (logged [EvMsg MsgUnpacking] st) = content g st).
  { intros g. destruct g; unfold content, cur_fs, spooled, logged; cbn [trace fs0].
    - now rewrite replay_app.
    - now rewrite fold_left_app. }
  assert (Hw : forall g,
            cur_fs (write_directory wd g st).2
            = match unzip wd (content g st) with
              | Unpacks ms =>
                  apply_event (extractall (abs_destname st) ms (cur_fs st))
                    (EvFileClose g)
              | Breaks done _ => extractall (abs_destname st) done (cur_fs st)
              | NotAnArchive => cur_fs st
              end).
  { intros g.
    unfold write_directory, bind, msg, emit, get_state, raise. cbn [fst snd].
    change {| fs0 := fs0 st; trace := trace st ++ [EvMsg MsgUnpacking];
              stdin := stdin st; _transit_receiver := _transit_receiver st;
              abs_destname := abs_destname st; xfersize := xfersize st |}
      with (logged [EvMsg MsgUnpacking] st).
    rewrite Hc.
    destruct (unzip wd (content g st)); unfold cur_fs, logged;
      cbn [fst snd trace fs0 abs_destname]; rewrite !replay_app; reflexivity. }
  split; [apply Hw|].
  split; [|split; [|split]]; try (vm_compute; reflexivity).
  rewrite Hw. unfold unpacked. cbn [content].
  destruct (unzip wd (spooled (trace st))); reflexivity.
Qed.

End Extraction.

(** * Further properties of the receiver *)

(** Symbolic execution of the straight-line methods. *)
Ltac run_unfold :=
  unfold TwistedReceiver._parse_transit, TwistedReceiver._build_transit,
    TwistedReceiver.handle_text, TwistedReceiver._send_permission,
    TwistedReceiver._establish_transit, TwistedReceiver._transfer_data,
    TwistedReceiver.write_file, TwistedReceiver.write_directory,
    TwistedReceiver.close_transit, TwistedReceiver.w_verify,
    TwistedReceiver.show_verifier, TwistedReceiver.handle_code,
    TwistedReceiver._get_data, TwistedReceiver._send_data, TwistedReceiver.msg,
    py_in, getitem, as_int, as_path, input, try_except,
    bind, ret, raise, pending, emit, get_state, set_abs_destname,
    set_xfersize, set_transit_receiver, content in *.

Ltac run_simpl :=
  cbn [fst snd trace fs0 stdin _transit_receiver abs_destname xfersize
       andb negb Notions.logged] in *.

(** One step: split on what the run tests next. *)
Ltac run_step :=
  match goal with
  | H : (_, _) = (_, _) |- _ => inversion H; clear H; subst
  | H : TwistedReceiver.decide_destname _ _ _ _ = _ |- _ =>
      rewrite decide_destname_eq in H
  | H : context [match ?x with _ => _ end] |- _ =>
      lazymatch x with
      | context [match _ with _ => _ end] => fail
      | _ => destruct x eqn:?
      end
  end; run_simpl.

Ltac run := run_unfold; run_simpl; repeat run_step.

(** [exists evs, trace st' = trace st ++ evs /\ _] for a run whose events
    are explicit. *)
Ltac find_events :=
  run_simpl; rewrite <- ?app_assoc; cbn [app];
  first [ eexists; split; [reflexivity|]
        | exists (@nil event); split; [symmetry; apply app_nil_r|] ].

(** The cases of [session_run]. *)
Ltac session_cases Hs :=
  inversion Hs as [r0 evs0 s Hq Hres | r1 r0 post evs0 s Hq Hout
                  | evs0 s Hacc Hq | evs0 opening s Hq Hop Hc
                  | them_d offer evs0 s abs tmp n0 Hin0 Hof Hadv Hq Hc
                  | them_d offer evs0 s abs n0 Hin0 Hof Hadv Hq Hc]; subst.

Section Messages.
Import PyStr PosixPath TwistedReceiver Notions Shape Scenario Protocol ZipFile.

Lemma has_key_assoc k kvs v : assoc k kvs = Some v -> has_key k kvs = true.
Proof. unfold has_key. intros ->. apply bool_decide_eq_true. eauto. Qed.

(** X1. A message of the peer that carries an "error" key ends the
    negotiation with [TransferError] of that value, whatever else the message carries
    (a transit or an offer in the same message is not looked at), with
    nothing logged, printed or sent. *)
Theorem peer_error_ends_negotiation a wd want_offer done kvs reason inbox st :
  assoc "error" kvs = Some reason ->
  _get_data (Got (JObj kvs)) st = (Raise (TransferError reason), st)
  /\ _go_loop a wd want_offer done (Got (JObj kvs) :: inbox) st
     = (Raise (TransferError reason), st).
Proof.
  intros H. rewrite _go_loop_cons.
  unfold _get_data, py_in, getitem, try_except, bind, ret, raise.
  rewrite (has_key_assoc _ _ _ H), H. split; reflexivity.
Qed.

Lemma peer_error_ends_negotiation_witness :
  let kvs := [("offer", file_offer "b.txt" 3); ("error", JStr "sender gave up")] in
  _get_data (Got (JObj kvs)) (init_state ∅ [])
  = (Raise (TransferError (JStr "sender gave up")), init_state ∅ [])
  /\ _go_loop ex_args ex_world true false (Got (JObj kvs) :: []) (init_state ∅ [])
     = (Raise (TransferError (JStr "sender gave up")), init_state ∅ []).
Proof.
  intros kvs.
  apply (peer_error_ends_negotiation ex_args ex_world true false kvs
           (JStr "sender gave up") [] (init_state ∅ [])).
  reflexivity.
Defined.

(** X2. A message that is neither a transit message nor an offer starts
    nothing.  An object without the keys "error", "transit" and "offer" is
    logged and the negotiation fails with "expected offer, got none"; a message
    that is not an object fails with that error or with [TypeError].  In
    both cases the peer is told nothing and the rest of the inbox is not
    read. *)
Theorem stray_message_fails a wd done inbox st :
  (forall kvs want_offer,
      has_key "error" kvs = false -> has_key "transit" kvs = false ->
      has_key "offer" kvs = false ->
      _go_loop a wd want_offer done (Got (JObj kvs) :: inbox) st
      = (Raise (TransferError (JStr "expected offer, got none")),
         logged [EvLog (JObj kvs)] st))
  /\ (forall them_d,
        (forall kvs, them_d <> JObj kvs) ->
        _go_loop a wd true done (Got them_d :: inbox) st = (Raise TypeError, st)
        \/ _go_loop a wd true done (Got them_d :: inbox) st
           = (Raise (TransferError (JStr "expected offer, got none")),
              logged [EvLog them_d] st)).
Proof.
  split.
  - intros kvs want_offer He Ht Ho. rewrite _go_loop_cons.
    unfold _get_data, py_in, getitem, try_except, bind, ret, raise, emit, logged.
    now rewrite He, Ht, Ho.
  - intros them_d Hno. rewrite _go_loop_cons.
    unfold _get_data, py_in, getitem, try_except, bind, ret, raise, emit, logged.
    destruct them_d as [|b|n|s|l|kvs]; try (now left).
    + destruct (contains "error" s); [now left|].
      destruct (contains "transit" s); [now left|].
      destruct (contains "offer" s); [now left | now right].
    + destruct (existsb (is_str "error") l); [now left|].
      destruct (existsb (is_str "transit") l); [now left|].
      destruct (existsb (is_str "offer") l); [now left | now right].
    + now destruct (Hno kvs).
Qed.

Lemma stray_message_fails_witness :
  _go_loop ex_args ex_world true false
    [Got (jobj1 "hello" JNull); offer_msg (file_offer "b.txt" 3)] (init_state ∅ [])
  = (Raise (TransferError (JStr "expected offer, got none")),
     logged [EvLog (jobj1 "hello" JNull)] (init_state ∅ []))
  /\ (_go_loop ex_args ex_world true false [Got (JStr "an offer")] (init_state ∅ [])
      = (Raise TypeError, init_state ∅ [])
      \/ _go_loop ex_args ex_world true false [Got (JStr "an offer")] (init_state ∅ [])
         = (Raise (TransferError (JStr "expected offer, got none")),
            logged [EvLog (JStr "an offer")] (init_state ∅ []))).
Proof.
  split.
  - apply (proj1 (stray_message_fails ex_args ex_world false
                    [offer_msg (file_offer "b.txt" 3)] (init_state ∅ []))
             [("hello", JNull)] true); reflexivity.
  - apply (proj2 (stray_message_fails ex_args ex_world false [] (init_state ∅ []))
             (JStr "an offer")).
    intros kvs. discriminate.
Defined.
End Messages.

Section Transit.
Import PyStr PosixPath TwistedReceiver Notions Shape Scenario Protocol ZipFile.

(** X3. Only the first transit message counts.  Once a transit receiver
    exists, a further transit message is ignored without being inspected, so
    handling two transit messages in a row is the same as handling the
    first; a transit message that was handled leaves the receiver set. *)
Theorem transit_message_only_once a wd h1 h2 st :
  (_parse_transit a wd h1 >> _parse_transit a wd h2) st = _parse_transit a wd h1 st
  /\ (_transit_receiver st = true -> _parse_transit a wd h2 st = (Ret tt, st))
  /\ (forall st', _parse_transit a wd h1 st = (Ret tt, st') ->
        _transit_receiver st' = true).
Proof.
  split; [|split].
  - unfold _parse_transit, bind, get_state.
    destruct (_transit_receiver st) eqn:Ht.
    + unfold ret. now rewrite Ht.
    + destruct (_build_transit a wd h1 st) as [[[]|e|] s] eqn:Hb; try reflexivity.
      assert (Hs : _transit_receiver s = true) by (run; reflexivity).
      now rewrite Hs.
  - intros Ht. unfold _parse_transit, bind, get_state. now rewrite Ht.
  - intros st' H. run; first [assumption | reflexivity].
Qed.

Lemma transit_message_only_once_witness :
  let st := init_state ∅ [] in
  let hints := JObj [("direct_connection_hints", JList []);
                     ("relay_connection_hints", JList [])] in
  let st' := (_parse_transit ex_args ex_world hints st).2 in
  _transit_receiver st' = true
  /\ _parse_transit ex_args ex_world JNull st' = (Ret tt, st').
Proof.
  intros st hints st'.
  assert (H : _parse_transit ex_args ex_world hints st = (Ret tt, st')) by reflexivity.
  pose proof (proj2 (proj2 (transit_message_only_once ex_args ex_world hints JNull st))
                st' H) as Hset.
  split; [exact Hset|].
  exact (proj1 (proj2 (transit_message_only_once ex_args ex_world hints JNull st'))
           Hset).
Defined.

(** X4. Building the transit receiver reads both hint lists of the sender
    before anything is sent: with both present they are handed over
    unchanged and the receiver's own hints are sent in one transit message;
    when a list is missing the call raises [KeyError] for it after the
    receiver has been created, and nothing is sent. *)
Theorem build_transit_hints a wd hkvs st :
  let created :=
    [EvTransitReceiver (transit_helper a) (no_listen a);
     EvDeriveKey (APPID +:+ "/transit-key"); EvSetTransitKey] in
  let built (evs : list event) :=
    {| fs0 := fs0 st; trace := trace st ++ evs; stdin := stdin st;
       _transit_receiver := true; abs_destname := abs_destname st;
       xfersize := xfersize st |} in
  _build_transit a wd (JObj hkvs) st =
    match assoc "direct_connection_hints" hkvs,
          assoc "relay_connection_hints" hkvs with
    | None, _ => (Raise (KeyError "direct_connection_hints"), built created)
    | Some d, None =>
        (Raise (KeyError "relay_connection_hints"),
         built (created ++ [EvAddDirectHints d]))
    | Some d, Some r =>
        (Ret tt,
         built (created
                ++ [EvAddDirectHints d; EvAddRelayHints r;
                    EvSend (jobj1 "transit"
                              (JObj [("direct_connection_hints", direct_hints wd);
                                     ("relay_connection_hints", relay_hints wd)]))]))
    end.
Proof.
  cbv zeta. run_unfold. run_simpl.
  destruct (assoc "direct_connection_hints" hkvs);
    destruct (assoc "relay_connection_hints" hkvs); run_simpl;
    rewrite <- ?app_assoc; reflexivity.
Qed.

End Transit.

Section Setup.
Import PyStr PosixPath TwistedReceiver Notions Shape Scenario Protocol ZipFile.

(** X5. A text offer is printed and acknowledged, and that is all: no
    transit receiver is needed, nobody is asked, nothing is created.  The
    "message" key wins over "file" and "directory" in the same offer. *)
Theorem text_offer_acknowledged a wd kvs body st :
  assoc "message" kvs = Some body ->
  parse_offer a wd (JObj kvs) st
  = (Ret tt, logged [EvMsg (MsgText body); message_ack] st)
  /\ cur_fs (logged [EvMsg (MsgText body); message_ack] st) = cur_fs st.
Proof.
  intros H. split.
  - unfold parse_offer, handle_text, py_in, getitem, msg, _send_data, bind, ret,
      emit, logged, message_ack.
    rewrite (has_key_assoc _ _ _ H), H. cbn [trace fs0 stdin _transit_receiver
      abs_destname xfersize]. now rewrite <- app_assoc.
  - eapply cur_fs_quiet; [reflexivity | reflexivity | repeat constructor].
Qed.

Lemma text_offer_acknowledged_witness :
  let kvs := [("file", JObj [("filename", JStr "b.txt"); ("filesize", JNum 3)]);
              ("message", JStr "hello")] in
  let st := init_state ∅ [] in
  parse_offer ex_args ex_world (JObj kvs) st
  = (Ret tt, logged [EvMsg (MsgText (JStr "hello")); message_ack] st)
  /\ cur_fs (logged [EvMsg (MsgText (JStr "hello")); message_ack] st) = cur_fs st.
Proof.
  intros kvs st.
  apply (text_offer_acknowledged ex_args ex_world kvs (JStr "hello") st).
  reflexivity.
Defined.

(** X6. [handle_code] gives the channel a code exactly once.  [set_code] is
    only ever called with a non-empty code, which is "0-" in zero mode and
    the configured code otherwise; the code is asked for at the terminal
    only when none is configured and zero mode is off; zero mode together
    with a code trips the assertion before the channel is touched. *)
Theorem handle_code_once a st r st' :
  handle_code a st = (r, st') ->
  (r = Raise AssertionError /\ st' = st
   /\ zeromode a = true /\ truthy (code a) = true)
  \/ (exists c, r = Ret tt /\ st' = logged [EvSetCode c] st /\ c <> ""
                /\ effective_code a = Some c
                /\ (zeromode a = true -> c = "0-"))
  \/ (r = Ret tt
      /\ st' = logged [EvInputCode "Enter receive wormhole code: " (code_length a)] st
      /\ zeromode a = false /\ truthy (code a) = false).
Proof.
  unfold handle_code, effective_code, bind, ret, raise, emit, truthy, logged.
  destruct (zeromode a), (code a) as [c|];
    try destruct (String.eqb c "") eqn:E; cbn [negb default];
    intros H; inversion H; subst.
  - right; left. exists "0-". repeat split; congruence.
  - left. auto.
  - right; left. exists "0-". repeat split; congruence.
  - right; right. auto.
  - right; left. exists c. repeat split; try congruence.
    intros ->. discriminate.
  - right; right. auto.
Qed.

Lemma handle_code_once_witness :
  exists c, handle_code ex_args (init_state ∅ [])
            = (Ret tt, logged [EvSetCode c] (init_state ∅ []))
            /\ c <> "".
Proof.
  destruct (handle_code_once ex_args (init_state ∅ []) (Ret tt)
              (logged [EvSetCode "4-purple-sausages"] (init_state ∅ [])) eq_refl)
    as [(H & _) | [(c & _ & Hs & Hc & _) | (_ & H & _)]].
  - discriminate H.
  - exists c. split; [now rewrite <- Hs | exact Hc].
  - discriminate H.
Defined.

End Setup.

Section Opening.
Import PyStr PosixPath TwistedReceiver Notions Shape Scenario Protocol ZipFile.

(** X7. Zero mode together with a code aborts the session at the assertion
    of [handle_code]: the channel has been created and is closed again, and
    nothing else happens, whatever the peer would have sent. *)
Theorem zero_mode_with_code_aborts a wd inbox st :
  zeromode a = true -> truthy (code a) = true ->
  go a wd inbox st
  = (Raise AssertionError,
     logged ((if tor a then [EvTorStart] else [])
             ++ [EvWormhole APPID (relay_url a); EvWormholeClose]) st).
Proof.
  intros Hz Hc. unfold go, _go, addBoth, w_close, handle_code.
  run_unfold. rewrite Hz, Hc. unfold logged.
  destruct (tor a); run_simpl; rewrite <- ?app_assoc; reflexivity.
Qed.

Lemma zero_mode_with_code_aborts_witness :
  let a := {| tor := false; relay_url := "ws://relay.example:4000/v1";
              code := Some "4-purple-sausages"; zeromode := true;
              code_length := 2; verify := false;
              transit_helper := "tcp:transit.example:4001";
              no_listen := false; output_file := None; cwd := "/home/u";
              accept_file := true |} in
  go a ex_world [transit_msg; offer_msg (file_offer "b.txt" 3)] (init_state ∅ [])
  = (Raise AssertionError,
     logged [EvWormhole APPID "ws://relay.example:4000/v1"; EvWormholeClose]
       (init_state ∅ [])).
Proof.
  intros a.
  apply (zero_mode_with_code_aborts a ex_world
           [transit_msg; offer_msg (file_offer "b.txt" 3)] (init_state ∅ []));
    reflexivity.
Defined.

(** X8. When [w.verify()] fails, the session ends with the exception of the
    channel as it is (a wrong password stays [WrongPasswordError], and a
    closed channel is not turned into "unexpected close"): no message of the
    peer is read, nothing is printed, and the channel is closed. *)
Theorem verify_failure_ends_session a wd inbox st x :
  verifier wd = inl x ->
  zeromode a && truthy (code a) = false ->
  go a wd inbox st
  = (Raise (exn_of_chan x),
     logged (setup_events a ++ [EvVerify; EvWormholeClose]) st).
Proof.
  intros Hv Hz. unfold go, _go, addBoth, w_close, handle_code, w_verify,
    setup_events, effective_code.
  run_unfold. rewrite Hv. unfold logged, truthy in *.
  destruct (tor a), (zeromode a), (code a) as [c|];
    try destruct (String.eqb c ""); try discriminate Hz;
    cbv [String.eqb negb default from_option id];
    run_simpl; rewrite <- ?app_assoc; reflexivity.
Qed.

Lemma verify_failure_ends_session_witness :
  let wd := {| verifier := inl XWrongPassword; direct_hints := JList [];
               relay_hints := JList []; describe := "direct"; received := 3;
               written := abc; unzip := fun _ => Unpacks [] |} in
  go ex_args wd [transit_msg; offer_msg (file_offer "b.txt" 3)] (init_state ∅ [])
  = (Raise WrongPasswordError,
     logged (setup_events ex_args ++ [EvVerify; EvWormholeClose]) (init_state ∅ [])).
Proof.
  intros wd.
  apply (verify_failure_ends_session ex_args wd
           [transit_msg; offer_msg (file_offer "b.txt" 3)] (init_state ∅ [])
           XWrongPassword); reflexivity.
Defined.

End Opening.

Section Reading.
Import PyStr PosixPath TwistedReceiver Notions Shape Scenario Protocol ZipFile.

Lemma bind_stable {A B} (m : M A) (k k' : A -> M B) st r st' :
  bind m k st = (r, st') ->
  (forall x s, k x s = (r, st') -> k' x s = (r, st')) ->
  bind m k' st = (r, st').
Proof.
  unfold bind. destruct (m st) as [[x|e|] s]; auto.
Qed.

Lemma _go_loop_stable a wd want_offer done more inbox : forall st r st',
  _go_loop a wd want_offer done inbox st = (r, st') ->
  r <> Pending ->
  _go_loop a wd want_offer done (inbox ++ more) st = (r, st').
Proof.
  induction inbox as [|g inbox IH]; intros st r st' H Hr.
  - inversion H; subst. now destruct Hr.
  - cbn [app]. rewrite _go_loop_cons in *.
    eapply bind_stable; [exact H|]. cbv beta.
    intros [them_d|] s Hk; [|exact Hk].
    eapply bind_stable; [exact Hk|]. cbv beta.
    intros [|] s1 Hk1; [|exact Hk1].
    eapply bind_stable; [exact Hk1|]. cbv beta.
    intros hints s2 Hk2.
    eapply bind_stable; [exact Hk2|]. cbv beta.
    intros _ s3 Hk3. now apply IH.
Qed.

(** X9. The session reads no further than it has to: once it has ended,
    with success or with a failure, messages that would have arrived later
    change neither its outcome nor anything it did. *)
Theorem later_messages_unread a wd inbox more st r st' :
  go a wd inbox st = (r, st') ->
  r <> Pending ->
  go a wd (inbox ++ more) st = (r, st').
Proof.
  unfold go. intros H Hr.
  eapply bind_stable; [exact H|]. cbv beta.
  intros _ s Hk. eapply bind_stable; [exact Hk|]. cbv beta.
  intros _ s1 Hk1. revert Hk1. unfold addBoth.
  destruct (_go a wd inbox s1) as [r1 s2] eqn:Hgo.
  assert (Hgo' : r1 <> Pending -> _go a wd (inbox ++ more) s1 = (r1, s2)).
  { intros Hr1. rewrite _go_eq in *.
    eapply bind_stable; [exact Hgo|]. cbv beta.
    intros _ s3 Hk3. eapply bind_stable; [exact Hk3|]. cbv beta.
    intros v s4 Hk4. eapply bind_stable; [exact Hk4|]. cbv beta.
    intros _ s5 Hk5. now apply _go_loop_stable. }
  destruct r1 as [[]|e|]; intros Hc.
  - now rewrite Hgo' by discriminate.
  - now rewrite Hgo' by discriminate.
  - inversion Hc; subst. now destruct Hr.
Qed.

Lemma later_messages_unread_witness :
  let inbox := [transit_msg; offer_msg (file_offer "b.txt" 3)] in
  let more := [offer_msg (file_offer "c.txt" 3); GetRaises XWormholeClosed] in
  go ex_args ex_world (inbox ++ more) (init_state ∅ [])
  = (Ret tt, (receive ex_args ex_world inbox (init_state ∅ [])).2).
Proof.
  intros inbox more.
  apply (later_messages_unread ex_args ex_world inbox more (init_state ∅ [])
           (Ret tt) (receive ex_args ex_world inbox (init_state ∅ [])).2);
    [vm_compute; reflexivity | discriminate].
Defined.

End Reading.

Section Outcome.
Import PyStr PosixPath TwistedReceiver Notions Shape Scenario Protocol ZipFile.

(** X10. What a successful session leaves behind.  After a file transfer
    the file system is the one the session began with, the temporary file
    gone and the destination holding what the pipe wrote; after a directory
    transfer it is what the extraction under the destination made of it;
    after a text message it is unchanged. *)
Theorem successful_session_result a wd inbox st st' evs :
  go a wd inbox st = (Ret tt, st') ->
  trace st' = trace st ++ evs ->
  let dest := abs_destname st' in
  ((exists p, In (EvOpen p) evs) ->
     cur_fs st'
     = <[dest := File (written wd)]> (delete (dest +:+ ".tmp") (cur_fs st)))
  /\ (In EvSpool evs ->
        cur_fs st' = extractall dest (members wd) (cur_fs st))
  /\ ((forall p, ~ In (EvOpen p) evs) -> ~ In EvSpool evs ->
        cur_fs st' = cur_fs st).
Proof.
  intros Hgo Htr dest.
  destruct (go_session _ _ _ _ _ _ Hgo) as (Hfs & evs' & Htr' & Hs).
  rewrite (events_unique _ _ _ _ Htr Htr') in *. clear Htr evs.
  pose proof (cur_fs_app _ _ _ Htr' Hfs) as Hcur.
  split; [|split].
  - intros (p & Hin).
    assert (Hm : commits (EvOpen p) = true) by reflexivity.
    session_cases Hs.
    + destruct Hres as [H | (e & H & _)]; discriminate H.
    + inversion Hout; subst; pick_in Hin Hm quiet_not_commits.
    + match goal with
      | H : Ret tt = transfer_result _ _ |- _ => revert H
      | H : transfer_result _ _ = Ret tt |- _ => revert H
      end.
      revert Hin Hcur; open_transfer; intros Hin Hcur Hret; try discriminate Hret.
      rewrite Hcur, !replay_app, (replay_quiet _ _ Hq), replay_consent.
      cbn [replay fold_left apply_event].
      rewrite !lookup_insert_eq. now rewrite !delete_insert_eq.
    + revert Hin; open_transfer; intros Hin;
        pick_in Hin Hm quiet_not_commits; pick_consent Hin Hm.
  - intros Hin.
    assert (Hm : commits EvSpool = true) by reflexivity.
    session_cases Hs.
    + destruct Hres as [H | (e & H & _)]; discriminate H.
    + inversion Hout; subst; pick_in Hin Hm quiet_not_commits.
    + revert Hin; open_transfer; intros Hin;
        pick_in Hin Hm quiet_not_commits; pick_consent Hin Hm.
    + match goal with
      | H : Ret tt = directory_result _ _ |- _ => revert H
      | H : directory_result _ _ = Ret tt |- _ => revert H
      end.
      unfold members, unpacked.
      revert Hin Hcur; open_transfer; intros Hin Hcur Hret; try discriminate Hret.
      rewrite Hcur, !replay_app, (replay_quiet _ _ Hq), replay_consent.
      reflexivity.
  - intros Hno Hns.
    session_cases Hs.
    + destruct Hres as [H | (e & H & _)]; discriminate H.
    + inversion Hout; subst.
      rewrite Hcur, !replay_app, (replay_quiet _ _ Hq). reflexivity.
    + exfalso. apply (Hno (abs_destname st' +:+ ".tmp")).
      apply in_or_app. right. apply in_or_app. right. now left.
    + exfalso. apply Hns.
      apply in_or_app. right. apply in_or_app. right. now left.
Qed.

Lemma successful_session_result_witness :
  let inbox := [transit_msg; offer_msg (file_offer "b.txt" 3)] in
  let fs : gmap string node :=
    {["/home/u/b.txt.tmp" := File []; "/home/u/a.txt" := File abc]} in
  let st' := (receive ex_args ex_world inbox (init_state fs [])).2 in
  cur_fs st'
  = <["/home/u/b.txt" := File abc]> (delete "/home/u/b.txt.tmp" fs).
Proof.
  intros inbox fs st'.
  refine (proj1 (successful_session_result ex_args ex_world inbox
                   (init_state fs []) st' (trace st') _ _) _).
  - vm_compute. reflexivity.
  - vm_compute. reflexivity.
  - exists "/home/u/b.txt.tmp". vm_compute. tauto.
Defined.

End Outcome.

Section Leftover.
Import PyStr PosixPath TwistedReceiver Notions Shape Scenario Protocol ZipFile.

(** X11. What a failed session leaves behind.  If the session opened no
    temporary file (a directory offer is spooled, not written) and no
    extraction broke off, the file system is exactly as it was.  If it
    opened one, the temporary file is the one next to the destination and
    it stays, open and never closed: it is empty when the pipe was not
    connected, and otherwise it has been handed what the pipe wrote, which
    sits in the buffer of the file object, so that how much of it is on the
    disk is not known; nothing else changed.  If an extraction broke off,
    the members unpacked before the failure are under the destination, and
    nothing else changed. *)
Theorem failed_session_leftover a wd inbox st r st' evs :
  go a wd inbox st = (r, st') ->
  trace st' = trace st ++ evs ->
  r <> Ret tt ->
  let tmp := abs_destname st' +:+ ".tmp" in
  ((forall p, ~ In (EvOpen p) evs) ->
     Forall (fun e => breaks_off e = false) evs ->
     cur_fs st' = cur_fs st)
  /\ (forall p, In (EvOpen p) evs ->
        p = tmp
        /\ Forall (fun e => e <> EvFileClose (NamedFile tmp)) evs
        /\ (In EvConnect evs ->
              cur_fs st' = <[tmp := Unflushed (written wd)]> (cur_fs st))
        /\ (~ In EvConnect evs ->
              cur_fs st' = <[tmp := File []]> (cur_fs st)))
  /\ (forall path done, In (EvExtractFailed path done) evs ->
        path = abs_destname st'
        /\ cur_fs st' = extractall path done (cur_fs st)).
Proof.
  intros Hgo Htr Hr. cbv zeta.
  destruct (go_session _ _ _ _ _ _ Hgo) as (Hfs & evs' & Htr' & Hs).
  rewrite (events_unique _ _ _ _ Htr Htr') in *. clear Htr evs.
  pose proof (cur_fs_app _ _ _ Htr' Hfs) as Hcur.
  assert (Hquiet : forall l, Forall (fun e => quiet e = true) l ->
            Forall (fun e => e <> EvFileClose
                                    (NamedFile (abs_destname st' +:+ ".tmp"))) l).
  { intros l. apply quiet_forall. intros e He ->. discriminate He. }
  assert (Hcons : Forall (fun e => e <> EvFileClose
                             (NamedFile (abs_destname st' +:+ ".tmp")))
                    (consent a)).
  { unfold consent. destruct (accept_file a); repeat constructor. discriminate. }
  split; [|split].
  - intros Hno Hb. rewrite Hcur. session_cases Hs.
    + rewrite replay_app, (replay_quiet _ _ Hq). now destruct r.
    + rewrite !replay_app, (replay_quiet _ _ Hq). now inversion Hout.
    + rewrite replay_app, (replay_quiet _ _ Hq). reflexivity.
    + rewrite !replay_app, (replay_quiet _ _ Hq), replay_consent.
      destruct Hop as [-> | ->]; [|reflexivity].
      exfalso. apply (Hno (abs_destname st' +:+ ".tmp")).
      apply in_or_app. right. apply in_or_app. right. now left.
    + exfalso. apply (Hno (abs_destname st' +:+ ".tmp")).
      apply in_or_app. right. apply in_or_app. right. now left.
    + rewrite !replay_app, (replay_quiet _ _ Hq), replay_consent.
      revert Hr Hb. open_transfer; intros Hr Hb; try congruence;
        try reflexivity.
      exfalso. apply Forall_app in Hb as [_ Hb].
      apply Forall_app in Hb as [_ Hb].
      rewrite List.Forall_forall in Hb.
      match goal with
      | |- _ => specialize (Hb (EvExtractFailed abs done));
                  discriminate Hb; simpl; tauto
      end.
  - intros p Hin.
    assert (Hm : commits (EvOpen p) = true) by reflexivity.
    assert (Hcm : commits EvConnect = true) by reflexivity.
    session_cases Hs.
    + destruct r; cbn [closing] in Hin; pick_in Hin Hm quiet_not_commits.
    + inversion Hout; subst; pick_in Hin Hm quiet_not_commits.
    + pick_in Hin Hm quiet_not_commits.
    + destruct Hop as [-> | ->].
      2: { open_in Hin; pick_in Hin Hm quiet_not_commits. }
      assert (Hp : p = abs_destname st' +:+ ".tmp").
      { open_in Hin; pick_in Hin Hm quiet_not_commits; now injection Hin. }
      split; [exact Hp|]. split; [|split].
      * apply Forall_app. split; [auto|]. apply Forall_app. split; [auto|].
        repeat constructor; discriminate.
      * intros Hcon. open_in Hcon; pick_in Hcon Hcm quiet_not_commits.
      * intros _. rewrite Hcur, !replay_app, (replay_quiet _ _ Hq), replay_consent.
        reflexivity.
    + subst abs tmp n0.
      assert (Hp : p = abs_destname st' +:+ ".tmp").
      { revert Hin; open_transfer; intros Hin;
          pick_in Hin Hm quiet_not_commits; pick_consent Hin Hm;
          now injection Hin. }
      split; [exact Hp|]. split; [|split].
      * apply Forall_app. split; [auto|]. apply Forall_app. split; [auto|].
        revert Hr. open_transfer; intros Hr; try congruence.
        all: repeat constructor; discriminate.
      * intros _. rewrite Hcur, !replay_app, (replay_quiet _ _ Hq), replay_consent.
        revert Hr. open_transfer; intros Hr; try congruence.
        all: cbn [replay fold_left apply_event]; apply insert_insert_eq.
      * intros Hnc. exfalso. apply Hnc.
        apply in_or_app. right. apply in_or_app. right.
        unfold transfer_events. cbn [app]. right. right. now left.
    + revert Hin; open_transfer; intros Hin;
        pick_in Hin Hm quiet_not_commits; pick_consent Hin Hm.
  - intros path done Hin.
    assert (Hm : breaks_off (EvExtractFailed path done) = true) by reflexivity.
    session_cases Hs.
    + destruct r; cbn [closing] in Hin; pick_in Hin Hm quiet_not_breaks_off.
    + inversion Hout; subst; pick_in Hin Hm quiet_not_breaks_off.
    + pick_in Hin Hm quiet_not_breaks_off.
    + destruct Hop as [-> | ->]; open_in Hin;
        pick_in Hin Hm quiet_not_breaks_off.
    + revert Hin; open_transfer; intros Hin;
        pick_in Hin Hm quiet_not_breaks_off; pick_consent Hin Hm.
    + revert Hin Hcur; open_transfer; intros Hin Hcur;
        pick_in Hin Hm quiet_not_breaks_off; pick_consent Hin Hm.
      injection Hin as <- <-. split; [reflexivity|].
      rewrite Hcur, !replay_app, (replay_quiet _ _ Hq), replay_consent.
      reflexivity.
Qed.

Lemma failed_session_leftover_witness :
  let inbox := [transit_msg; offer_msg (file_offer "b.txt" 5)] in
  let fs : gmap string node := {["/home/u/a.txt" := File abc]} in
  let st' := (receive ex_args ex_world inbox (init_state fs [])).2 in
  cur_fs st' = <["/home/u/b.txt.tmp" := Unflushed abc]> fs.
Proof.
  intros inbox fs st'.
  refine (proj1 (proj2 (proj2 (proj1 (proj2 (failed_session_leftover
            ex_args ex_world inbox
            (init_state fs [])
            (Raise (TransferError
                      (JStr "Connection dropped before full file received")))
            st' (trace st') _ _ _)) "/home/u/b.txt.tmp" _))) _).
  - vm_compute. reflexivity.
  - vm_compute. reflexivity.
  - discriminate.
  - vm_compute. tauto.
  - vm_compute. tauto.
Defined.

End Leftover.

Section Consent.
Import PyStr PosixPath TwistedReceiver Notions Shape Scenario Protocol ZipFile.

Lemma first_marked {A} (P : A -> Prop) (l1 : list A) x l2 : forall pre e post,
  l1 ++ x :: l2 = pre ++ e :: post ->
  Forall (fun y => ~ P y) l1 -> ~ P x -> P e ->
  In x pre.
Proof.
  induction l1 as [|y l1 IH]; intros pre e post Heq Hl Hx He.
  - destruct pre as [|z pre]; cbn [app] in Heq; injection Heq as -> _.
    + contradiction.
    + now left.
  - inversion Hl as [|? ? Hy Hl']; subst.
    destruct pre as [|z pre]; cbn [app] in Heq; injection Heq as -> Heq.
    + contradiction.
    + right. eapply IH; eassumption.
Qed.

Lemma quiet_no_commit evs :
  Forall (fun e => quiet e = true) evs ->
  Forall (fun e => ~ commits e = true) evs.
Proof.
  apply quiet_forall. intros e He. rewrite (quiet_not_commits _ He). discriminate.
Qed.

(** X12. Without auto-accept nothing is created and nothing is connected
    before the user has been asked: whatever event of a session opens the
    temporary file, spools, connects the pipe, writes, renames or extracts,
    the prompt came before it. *)
Theorem nothing_before_the_prompt a wd inbox st r st' before e after :
  go a wd inbox st = (r, st') ->
  trace st' = trace st ++ before ++ e :: after ->
  accept_file a = false ->
  commits e = true ->
  In (EvInput "ok? (y/n): ") before.
Proof.
  intros Hgo Htr Ha Hm.
  destruct (go_session _ _ _ _ _ _ Hgo) as (Hfs & evs' & Htr' & Hs).
  assert (Hp : ~ commits (EvInput "ok? (y/n): ") = true) by discriminate.
  session_cases Hs;
    pose proof (events_unique _ _ _ _ Htr' Htr) as He;
    pose proof (in_elt e before after) as Hin; rewrite <- He in Hin.
  - destruct r; cbn [closing] in Hin; pick_in Hin Hm quiet_not_commits.
  - inversion Hout; subst; pick_in Hin Hm quiet_not_commits.
  - pick_in Hin Hm quiet_not_commits.
  - unfold consent in He. rewrite Ha in He. cbn [app] in He.
    eapply (first_marked (fun y => commits y = true)); [exact He | | exact Hp | exact Hm].
    now apply quiet_no_commit.
  - unfold consent in He. rewrite Ha in He. cbn [app] in He.
    eapply (first_marked (fun y => commits y = true)); [exact He | | exact Hp | exact Hm].
    now apply quiet_no_commit.
  - unfold consent in He. rewrite Ha in He. cbn [app] in He.
    eapply (first_marked (fun y => commits y = true)); [exact He | | exact Hp | exact Hm].
    now apply quiet_no_commit.
Qed.

Lemma nothing_before_the_prompt_witness :
  let a := {| tor := false; relay_url := "ws://relay.example:4000/v1";
              code := Some "4-purple-sausages"; zeromode := false;
              code_length := 2; verify := false;
              transit_helper := "tcp:transit.example:4001";
              no_listen := false; output_file := None; cwd := "/home/u";
              accept_file := false |} in
  let inbox := [transit_msg; offer_msg (file_offer "b.txt" 3)] in
  let evs := events_of a ex_world inbox ∅ ["yes"] in
  exists pre post,
    evs = pre ++ EvOpen "/home/u/b.txt.tmp" :: post
    /\ In (EvInput "ok? (y/n): ") pre.
Proof.
  intros a inbox evs.
  exists (firstn 11 evs), (skipn 12 evs).
  split; [vm_compute; reflexivity|].
  apply (nothing_before_the_prompt a ex_world inbox (init_state ∅ ["yes"])
           (Ret tt) (receive a ex_world inbox (init_state ∅ ["yes"])).2
           (firstn 11 evs) (EvOpen "/home/u/b.txt.tmp") (skipn 12 evs));
    vm_compute; reflexivity.
Defined.

End Consent.

Section Edges.
Import PyStr PosixPath TwistedReceiver Notions Shape Scenario Protocol ZipFile.

(** X14. A record pipe that reports more bytes than were advertised trips
    the assertion of [_transfer_data]: the session ends with
    [AssertionError] right after the write, so nothing is printed about it,
    nothing is renamed or extracted and no record is sent. *)
Theorem overlong_transfer_asserts a wd inbox st r st' evs f n m data :
  go a wd inbox st = (r, st') ->
  trace st' = trace st ++ evs ->
  In (EvWriteToFile f n m data) evs ->
  n < m ->
  r = Raise AssertionError
  /\ exists body, evs = body ++ [EvWriteToFile f n m data; EvWormholeClose].
Proof.
  intros Hgo Htr Hin Hlt.
  destruct (go_session _ _ _ _ _ _ Hgo) as (Hfs & evs' & Htr' & Hs).
  rewrite (events_unique _ _ _ _ Htr Htr') in *. clear Htr evs.
  assert (Hm : commits (EvWriteToFile f n m data) = true) by reflexivity.
  session_cases Hs.
  - destruct r; cbn [closing] in Hin; pick_in Hin Hm quiet_not_commits.
  - inversion Hout; subst; pick_in Hin Hm quiet_not_commits.
  - pick_in Hin Hm quiet_not_commits.
  - destruct Hop as [-> | ->]; open_in Hin; pick_in Hin Hm quiet_not_commits.
  - subst abs tmp n0. revert Hin; open_transfer; intros Hin; bools;
      pick_in Hin Hm quiet_not_commits; pick_consent Hin Hm;
      injection Hin as <- <- <- <-; try lia.
    split; [reflexivity|].
    exists (evs0 ++ consent a
            ++ [EvOpen (abs_destname st' +:+ ".tmp");
                EvSend (jobj1 "answer" (jobj1 "file_ack" (JStr "ok")));
                EvConnect; EvMsg (MsgReceiving (describe wd))]).
    rewrite <- !app_assoc. reflexivity.
  - subst abs n0. revert Hin; open_transfer; intros Hin; bools;
      pick_in Hin Hm quiet_not_commits; pick_consent Hin Hm;
      injection Hin as <- <- <- <-; try lia.
    all: (split; [reflexivity|]).
    all: exists (evs0 ++ consent a
            ++ [EvSpool;
                EvSend (jobj1 "answer" (jobj1 "file_ack" (JStr "ok")));
                EvConnect; EvMsg (MsgReceiving (describe wd))]).
    all: rewrite <- !app_assoc; reflexivity.
Qed.

Lemma overlong_transfer_asserts_witness :
  let inbox := [transit_msg; offer_msg (file_offer "b.txt" 2)] in
  outcome_of ex_args ex_world inbox ∅ [] = Raise AssertionError
  /\ exists body,
       events_of ex_args ex_world inbox ∅ []
       = body ++ [EvWriteToFile (NamedFile "/home/u/b.txt.tmp") 2 3 abc;
                  EvWormholeClose].
Proof.
  intros inbox.
  apply (overlong_transfer_asserts ex_args ex_world inbox (init_state ∅ [])
           (outcome_of ex_args ex_world inbox ∅ [])
           (receive ex_args ex_world inbox (init_state ∅ [])).2
           (events_of ex_args ex_world inbox ∅ [])
           (NamedFile "/home/u/b.txt.tmp") 2 3 abc).
  - vm_compute. reflexivity.
  - vm_compute. reflexivity.
  - vm_compute. tauto.
  - lia.
Defined.

(** X15. An offer that is accepted before any transit message was handled
    cannot be received: the temporary file has been created and the peer
    has been told "file_ack: ok" when the missing transit receiver raises
    [AttributeError].  The empty temporary file stays. *)
Theorem offer_before_transit a wd kvs st f s1 :
  has_key "message" kvs = false ->
  has_key "file" kvs = true ->
  _transit_receiver st = false ->
  handle_file a (JObj kvs) st = (Ret f, s1) ->
  parse_offer a wd (JObj kvs) st = (Raise AttributeError, logged [file_ack] s1)
  /\ cur_fs (logged [file_ack] s1)
     = <[abs_destname s1 +:+ ".tmp" := File []]> (cur_fs st).
Proof.
  intros Hm Hf Ht Hh.
  pose proof (handle_file_handled _ _ _ _ _ Hh) as Hd.
  inversion Hd as [| |evs f0 s Hobj Htr Hq Hfs Hflag Hfree Hadv]; subst.
  split.
  - rewrite parse_offer_eq. unfold py_in, bind, ret. rewrite Hm, Hf, Hh.
    unfold receive_file, _send_permission, _send_data, _establish_transit,
      bind, emit, get_state, raise, logged, file_ack.
    cbn [_transit_receiver]. now rewrite Hflag, Ht.
  - unfold cur_fs, logged. cbn [fs0 trace]. rewrite Htr, Hfs.
    rewrite !replay_app, (replay_quiet _ _ Hq), replay_consent. reflexivity.
Qed.

Lemma offer_before_transit_witness :
  let kvs := [("file", JObj [("filename", JStr "b.txt"); ("filesize", JNum 3)])] in
  let st := init_state ∅ [] in
  let s1 := (handle_file ex_args (JObj kvs) st).2 in
  parse_offer ex_args ex_world (JObj kvs) st
  = (Raise AttributeError, logged [file_ack] s1)
  /\ cur_fs (logged [file_ack] s1) = <["/home/u/b.txt.tmp" := File []]> ∅.
Proof.
  intros kvs st s1.
  apply (offer_before_transit ex_args ex_world kvs st
           (NamedFile "/home/u/b.txt.tmp") s1); reflexivity.
Defined.

(** X16. A session that fails on a malformed message ([KeyError],
    [TypeError]) or at the end of standard input ([EOFError]) fails
    cleanly: the peer is not told of an error, no line was read at the
    prompt, nothing was created or connected, and the file system is as it
    was. *)
Theorem input_failures_are_clean a wd inbox st e st' evs :
  go a wd inbox st = (Raise e, st') ->
  trace st' = trace st ++ evs ->
  e = EOFError \/ e = TypeError \/ (exists k, e = KeyError k) ->
  (exists body, evs = body ++ [EvWormholeClose]
                /\ Forall (fun x => quiet x = true) body)
  /\ cur_fs st' = cur_fs st.
Proof.
  intros Hgo Htr He.
  destruct (go_session _ _ _ _ _ _ Hgo) as (Hfs & evs' & Htr' & Hs).
  rewrite (events_unique _ _ _ _ Htr Htr') in *. clear Htr evs.
  pose proof (cur_fs_app _ _ _ Htr' Hfs) as Hcur.
  assert (Hno : forall n, transfer_result wd n <> Raise e).
  { intros n.
    destruct (transfer_result_cases wd n) as [[_ ->] | [[_ ->] | [_ ->]]];
      destruct He as [-> | [-> | (k & ->)]]; discriminate. }
  assert (Hno' : forall n, directory_result wd n <> Raise e).
  { intros n.
    destruct (directory_result_cases wd n) as [[_ ->] | [[_ ->] | [_ ->]]];
      [| |destruct (unpack_result_cases wd) as [-> | (err & ->)]];
      destruct He as [-> | [-> | (k & ->)]]; discriminate. }
  session_cases Hs.
  - split; [exists evs0; auto|].
    rewrite Hcur, replay_app, (replay_quiet _ _ Hq). reflexivity.
  - inversion Hout; subst.
    + destruct He as [He | [He | (k & He)]]; discriminate He.
    + split; [exists evs0; auto|].
      rewrite Hcur, replay_app, (replay_quiet _ _ Hq). reflexivity.
  - destruct He as [He | [He | (k & He)]]; discriminate He.
  - destruct He as [He | [He | (k & He)]]; discriminate He.
  - exfalso. eapply Hno. eauto.
  - exfalso. eapply Hno'. eauto.
Qed.

Lemma input_failures_are_clean_witness :
  let a := {| tor := false; relay_url := "ws://relay.example:4000/v1";
              code := Some "4-purple-sausages"; zeromode := false;
              code_length := 2; verify := false;
              transit_helper := "tcp:transit.example:4001";
              no_listen := false; output_file := None; cwd := "/home/u";
              accept_file := false |} in
  let inbox := [transit_msg; offer_msg (file_offer "b.txt" 3)] in
  outcome_of a ex_world inbox ∅ [] = Raise EOFError
  /\ cur_fs (receive a ex_world inbox (init_state ∅ [])).2 = cur_fs (init_state ∅ []).
Proof.
  intros a inbox. split; [vm_compute; reflexivity|].
  refine (proj2 (input_failures_are_clean a ex_world inbox (init_state ∅ [])
                   EOFError (receive a ex_world inbox (init_state ∅ [])).2
                   (events_of a ex_world inbox ∅ []) _ _ _)).
  - vm_compute. reflexivity.
  - vm_compute. reflexivity.
  - now left.
Defined.

End Edges.

Section Announce.
Import PyStr PosixPath TwistedReceiver Notions Shape Scenario Protocol ZipFile.

Lemma has_char_app c (a b : string) :
  has_char c (a +:+ b) = has_char c a || has_char c b.
Proof.
  induction a as [|x a IH]; [now rewrite append_nil_l|].
  rewrite append_cons. cbn [has_char]. now rewrite IH, orb_assoc.
Qed.

Lemma endswith_has_char c s : endswith_char c s = true -> has_char c s = true.
Proof.
  induction s as [|x s IH]; [discriminate|]. cbn [endswith_char has_char].
  destruct s as [|y s'].
  - intros ->. reflexivity.
  - intros H. rewrite (IH H). apply orb_true_r.
Qed.

Lemma basename_app_sep (a b : string) :
  has_char sep b = true -> basename (a +:+ b) = basename b.
Proof.
  intros Hb. induction a as [|x a IH]; [now rewrite append_nil_l|].
  rewrite append_cons, basename_cons, has_char_app, Hb, orb_true_r. exact IH.
Qed.

Lemma basename_app_end (a b : string) :
  has_char sep b = false -> a = "" \/ endswith_char sep a = true ->
  basename (a +:+ b) = b.
Proof.
  intros Hb. induction a as [|x a IH]; intros Ha.
  - rewrite append_nil_l. now apply basename_id.
  - destruct Ha as [Ha | Ha]; [discriminate|].
    rewrite append_cons, basename_cons, has_char_app, Hb, orb_false_r.
    destruct a as [|y a'].
    + cbn [endswith_char] in Ha. cbn [has_char]. rewrite Ha.
      now rewrite append_nil_l.
    + assert (Ha' : endswith_char sep (String y a') = true) by exact Ha.
      rewrite (endswith_has_char _ _ Ha'). apply IH. now right.
Qed.

Lemma endswith_snoc c (a : string) : endswith_char c (a +:+ String c "") = true.
Proof.
  induction a as [|x a IH].
  - rewrite append_nil_l. cbn. apply Ascii.eqb_refl.
  - rewrite append_cons. cbn [endswith_char].
    destruct (a +:+ String c "") eqn:E; [|exact IH].
    destruct a; discriminate E.
Qed.

(** The final component of a joined path is the final component of what
    was joined on. *)
Lemma basename_join (a b : string) : basename (join a b) = basename b.
Proof.
  unfold join. destruct (startswith "/" b); [reflexivity|].
  destruct (has_char sep b) eqn:Hb.
  - destruct (String.eqb a "" || endswith_char sep a).
    + now apply basename_app_sep.
    + rewrite (basename_app_sep a ("/" +:+ b)).
      * rewrite append_cons, append_nil_l, basename_cons. now rewrite Hb.
      * now rewrite append_cons, append_nil_l.
  - rewrite (basename_id b Hb).
    destruct (String.eqb a "" || endswith_char sep a) eqn:Ha.
    + apply basename_app_end; [exact Hb|].
      apply orb_true_iff in Ha as [Ha | Ha]; [left | now right].
      now apply String.eqb_eq.
    + rewrite <- append_assoc.
      apply basename_app_end; [exact Hb|]. right. apply endswith_snoc.
Qed.

Lemma no_events {A} (l evs : list A) : l = l ++ evs -> evs = [].
Proof.
  intros H. apply (app_inv_head l). now rewrite app_nil_r.
Qed.

(** X17. The name [handle_file] announces before it asks is the final
    component of the destination it resolved: free of separators, the
    stripped proposed name when no output file is configured, and only the
    last component of an output file that names a directory.  The size it
    announces is the advertised one. *)
Theorem handle_file_announces a them_d st r st' evs n name :
  handle_file a them_d st = (r, st') ->
  trace st' = trace st ++ evs ->
  In (EvMsg (MsgReceivingFile n name)) evs ->
  exists filename,
    lookup2 them_d "file" "filename" = Some (JStr filename)
    /\ abs_destname st' = join (cwd a) (effective_name a filename)
    /\ name = basename (abs_destname st')
    /\ name = basename (effective_name a filename)
    /\ has_char sep name = false
    /\ (truthy (output_file a) = false -> name = basename filename)
    /\ advertised them_d "file" "filesize" = Some n.
Proof.
  unfold handle_file, ask_permission. intros H Htr Hin. run.
  all: rewrite <- ?app_assoc in Htr; cbn [app] in Htr.
  all: try (apply app_inv_head in Htr; subst evs).
  all: try (apply no_events in Htr; subst evs).
  all: split_in Hin; try discriminate Hin.
  all: injection Hin as <- <-.
  all: match goal with
       | Hf : assoc "filename" _ = Some (JStr ?s) |- _ => exists s
       end.
  all: unfold lookup2, advertised, lookup2, int_of.
  all: repeat match goal with Hk : assoc _ _ = _ |- _ => rewrite Hk; clear Hk end.
  all: rewrite basename_join.
  all: repeat (split; [first [reflexivity | apply basename_no_sep]|]).
  all: try (split; [|reflexivity]).
  all: unfold effective_name; intros ->;
       apply basename_id, basename_no_sep.
Qed.

Lemma handle_file_announces_witness :
  let a := ex_override "incoming/today/b.txt" in
  let them_d := file_offer "../a.txt" 3 in
  exists filename,
    lookup2 them_d "file" "filename" = Some (JStr filename)
    /\ abs_destname (handle_file a them_d (init_state ∅ [])).2
       = join (cwd a) (effective_name a filename)
    /\ "b.txt" = basename (abs_destname (handle_file a them_d (init_state ∅ [])).2)
    /\ "b.txt" = basename (effective_name a filename)
    /\ has_char sep "b.txt" = false
    /\ (truthy (output_file a) = false -> "b.txt" = basename filename)
    /\ advertised them_d "file" "filesize" = Some 3.
Proof.
  intros a them_d.
  apply (handle_file_announces a them_d (init_state ∅ [])
           (handle_file a them_d (init_state ∅ [])).1
           (handle_file a them_d (init_state ∅ [])).2
           (trace (handle_file a them_d (init_state ∅ [])).2) 3 "b.txt").
  - vm_compute. reflexivity.
  - vm_compute. reflexivity.
  - vm_compute. tauto.
Defined.

End Announce.

Section Phases.
Import PyStr PosixPath TwistedReceiver Notions Shape Scenario Protocol ZipFile.

Lemma parse_offer_events a wd offer st r st' :
  parse_offer a wd offer st = (r, st') ->
  exists evs,
    trace st' = trace st ++ evs
    /\ Forall (fun e => by_offer e = true) evs
    /\ _transit_receiver st' = _transit_receiver st
    /\ (In EvConnect evs -> _transit_receiver st = true)
    /\ Forall (fun e => is_build e = false) evs
    /\ (length (List.filter is_file_ack evs) <= 1)%nat
    /\ ack_after_opening false evs = true.
Proof.
  unfold parse_offer, handle_file, handle_directory, ask_permission.
  intros H. run.
  all: find_events.
  all: split; [repeat constructor|]; split; [congruence|].
  all: split; [|split; [repeat constructor | split; [cbn; lia | reflexivity]]].
  all: first [ intros _; assumption
             | intros Hin; split_in Hin; discriminate Hin ].
Qed.

Lemma _parse_transit_events a wd hints st r st' :
  _parse_transit a wd hints st = (r, st') ->
  exists evs,
    trace st' = trace st ++ evs
    /\ Forall (fun e => by_transit e = true) evs
    /\ List.filter is_build evs
       = (if _transit_receiver st then []
          else [EvTransitReceiver (transit_helper a) (no_listen a)])
    /\ (_transit_receiver st = true -> _transit_receiver st' = true)
    /\ (r = Ret tt -> _transit_receiver st' = true)
    /\ r <> Pending.
Proof.
  intros H. run.
  all: find_events.
  all: split; [repeat constructor|].
  all: repeat split; try reflexivity; try congruence.
Qed.

Lemma by_transit_loop e : by_transit e = true -> by_loop e = true.
Proof. destruct e; try discriminate; reflexivity. Qed.

Lemma by_offer_loop e : by_offer e = true -> by_loop e = true.
Proof.
  destruct e as [| | | | | | | |m| | | | | | | | | | | | | | | | |];
    try discriminate; try reflexivity.
  destruct m; try discriminate; reflexivity.
Qed.

Lemma by_transit_no_ack e : by_transit e = true -> is_file_ack e = false.
Proof.
  destruct e as [| | | | |d| | | | | | | | | | | | | | | | | | | |];
    try discriminate; try reflexivity.
  destruct d as [| | | | |kvs]; try discriminate.
  destruct kvs as [|[k v] [|]]; try discriminate.
  cbn. intros H. apply String.eqb_eq in H. subst k.
  destruct v as [| | | | |kvs2]; try reflexivity.
  destruct kvs2 as [|[k2 v2] [|]]; reflexivity.
Qed.

Lemma by_transit_no_opening e : by_transit e = true -> is_opening e = false.
Proof. destruct e; try discriminate; reflexivity. Qed.

End Phases.

Section Loop.
Import PyStr PosixPath TwistedReceiver Notions Shape Scenario Protocol ZipFile.

Lemma filter_transit_ack evs :
  Forall (fun e => by_transit e = true) evs -> List.filter is_file_ack evs = [].
Proof.
  intros H. apply filter_none. eapply Forall_impl; [exact H|].
  exact by_transit_no_ack.
Qed.

Lemma filter_build_in evs x :
  List.filter is_build evs = [x] -> exists h n, In (EvTransitReceiver h n) evs.
Proof.
  intros H. assert (Hin : In x (List.filter is_build evs)) by (rewrite H; now left).
  apply List.filter_In in Hin as [Hin Hb].
  destruct x; try discriminate Hb. eauto.
Qed.

Lemma ack_after_opening_transit evs1 evs2 : forall seen,
  Forall (fun e => by_transit e = true) evs1 ->
  ack_after_opening seen (evs1 ++ evs2) = ack_after_opening seen evs2.
Proof.
  induction evs1 as [|e evs1 IH]; intros seen H; [reflexivity|].
  inversion H as [|? ? He H']; subst. cbn [app ack_after_opening].
  rewrite (by_transit_no_ack _ He), (by_transit_no_opening _ He), orb_false_r.
  now apply IH.
Qed.

Lemma ack_after_opening_app evs1 evs2 :
  ack_after_opening false evs1 = true ->
  Forall (fun e => is_file_ack e = false) evs2 ->
  ack_after_opening false (evs1 ++ evs2) = true.
Proof.
  assert (Hno : forall seen, Forall (fun e => is_file_ack e = false) evs2 ->
                  ack_after_opening seen evs2 = true).
  { induction evs2 as [|e evs2 IH]; intros seen H; [reflexivity|].
    inversion H as [|? ? He H']; subst. cbn [ack_after_opening]. rewrite He.
    now apply IH. }
  intros H1 H2. revert H1. generalize false.
  induction evs1 as [|e evs1 IH]; intros seen H1; cbn [app].
  - now apply Hno.
  - cbn [ack_after_opening] in *. destruct (is_file_ack e).
    + apply andb_true_iff in H1 as [-> H1]. cbn. now apply IH.
    + now apply IH.
Qed.

Lemma loop_facts_nil st : loop_facts st [].
Proof.
  repeat split; [constructor | cbn; destruct (_transit_receiver st); lia
                | intros [] | cbn; lia].
Qed.

Lemma loop_facts_log st d : loop_facts st [EvLog d].
Proof.
  repeat split; [repeat constructor | cbn; destruct (_transit_receiver st); lia
                | intros [H|[]]; discriminate H | cbn; lia].
Qed.

Lemma loop_facts_transit a st st1 evs1 evs2 :
  Forall (fun e => by_transit e = true) evs1 ->
  List.filter is_build evs1
  = (if _transit_receiver st then []
     else [EvTransitReceiver (transit_helper a) (no_listen a)]) ->
  (_transit_receiver st1 = true -> loop_facts st1 evs2) ->
  (evs2 = [] \/ _transit_receiver st1 = true) ->
  loop_facts st (evs1 ++ evs2).
Proof.
  intros Ht Hb H2 Hc.
  assert (H2' : loop_facts st1 evs2).
  { destruct Hc as [-> | Hc]; [apply loop_facts_nil | now apply H2]. }
  assert (Hn : (length (List.filter is_build evs2) = 0)%nat).
  { destruct Hc as [-> | Hc]; [reflexivity|].
    destruct H2' as (_ & Hle & _). rewrite Hc in Hle. lia. }
  destruct H2' as (Hl2 & _ & _ & Hack2 & Hord2).
  split; [|split; [|split; [|split]]].
  - apply Forall_app. split; [|exact Hl2].
    eapply Forall_impl; [exact Ht | exact by_transit_loop].
  - rewrite List.filter_app, length_app, Hb, Hn.
    destruct (_transit_receiver st); cbn; lia.
  - intros _. destruct (_transit_receiver st) eqn:E; [now left|]. right.
    destruct (filter_build_in _ _ Hb) as (h & n & Hin).
    exists h, n. apply in_or_app. now left.
  - rewrite List.filter_app, length_app, (filter_transit_ack _ Ht). exact Hack2.
  - now rewrite ack_after_opening_transit.
Qed.

Lemma loop_facts_offer st evs post :
  Forall (fun e => by_offer e = true) evs ->
  (In EvConnect evs -> _transit_receiver st = true) ->
  Forall (fun e => is_build e = false) evs ->
  (length (List.filter is_file_ack evs) <= 1)%nat ->
  ack_after_opening false evs = true ->
  post = [] \/ (exists response, post = [EvSend (jobj1 "error" (JStr response))]) ->
  loop_facts st (evs ++ post).
Proof.
  intros Ho Hc Hb Hack Hord Hpost.
  assert (Hp : Forall (fun e => by_loop e = true) post
               /\ List.filter is_build post = []
               /\ List.filter is_file_ack post = []
               /\ ~ In EvConnect post).
  { destruct Hpost as [-> | (response & ->)].
    - repeat split; try constructor. intros [].
    - repeat split; try (repeat constructor). intros [H|[]]. discriminate H. }
  destruct Hp as (Hpl & Hpb & Hpa & Hpc).
  split; [|split; [|split; [|split]]].
  - apply Forall_app. split; [|exact Hpl].
    eapply Forall_impl; [exact Ho | exact by_offer_loop].
  - rewrite List.filter_app, length_app, Hpb, (filter_none _ _ Hb). cbn.
    destruct (_transit_receiver st); lia.
  - intros Hin. apply in_app_or in Hin as [Hin | Hin]; [|contradiction].
    left. now apply Hc.
  - rewrite List.filter_app, length_app, Hpa. cbn. lia.
  - apply ack_after_opening_app; [exact Hord|].
    destruct Hpost as [-> | (response & ->)]; repeat constructor.
Qed.

Ltac loop_unfold :=
  unfold _send_data, _get_data, py_in, getitem, try_except,
    bind, ret, raise, pending, emit, get_state in *.

Lemma _go_loop_events a wd want_offer done inbox : forall st r st',
  _go_loop a wd want_offer done inbox st = (r, st') ->
  exists evs, trace st' = trace st ++ evs /\ loop_facts st evs.
Proof.
  induction inbox as [|g inbox IH]; intros st r st' H.
  - inversion H; subst. exists []. split; [symmetry; apply app_nil_r|].
    apply loop_facts_nil.
  - rewrite _go_loop_cons in H. loop_unfold. run_simpl.
    destruct g as [them_d|x].
    2: { destruct x, done; run_simpl; inversion H; subst;
         (exists []; split; [symmetry; apply app_nil_r | apply loop_facts_nil]). }
    repeat run_step.
    all: try (exists []; split; [symmetry; apply app_nil_r | apply loop_facts_nil]).
    all: try (eexists [EvLog _]; split; [reflexivity | apply loop_facts_log]).
    all: try match goal with
         | Ht : _parse_transit _ _ _ _ = (Ret _, ?s1),
           Hl : _go_loop _ _ _ _ _ ?s1 = _ |- _ =>
             apply _parse_transit_events in Ht
               as (evs1 & Htr1 & Hq1 & Hb1 & _ & Hset & _);
             apply IH in Hl as (evs2 & Htr2 & Hf2);
             exists (evs1 ++ evs2); split;
             [ rewrite Htr2, Htr1; now rewrite app_assoc
             | eapply loop_facts_transit;
               [exact Hq1 | exact Hb1 | intros _; exact Hf2
               | right; apply Hset;
                 match goal with |- Ret ?u = _ => now destruct u end] ]
         | Ht : _parse_transit _ _ _ _ = (_, _) |- _ =>
             apply _parse_transit_events in Ht
               as (evs1 & Htr1 & Hq1 & Hb1 & _ & _ & Hnp);
             first [ congruence
                   | exists evs1; split; [exact Htr1|];
                     rewrite <- (app_nil_r evs1);
                     eapply (loop_facts_transit a st st);
                     [exact Hq1 | exact Hb1 | intros _; apply loop_facts_nil
                     | now left] ]
         end.
    all: match goal with
         | Hp : parse_offer _ _ _ _ = (_, _) |- _ =>
             apply parse_offer_events in Hp
               as (evs1 & Htr1 & Ho & Hflag & Hc & Hb & Hack & Hord)
         end.
    all: run_simpl.
    all: first [ exists (evs1 ++ []); split;
                 [ rewrite app_nil_r; exact Htr1
                 | apply loop_facts_offer; auto ]
               | eexists (evs1 ++ [EvSend (jobj1 "error" (JStr _))]); split;
                 [ rewrite Htr1; now rewrite app_assoc
                 | apply loop_facts_offer; eauto ] ].
Qed.

End Loop.

Section Session.
Import PyStr PosixPath TwistedReceiver Notions Shape Scenario Protocol ZipFile.

(** The events of a session: the setup of the channel, with the line that
    shows the verifier exactly when it is asked for and available; the
    events of the loop; the close. *)
Lemma go_phases a wd inbox st r st' :
  go a wd inbox st = (r, st') ->
  exists sevs levs,
    trace st' = trace st ++ sevs ++ levs ++ closing r
    /\ Forall (fun e => by_setup e = true) sevs
    /\ loop_facts st levs
    /\ (forall v, In (EvMsg (MsgVerifier v)) sevs <->
                  verify a = true /\ verifier wd = inr v
                  /\ zeromode a && truthy (code a) = false).
Proof.
  unfold go, _go, addBoth, w_close, handle_code, w_verify, show_verifier.
  run_unfold. unfold truthy in *.
  destruct (tor a) eqn:Et, (zeromode a) eqn:Ez, (code a) as [c|] eqn:Ec;
    try destruct (String.eqb c "") eqn:Ee;
    cbv [String.eqb negb default from_option id];
    destruct (verifier wd) as [x|v0] eqn:Ev; destruct (verify a) eqn:Evf;
    run_simpl;
    try match goal with
    | |- context [_go_loop a wd true false inbox ?s0] =>
        destruct (_go_loop a wd true false inbox s0) as [r1 s1] eqn:Hl;
        apply _go_loop_events in Hl as (levs & Htr & Hf); run_simpl;
        destruct r1 as [[]|e|]
    end;
    intros H; inversion H; subst; run_simpl; rewrite ?Htr;
    rewrite <- ?app_assoc; cbn [app].
  all: first
    [ eexists [_; _; _; _; _], levs; split; [cbn [closing]; rewrite ?app_nil_r; reflexivity|]
    | eexists [_; _; _; _], levs; split; [cbn [closing]; rewrite ?app_nil_r; reflexivity|]
    | eexists [_; _; _], levs; split; [cbn [closing]; rewrite ?app_nil_r; reflexivity|]
    | eexists [_; _; _; _], (@nil event); split; [cbn [closing]; rewrite ?app_nil_r; reflexivity|]
    | eexists [_; _; _], (@nil event); split; [cbn [closing]; rewrite ?app_nil_r; reflexivity|]
    | eexists [_; _], (@nil event); split; [cbn [closing]; rewrite ?app_nil_r; reflexivity|]
    | eexists [_], (@nil event); split; [cbn [closing]; rewrite ?app_nil_r; reflexivity|] ].
  all: split; [repeat constructor|].
  all: split; [first [exact Hf | apply loop_facts_nil]|].
  all: intros v; split;
    [ intros Hin; split_in Hin; try discriminate Hin;
      injection Hin as <-; repeat split; try reflexivity;
      rewrite ?Ee; reflexivity
    | intros (H1 & H2 & H3); try discriminate H1; try discriminate H2;
      rewrite ?Ee in H3; try discriminate H3;
      injection H2 as <-; cbn; tauto ].
Qed.

End Session.

Section Terminal.
Import PyStr PosixPath TwistedReceiver Notions Shape Scenario Protocol ZipFile.

(** The code is asked for during the setup only, at most once, and not at
    all when a code is configured or the session is in zero mode. *)
Lemma go_code_prompt a wd inbox st r st' :
  go a wd inbox st = (r, st') ->
  exists sevs levs,
    trace st' = trace st ++ sevs ++ levs ++ closing r
    /\ Forall (fun e => by_loop e = true) levs
    /\ (length (List.filter is_code_prompt sevs)
        <= if truthy (effective_code a) then 0 else 1)%nat.
Proof.
  unfold go, _go, addBoth, w_close, handle_code, w_verify, show_verifier,
    effective_code.
  run_unfold. unfold truthy in *.
  destruct (tor a) eqn:Et, (zeromode a) eqn:Ez, (code a) as [c|] eqn:Ec;
    try destruct (String.eqb c "") eqn:Ee;
    cbv [String.eqb negb default from_option id];
    destruct (verifier wd) as [x|v0] eqn:Ev; destruct (verify a) eqn:Evf;
    run_simpl;
    try match goal with
    | |- context [_go_loop a wd true false inbox ?s0] =>
        destruct (_go_loop a wd true false inbox s0) as [r1 s1] eqn:Hl;
        apply _go_loop_events in Hl as (levs & Htr & Hf & _); run_simpl;
        destruct r1 as [[]|e|]
    end;
    intros H; inversion H; subst; run_simpl; rewrite ?Htr;
    rewrite <- ?app_assoc; cbn [app].
  all: first
    [ eexists [_; _; _; _; _], levs; split; [cbn [closing]; rewrite ?app_nil_r; reflexivity|]
    | eexists [_; _; _; _], levs; split; [cbn [closing]; rewrite ?app_nil_r; reflexivity|]
    | eexists [_; _; _], levs; split; [cbn [closing]; rewrite ?app_nil_r; reflexivity|]
    | eexists [_; _; _; _], (@nil event); split; [cbn [closing]; rewrite ?app_nil_r; reflexivity|]
    | eexists [_; _; _], (@nil event); split; [cbn [closing]; rewrite ?app_nil_r; reflexivity|]
    | eexists [_; _], (@nil event); split; [cbn [closing]; rewrite ?app_nil_r; reflexivity|]
    | eexists [_], (@nil event); split; [cbn [closing]; rewrite ?app_nil_r; reflexivity|] ].
  all: split; [first [exact Hf | constructor]|].
  all: cbn; lia.
Qed.

Lemma reads_terminal_count evs :
  length (List.filter reads_terminal evs)
  = (length (List.filter is_prompt evs)
     + length (List.filter is_code_prompt evs))%nat.
Proof.
  induction evs as [|e evs IH]; [reflexivity|].
  destruct e; cbn [List.filter reads_terminal is_prompt is_code_prompt orb length];
    lia.
Qed.

Lemma by_loop_no_code_prompt evs :
  Forall (fun e => by_loop e = true) evs -> List.filter is_code_prompt evs = [].
Proof.
  intros H. apply filter_none. eapply List.Forall_impl; [|exact H].
  intros e. destruct e; try reflexivity; discriminate.
Qed.

Lemma session_run_prompts a wd inbox st r st' evs :
  session_run a wd inbox st r st' evs ->
  (length (List.filter is_prompt evs) <= if accept_file a then 0 else 1)%nat.
Proof.
  intros Hs.
  assert (Hquiet : forall l, Forall (fun e => quiet e = true) l ->
            List.filter is_prompt l = []).
  { intros l Hl. apply filter_none. eapply quiet_forall; [|exact Hl].
    now intros [] He. }
  session_cases Hs; rewrite ?List.filter_app, ?(Hquiet _ Hq).
  - destruct r, (accept_file a); cbn; lia.
  - inversion Hout; subst; destruct (accept_file a); cbn; lia.
  - rewrite Hacc. cbn. lia.
  - destruct Hop as [-> | ->]; unfold consent; destruct (accept_file a);
      cbn; lia.
  - subst abs tmp n0. open_events; cbn; lia.
  - subst abs n0. open_events; cbn; lia.
Qed.

(** X13. The terminal is read at most twice in a session.  The code is
    asked for at most once, and not at all when a code is configured or the
    session is in zero mode; the consent is asked for at most once, and
    never with auto-accept.  So with a code and with auto-accept the
    terminal is not read at all. *)
Theorem terminal_read_at_most_twice a wd inbox st r st' evs :
  go a wd inbox st = (r, st') ->
  trace st' = trace st ++ evs ->
  (length (List.filter is_code_prompt evs)
   <= if truthy (effective_code a) then 0 else 1)%nat
  /\ (length (List.filter is_prompt evs)
      <= if accept_file a then 0 else 1)%nat
  /\ (length (List.filter reads_terminal evs) <= 2)%nat
  /\ (truthy (effective_code a) = true -> accept_file a = true ->
      List.filter reads_terminal evs = []).
Proof.
  intros Hgo Htr.
  assert (Hcode : (length (List.filter is_code_prompt evs)
                   <= if truthy (effective_code a) then 0 else 1)%nat).
  { destruct (go_code_prompt _ _ _ _ _ _ Hgo) as (sevs & levs & Htr' & Hl & Hc).
    rewrite (events_unique _ _ _ _ Htr Htr').
    rewrite !List.filter_app, (by_loop_no_code_prompt _ Hl), !length_app.
    destruct r; cbn [closing List.filter is_code_prompt length]; lia. }
  assert (Hask : (length (List.filter is_prompt evs)
                  <= if accept_file a then 0 else 1)%nat).
  { destruct (go_session _ _ _ _ _ _ Hgo) as (_ & evs' & Htr' & Hs).
    rewrite (events_unique _ _ _ _ Htr Htr').
    now apply (session_run_prompts _ _ _ _ _ _ _ Hs). }
  split; [exact Hcode|]. split; [exact Hask|].
  pose proof (reads_terminal_count evs) as Hsum.
  split.
  - destruct (truthy (effective_code a)), (accept_file a); lia.
  - intros Hc Ha. rewrite Hc in Hcode. rewrite Ha in Hask.
    apply length_zero_iff_nil. lia.
Qed.

Lemma terminal_read_at_most_twice_witness :
  let a := {| tor := false; relay_url := "ws://relay.example:4000/v1";
              code := None; zeromode := false;
              code_length := 2; verify := false;
              transit_helper := "tcp:transit.example:4001";
              no_listen := false; output_file := None; cwd := "/home/u";
              accept_file := false |} in
  let inbox := [transit_msg; offer_msg (file_offer "b.txt" 3)] in
  let evs := events_of a ex_world inbox ∅ ["yes"] in
  ((length (List.filter is_code_prompt evs)
    <= if truthy (effective_code a) then 0 else 1)%nat
   /\ (length (List.filter is_prompt evs)
       <= if accept_file a then 0 else 1)%nat
   /\ (length (List.filter reads_terminal evs) <= 2)%nat
   /\ (truthy (effective_code a) = true -> accept_file a = true ->
       List.filter reads_terminal evs = []))
  /\ List.filter reads_terminal evs
     = [EvInputCode "Enter receive wormhole code: " 2; EvInput "ok? (y/n): "].
Proof.
  intros a inbox evs. split; [|vm_compute; reflexivity].
  apply (terminal_read_at_most_twice a ex_world inbox (init_state ∅ ["yes"])
           (outcome_of a ex_world inbox ∅ ["yes"])
           (receive a ex_world inbox (init_state ∅ ["yes"])).2 evs).
  - vm_compute. reflexivity.
  - vm_compute. reflexivity.
Defined.

End Terminal.

Section SessionFacts.
Import PyStr PosixPath TwistedReceiver Notions Shape Scenario Protocol ZipFile.

Lemma by_setup_facts e :
  by_setup e = true ->
  is_build e = false /\ is_file_ack e = false /\ is_opening e = false
  /\ e <> EvConnect.
Proof.
  destruct e; try discriminate; intros _; repeat split; discriminate.
Qed.

Lemma closing_facts r e :
  In e (closing r) ->
  is_build e = false /\ is_file_ack e = false /\ e <> EvConnect
  /\ forall v, e <> EvMsg (MsgVerifier v).
Proof.
  destruct r; cbn; intros H; repeat (destruct H as [<-|H]); try contradiction;
    repeat split; discriminate.
Qed.

Lemma ack_after_opening_setup evs1 evs2 : forall seen,
  Forall (fun e => by_setup e = true) evs1 ->
  ack_after_opening seen (evs1 ++ evs2) = ack_after_opening seen evs2.
Proof.
  induction evs1 as [|e evs1 IH]; intros seen H; [reflexivity|].
  inversion H as [|? ? He H']; subst. cbn [app ack_after_opening].
  destruct (by_setup_facts _ He) as (_ & -> & -> & _). rewrite orb_false_r.
  now apply IH.
Qed.

Lemma ack_after_opening_split evs : forall seen before e after,
  ack_after_opening seen evs = true ->
  evs = before ++ e :: after ->
  is_file_ack e = true ->
  seen = true \/ exists o, In o before /\ is_opening o = true.
Proof.
  induction evs as [|x evs IH]; intros seen before e after H Heq He.
  - destruct before; discriminate Heq.
  - destruct before as [|y before]; cbn [app] in Heq; injection Heq as -> ->.
    + cbn [ack_after_opening] in H. rewrite He in H.
      apply andb_true_iff in H as [-> _]. now left.
    + cbn [ack_after_opening] in H. destruct (is_file_ack y) eqn:Ey.
      * apply andb_true_iff in H as [-> _]. now left.
      * destruct (IH _ _ _ _ H eq_refl He) as [Hs | (o & Ho & Hop)].
        -- apply orb_true_iff in Hs as [-> | Hy]; [now left|].
           right. exists y. split; [now left | exact Hy].
        -- right. exists o. split; [now right | exact Hop].
Qed.

Lemma filter_setup {f : event -> bool} evs :
  (forall e, by_setup e = true -> f e = false) ->
  Forall (fun e => by_setup e = true) evs -> List.filter f evs = [].
Proof.
  intros Hf H. apply filter_none. eapply Forall_impl; [exact H | exact Hf].
Qed.

Lemma filter_closing {f : event -> bool} r :
  f EvWormholeClose = false -> List.filter f (closing r) = [].
Proof. intros Hf. destruct r; cbn; now rewrite ?Hf. Qed.

(** X18. However many transit messages arrive, a session makes the transit
    receiver at most once, and not at all when the receiver has one
    already. *)
Theorem transit_receiver_made_once a wd inbox st r st' evs :
  go a wd inbox st = (r, st') ->
  trace st' = trace st ++ evs ->
  (length (List.filter is_build evs) <= 1)%nat
  /\ (_transit_receiver st = true -> List.filter is_build evs = []).
Proof.
  intros Hgo Htr.
  destruct (go_phases _ _ _ _ _ _ Hgo) as (sevs & levs & Htr' & Hs & Hl & _).
  rewrite (events_unique _ _ _ _ Htr Htr'). clear Htr evs.
  destruct Hl as (_ & Hb & _).
  rewrite !List.filter_app,
    (filter_setup sevs (fun e He => proj1 (by_setup_facts e He)) Hs),
    (filter_closing r eq_refl), app_nil_r.
  cbn [app]. split.
  - destruct (_transit_receiver st); lia.
  - intros Ht. rewrite Ht in Hb.
    destruct (List.filter is_build levs); [reflexivity | cbn in Hb; lia].
Qed.

Lemma transit_receiver_made_once_witness :
  let inbox := [transit_msg; transit_msg; offer_msg (file_offer "b.txt" 3)] in
  (length (List.filter is_build (events_of ex_args ex_world inbox ∅ [])) <= 1)%nat.
Proof.
  intros inbox.
  refine (proj1 (transit_receiver_made_once ex_args ex_world inbox
                   (init_state ∅ []) (Ret tt)
                   (receive ex_args ex_world inbox (init_state ∅ [])).2
                   (events_of ex_args ex_world inbox ∅ []) _ _)).
  - vm_compute. reflexivity.
  - vm_compute. reflexivity.
Defined.

(** X19. A session that starts without a transit receiver connects the
    record pipe only if it has made one. *)
Theorem connect_needs_transit a wd inbox st r st' evs :
  go a wd inbox st = (r, st') ->
  trace st' = trace st ++ evs ->
  _transit_receiver st = false ->
  In EvConnect evs ->
  exists h n, In (EvTransitReceiver h n) evs.
Proof.
  intros Hgo Htr Hf Hin.
  destruct (go_phases _ _ _ _ _ _ Hgo) as (sevs & levs & Htr' & Hs & Hl & _).
  rewrite (events_unique _ _ _ _ Htr Htr') in *. clear Htr evs.
  destruct Hl as (_ & _ & Hc & _).
  apply in_app_or in Hin as [Hin | Hin].
  { rewrite List.Forall_forall in Hs. apply Hs in Hin. discriminate Hin. }
  apply in_app_or in Hin as [Hin | Hin].
  - destruct (Hc Hin) as [Ht | (h & n & Hb)]; [congruence|].
    exists h, n. apply in_or_app. right. apply in_or_app. now left.
  - now destruct (closing_facts _ _ Hin) as (_ & _ & Hne & _).
Qed.

Lemma connect_needs_transit_witness :
  let inbox := [transit_msg; offer_msg (file_offer "b.txt" 3)] in
  exists h n, In (EvTransitReceiver h n) (events_of ex_args ex_world inbox ∅ []).
Proof.
  intros inbox.
  apply (connect_needs_transit ex_args ex_world inbox (init_state ∅ []) (Ret tt)
           (receive ex_args ex_world inbox (init_state ∅ [])).2).
  - vm_compute. reflexivity.
  - vm_compute. reflexivity.
  - reflexivity.
  - vm_compute. tauto.
Defined.

(** X20. The verifier is printed exactly when [--verify] was given and the
    channel produced one (and the code passed its assertion); the line shows
    the verifier of the channel. *)
Theorem verifier_shown_iff a wd inbox st r st' evs v :
  go a wd inbox st = (r, st') ->
  trace st' = trace st ++ evs ->
  In (EvMsg (MsgVerifier v)) evs <->
  verify a = true /\ verifier wd = inr v
  /\ zeromode a && truthy (code a) = false.
Proof.
  intros Hgo Htr.
  destruct (go_phases _ _ _ _ _ _ Hgo) as (sevs & levs & Htr' & Hs & Hl & Hv).
  rewrite (events_unique _ _ _ _ Htr Htr') in *. clear Htr evs.
  rewrite <- (Hv v). split.
  - intros Hin. apply in_app_or in Hin as [Hin | Hin]; [exact Hin|].
    apply in_app_or in Hin as [Hin | Hin].
    + destruct Hl as (Hl & _). rewrite List.Forall_forall in Hl.
      apply Hl in Hin. discriminate Hin.
    + destruct (closing_facts _ _ Hin) as (_ & _ & _ & Hne). now destruct (Hne v).
  - intros Hin. apply in_or_app. now left.
Qed.

Lemma verifier_shown_iff_witness :
  let a := {| tor := false; relay_url := "ws://relay.example:4000/v1";
              code := Some "4-purple-sausages"; zeromode := false;
              code_length := 2; verify := true;
              transit_helper := "tcp:transit.example:4001";
              no_listen := false; output_file := None; cwd := "/home/u";
              accept_file := true |} in
  let wd := {| verifier := inr abc; direct_hints := JList [];
               relay_hints := JList []; describe := "direct"; received := 3;
               written := abc; unzip := fun _ => Unpacks [] |} in
  In (EvMsg (MsgVerifier abc)) (events_of a wd [] ∅ []).
Proof.
  intros a wd.
  apply (proj2 (verifier_shown_iff a wd [] (init_state ∅ []) Pending
                  (receive a wd [] (init_state ∅ [])).2
                  (events_of a wd [] ∅ []) abc eq_refl eq_refl)).
  repeat split.
Defined.

(** X21. The peer is told that an offer is accepted at most once in a
    session, and only after the object that takes the payload exists: the
    temporary file has been opened, or the spool made. *)
Theorem accepted_after_opening a wd inbox st r st' before e after :
  go a wd inbox st = (r, st') ->
  trace st' = trace st ++ before ++ e :: after ->
  is_file_ack e = true ->
  (exists o, In o before /\ is_opening o = true)
  /\ List.filter is_file_ack before = []
  /\ List.filter is_file_ack after = [].
Proof.
  intros Hgo Htr He.
  destruct (go_phases _ _ _ _ _ _ Hgo) as (sevs & levs & Htr' & Hs & Hl & _).
  pose proof (events_unique _ _ _ _ Htr' Htr) as Heq. clear Htr Htr'.
  destruct Hl as (_ & _ & _ & Hack & Hord).
  split.
  - assert (Hall : ack_after_opening false (sevs ++ levs ++ closing r) = true).
    { rewrite ack_after_opening_setup by exact Hs.
      apply ack_after_opening_app; [exact Hord|].
      destruct r; repeat constructor. }
    destruct (ack_after_opening_split _ _ _ _ _ Hall Heq He) as [H | H];
      [discriminate H | exact H].
  - assert (Hn : (length (List.filter is_file_ack (before ++ e :: after)) <= 1)%nat).
    { rewrite <- Heq, !List.filter_app,
        (filter_setup sevs (fun x Hx => proj1 (proj2 (by_setup_facts x Hx))) Hs),
        (filter_closing r eq_refl), app_nil_r.
      exact Hack. }
    rewrite List.filter_app in Hn. cbn [List.filter] in Hn. rewrite He in Hn.
    rewrite length_app in Hn. cbn [length] in Hn.
    split.
    + destruct (List.filter is_file_ack before); [reflexivity | cbn in Hn; lia].
    + destruct (List.filter is_file_ack after); [reflexivity | cbn in Hn; lia].
Qed.

Lemma accepted_after_opening_witness :
  let inbox := [transit_msg; offer_msg (file_offer "b.txt" 3)] in
  let evs := events_of ex_args ex_world inbox ∅ [] in
  exists before after,
    evs = before ++ file_ack :: after
    /\ (exists o, In o before /\ is_opening o = true)
    /\ List.filter is_file_ack before = []
    /\ List.filter is_file_ack after = [].
Proof.
  intros inbox evs.
  exists (firstn 11 evs), (skipn 12 evs).
  split; [vm_compute; reflexivity|].
  apply (accepted_after_opening ex_args ex_world inbox (init_state ∅ []) (Ret tt)
           (receive ex_args ex_world inbox (init_state ∅ [])).2
           (firstn 11 evs) file_ack (skipn 12 evs));
    vm_compute; reflexivity.
Defined.

End SessionFacts.

Section Endings.
Import PyStr PosixPath TwistedReceiver Notions Shape Scenario Protocol ZipFile.

Lemma parse_offer_acknowledges a wd offer st st' :
  parse_offer a wd offer st = (Ret tt, st') ->
  exists evs,
    trace st' = trace st ++ evs
    /\ (In message_ack evs \/ In (EvSendRecord ok_record) evs).
Proof.
  unfold parse_offer, handle_file, handle_directory, ask_permission.
  intros H. run.
  all: find_events.
  all: first [left; cbn; tauto | right; cbn; tauto].
Qed.

(** X22. A session that succeeds has handled an offer of the peer and has
    acknowledged it: a text message with "message_ack", a file or a
    directory with the record that ends the transfer. *)
Theorem success_is_acknowledged a wd inbox st st' evs :
  go a wd inbox st = (Ret tt, st') ->
  trace st' = trace st ++ evs ->
  (exists them_d offer, In (Got them_d) inbox /\ offer_of them_d = Some offer)
  /\ (In message_ack evs \/ In (EvSendRecord ok_record) evs).
Proof.
  intros Hgo Htr.
  apply go_run in Hgo as (s & Hn & _ & _ & _ & Htr').
  inversion Hn as [r0 evs0 st0 Htr0 Hq0 Hfs0 Hr0
                  | them_d offer evs0 s1 r1 s2 r0 post st0
                      Hin Hof Htr1 Hq1 Hfs1 Hpo Hout Htr2 Hfs2 Habs2 Hx2]; subst.
  - destruct Hr0 as [H | (e & H & _)]; discriminate H.
  - split; [eauto|].
    inversion Hout; subst.
    apply parse_offer_acknowledges in Hpo as (oevs & Ho & Hack).
    assert (He : evs = evs0 ++ oevs ++ [EvWormholeClose]).
    { eapply events_unique; [exact Htr|].
      rewrite Htr', Htr2, Ho, Htr1. cbn [closing].
      rewrite app_nil_r, <- !app_assoc. reflexivity. }
    rewrite He.
    destruct Hack as [H | H]; [left | right];
      apply in_or_app; right; apply in_or_app; now left.
Qed.

Lemma success_is_acknowledged_witness :
  let inbox := [offer_msg (jobj1 "message" (JStr "hello"))] in
  (exists them_d offer, In (Got them_d) inbox /\ offer_of them_d = Some offer)
  /\ (In message_ack (events_of ex_args ex_world inbox ∅ [])
      \/ In (EvSendRecord ok_record) (events_of ex_args ex_world inbox ∅ [])).
Proof.
  intros inbox.
  apply (success_is_acknowledged ex_args ex_world inbox (init_state ∅ [])
           (receive ex_args ex_world inbox (init_state ∅ [])).2).
  - vm_compute. reflexivity.
  - vm_compute. reflexivity.
Defined.

Lemma _go_loop_pending a wd want_offer done inbox : forall st st',
  _go_loop a wd want_offer done inbox st = (Pending, st') ->
  Forall (fun g => exists kvs, g = Got (JObj kvs)
                               /\ has_key "error" kvs = false
                               /\ has_key "transit" kvs = true) inbox.
Proof.
  induction inbox as [|g inbox IH]; intros st st' H; [constructor|].
  rewrite _go_loop_cons in H.
  unfold _send_data, _get_data, py_in, getitem, try_except,
    bind, ret, raise, pending, emit, get_state in H.
  run_simpl.
  destruct g as [them_d|x].
  2: { destruct x, done; run_simpl; discriminate H. }
  repeat run_step.
  all: try match goal with
       | Hp : parse_offer _ _ _ _ = (Pending, _) |- _ =>
           now apply parse_offer_not_pending in Hp
       | Ht : _parse_transit _ _ _ _ = (Pending, _) |- _ =>
           apply _parse_transit_events in Ht as (_ & _ & _ & _ & _ & _ & Hnp);
           now destruct Hnp
       end.
  constructor; [eauto | eapply IH; eassumption].
Qed.

(** X23. The session keeps waiting only for transit messages: if it is
    still waiting when the inbox is used up, every message it read was an
    object with a "transit" key and no "error" key, the channel has not
    been closed, and the file system is as it was.  Any other message ends
    the session. *)
Theorem waits_only_for_transit a wd inbox st st' evs :
  go a wd inbox st = (Pending, st') ->
  trace st' = trace st ++ evs ->
  Forall (fun g => exists kvs, g = Got (JObj kvs)
                               /\ has_key "error" kvs = false
                               /\ has_key "transit" kvs = true) inbox
  /\ Forall (fun e => quiet e = true) evs
  /\ cur_fs st' = cur_fs st.
Proof.
  intros Hgo Htr. split.
  - apply go_unfold in Hgo as (s0 & pre & s1 & _ & _ & _ & H & _).
    rewrite _go_eq in H. run; eapply _go_loop_pending; eassumption.
  - destruct (go_session _ _ _ _ _ _ Hgo) as (Hfs & evs' & Htr' & Hs).
    rewrite (events_unique _ _ _ _ Htr Htr') in *. clear Htr evs.
    pose proof (cur_fs_app _ _ _ Htr' Hfs) as Hcur.
    assert (Hno : forall n, transfer_result wd n <> Pending).
    { intros n.
      destruct (transfer_result_cases wd n) as [[_ ->] | [[_ ->] | [_ ->]]];
        discriminate. }
    session_cases Hs.
    + cbn [closing]. rewrite app_nil_r. split; [exact Hq|].
      rewrite Hcur, app_nil_r. now apply replay_quiet.
    + inversion Hout.
    + exfalso. eapply Hno. eauto.
    + exfalso. eapply directory_result_not_pending. eauto.
Qed.

Lemma waits_only_for_transit_witness :
  let inbox := [transit_msg; transit_msg] in
  Forall (fun g => exists kvs, g = Got (JObj kvs)
                               /\ has_key "error" kvs = false
                               /\ has_key "transit" kvs = true) inbox
  /\ Forall (fun e => quiet e = true) (events_of ex_args ex_world inbox ∅ [])
  /\ cur_fs (receive ex_args ex_world inbox (init_state ∅ [])).2
     = cur_fs (init_state ∅ []).
Proof.
  intros inbox.
  apply (waits_only_for_transit ex_args ex_world inbox (init_state ∅ [])
           (receive ex_args ex_world inbox (init_state ∅ [])).2).
  - vm_compute. reflexivity.
  - vm_compute. reflexivity.
Defined.

End Endings.

Section OneTransfer.
Import PyStr PosixPath TwistedReceiver Notions Shape Scenario Protocol ZipFile.

(** X24. A session writes at most one destination: one rename, or one
    extraction, or neither. *)
Theorem at_most_one_destination_write a wd inbox st r st' evs :
  go a wd inbox st = (r, st') ->
  trace st' = trace st ++ evs ->
  (length (List.filter materializes evs) <= 1)%nat.
Proof.
  intros Hgo Htr.
  destruct (go_session _ _ _ _ _ _ Hgo) as (Hfs & evs' & Htr' & Hs).
  rewrite (events_unique _ _ _ _ Htr Htr') in *. clear Htr evs.
  assert (Hquiet : forall l, Forall (fun e => quiet e = true) l ->
            List.filter materializes l = []).
  { intros l Hl. apply filter_none. eapply quiet_forall; [|exact Hl].
    exact quiet_not_materializes. }
  assert (Hcons : List.filter materializes (consent a) = []).
  { apply filter_none, consent_not_materializes. }
  session_cases Hs; rewrite ?List.filter_app, ?(Hquiet _ Hq), ?Hcons.
  - destruct r; cbn; lia.
  - inversion Hout; subst; cbn; lia.
  - cbn. lia.
  - destruct Hop as [-> | ->]; cbn; lia.
  - subst abs tmp n0. open_transfer; cbn; lia.
  - subst abs n0. open_transfer; cbn; lia.
Qed.

Lemma at_most_one_destination_write_witness :
  let inbox := [transit_msg; offer_msg (file_offer "b.txt" 3);
                offer_msg (file_offer "c.txt" 3)] in
  (length (List.filter materializes (events_of ex_args ex_world inbox ∅ []))
   <= 1)%nat.
Proof.
  intros inbox.
  apply (at_most_one_destination_write ex_args ex_world inbox (init_state ∅ [])
           (Ret tt) (receive ex_args ex_world inbox (init_state ∅ [])).2).
  - vm_compute. reflexivity.
  - vm_compute. reflexivity.
Defined.

End OneTransfer.

Section ChannelErrors.
Import PyStr PosixPath TwistedReceiver Notions Shape Scenario Protocol ZipFile.

(** X25. What [w.get()] raises reaches the caller as it is, a wrong
    password as [WrongPasswordError] and a timeout as the timeout, with one
    exception: a closed channel becomes the transfer error "unexpected
    close".  Nothing is logged or sent, and the session closes the
    channel. *)
Theorem get_failure_outcome a wd x inbox st v :
  verifier wd = inr v ->
  zeromode a && truthy (code a) = false ->
  _go_loop a wd true false (GetRaises x :: inbox) st
  = (match x with
     | XWormholeClosed => Raise (TransferError (JStr "unexpected close"))
     | _ => Raise (exn_of_chan x)
     end, st)
  /\ (go a wd (GetRaises x :: inbox) st).1
     = match x with
       | XWormholeClosed => Raise (TransferError (JStr "unexpected close"))
       | _ => Raise (exn_of_chan x)
       end
  /\ last (trace (go a wd (GetRaises x :: inbox) st).2) = Some EvWormholeClose.
Proof.
  intros Hv Hz.
  assert (Hl : forall s,
             _go_loop a wd true false (GetRaises x :: inbox) s
             = (match x with
                | XWormholeClosed => Raise (TransferError (JStr "unexpected close"))
                | _ => Raise (exn_of_chan x)
                end, s)).
  { intros s. rewrite _go_loop_cons.
    unfold _get_data, try_except, bind, ret, raise. now destruct x. }
  split; [apply Hl|].
  unfold go, _go, addBoth, w_close, handle_code, w_verify, show_verifier.
  run_unfold. rewrite Hv. unfold truthy in *.
  destruct (tor a), (zeromode a), (code a) as [c|];
    try destruct (String.eqb c ""); try discriminate Hz;
    cbv [String.eqb negb default from_option id]; destruct (verify a);
    run_simpl; rewrite Hl; destruct x; run_simpl;
    (split; [reflexivity | apply last_snoc]).
Qed.

Lemma get_failure_outcome_witness :
  (go ex_args ex_world [GetRaises XWrongPassword] (init_state ∅ [])).1
  = Raise WrongPasswordError
  /\ (go ex_args ex_world [GetRaises XWormholeClosed] (init_state ∅ [])).1
     = Raise (TransferError (JStr "unexpected close")).
Proof.
  split.
  - exact (proj1 (proj2 (get_failure_outcome ex_args ex_world XWrongPassword []
                           (init_state ∅ []) [] eq_refl eq_refl))).
  - exact (proj1 (proj2 (get_failure_outcome ex_args ex_world XWormholeClosed []
                           (init_state ∅ []) [] eq_refl eq_refl))).
Defined.

End ChannelErrors.

Section Answers.
Import PyStr PosixPath TwistedReceiver Notions Shape Scenario Protocol ZipFile.

Lemma lower_char_y c :
  Ascii.eqb "y" (lower_char c) = Ascii.eqb c "y" || Ascii.eqb c "Y".
Proof. destruct c as [[] [] [] [] [] [] [] []]; reflexivity. Qed.

Lemma yes_answer ok :
  startswith "y" (lower ok) = true <->
  exists rest, ok = String "y" rest \/ ok = String "Y" rest.
Proof.
  destruct ok as [|c rest]; cbn [lower startswith].
  - split; [discriminate | intros (r & [H | H]); discriminate H].
  - rewrite andb_true_r, lower_char_y, orb_true_iff, !Ascii.eqb_eq. split.
    + intros [-> | ->]; exists rest; auto.
    + intros (r & [H | H]); injection H as -> _; auto.
Qed.

(** X26. Which answers grant consent: exactly the lines that begin with
    [y] or [Y], whatever follows.  Every other line, the empty one
    included, rejects the transfer. *)
Theorem answers_that_accept a st ok rest :
  accept_file a = false ->
  stdin st = ok :: rest ->
  ((ask_permission a st).1 = Ret tt <->
   exists tl, ok = String "y" tl \/ ok = String "Y" tl)
  /\ ((ask_permission a st).1 = Ret tt
      \/ (ask_permission a st).1 = Raise (RespondError "transfer rejected")).
Proof.
  intros Ha Hs. rewrite (ask_permission_answer _ _ _ _ Ha Hs). cbv zeta.
  rewrite <- yes_answer.
  destruct (startswith "y" (lower ok)); cbn [fst]; split; auto.
  - tauto.
  - split; discriminate.
Qed.

Lemma answers_that_accept_witness :
  let a := {| tor := false; relay_url := "ws://relay.example:4000/v1";
              code := Some "4-purple-sausages"; zeromode := false;
              code_length := 2; verify := false;
              transit_helper := "tcp:transit.example:4001";
              no_listen := false; output_file := None; cwd := "/home/u";
              accept_file := false |} in
  (ask_permission a (init_state ∅ ["Yikes, no"])).1 = Ret tt
  /\ ((ask_permission a (init_state ∅ [""])).1 = Ret tt
      \/ (ask_permission a (init_state ∅ [""])).1
         = Raise (RespondError "transfer rejected")).
Proof.
  intros a. split.
  - apply (proj1 (answers_that_accept a (init_state ∅ ["Yikes, no"])
                    "Yikes, no" [] eq_refl eq_refl)).
    exists "ikes, no". now right.
  - exact (proj2 (answers_that_accept a (init_state ∅ [""]) "" [] eq_refl eq_refl)).
Defined.

End Answers.
